(** * git-config-server: directory synchronizer, revision tracker,
      process supervisor, update orchestrator and webhook handler.

    The Go sources are embedded as Rocq functions.  Go's [error] interface
    is an inductive type with [option error] for a possibly-nil error, a Go
    function that can panic returns in [res], and code that changes the file
    system threads it through the state monad [M]. *)

From Stdlib Require Import ZArith List String Ascii Bool Lia Arith.
Import ListNotations.

Local Open Scope string_scope.
Local Open Scope Z_scope.
Local Open Scope list_scope.

(** ** Go values: errors, panics, state *)

Inductive errno : Type := ENOENT | ENOTDIR | EISDIR | EINVAL | EACCES.

(** [PathError e] is the [*fs.PathError] of a failed system call,
    [SkipDir] the sentinel [filepath.SkipDir], [Errorf msg cause] the value
    of [fmt.Errorf("msg ...: %w", cause)] and [ErrorString msg] an error
    made from text alone (or reported by an external collaborator). *)
Inductive error : Type :=
| PathError (e : errno)
| SkipDir
| Errorf (msg : string) (cause : error)
| ErrorString (msg : string).

(** [os.IsNotExist]: true for a path error carrying ENOENT; it does not look
    through [fmt.Errorf] wrappers, and it is false for nil. *)
Definition IsNotExist (err : option error) : bool :=
  match err with
  | Some (PathError ENOENT) => true
  | _ => false
  end.

(** [err == filepath.SkipDir] *)
Definition isSkipDir (err : error) : bool :=
  match err with SkipDir => true | _ => false end.

Definition isNil {A} (o : option A) : bool :=
  match o with None => true | Some _ => false end.

(** Result of a system call. *)
Inductive result (A : Type) : Type :=
| Ok (a : A)
| Err (e : errno).
Arguments Ok {A} a.
Arguments Err {A} e.

(** Result of running Go code: a value, a run-time panic (nil dereference,
    index out of range), or the model's recursion bound exhausted. *)
Inductive res (A : Type) : Type :=
| Ret (a : A)
| Panic
| OutOfFuel.
Arguments Ret {A} a.
Arguments Panic {A}.
Arguments OutOfFuel {A}.

Definition M (St A : Type) : Type := St -> res A * St.

Definition ret {St A} (a : A) : M St A := fun s => (Ret a, s).

Definition bind {St A B} (m : M St A) (k : A -> M St B) : M St B :=
  fun s =>
    match m s with
    | (Ret a, s') => k a s'
    | (Panic, s') => (Panic, s')
    | (OutOfFuel, s') => (OutOfFuel, s')
    end.

Definition lift {St A} (r : res A) : M St A := fun s => (r, s).

Definition gets {St A} (f : St -> A) : M St A := fun s => (Ret (f s), s).

Notation "x <- m ;; k" := (bind m (fun x => k))
  (at level 61, m at next level, right associativity).

(** ** File trees *)

Definition path : Type := list string.

(** A file carries its mode bits and content, a directory its mode bits and
    its entries.  The first entry of a name is the one the name resolves
    to.  Symbolic links are not modelled, so [os.Stat] and [os.Lstat]
    agree. *)
#[warnings="-register-all"]
Inductive node : Type :=
| File (mode : Z) (data : string)
| Dir (mode : Z) (ents : list (string * node)).

(** The tree found at a path given to the program; [None] when nothing
    exists there. *)
Definition tree : Type := option node.

(** [os.FileInfo]; a nil [FileInfo] is [None]. *)
Record FileInfo : Type := mkInfo { IsDir : bool; Mode : Z }.

(** [FileMode.Perm]: the nine permission bits, mask 0777. *)
Definition Perm (m : Z) : Z := Z.land m 511.

Definition info_of (n : node) : FileInfo :=
  match n with
  | File m _ => mkInfo false m
  | Dir m _ => mkInfo true m
  end.

Fixpoint find (c : string) (ents : list (string * node)) : option node :=
  match ents with
  | [] => None
  | (c', n) :: rest => if String.eqb c c' then Some n else find c rest
  end.

(** Replace what a name resolves to: [None] removes every entry of the name,
    [Some n] overwrites the first entry or adds one. *)
Fixpoint set_ent (c : string) (o : option node) (ents : list (string * node))
  : list (string * node) :=
  match ents with
  | [] => match o with None => [] | Some n => [(c, n)] end
  | (c', n') :: rest =>
      if String.eqb c c'
      then match o with
           | None => set_ent c None rest
           | Some n => (c, n) :: rest
           end
      else (c', n') :: set_ent c o rest
  end.

Fixpoint resolve (n : node) (p : path) : result node :=
  match p with
  | [] => Ok n
  | c :: p' =>
      match n with
      | File _ _ => Err ENOTDIR
      | Dir _ ents =>
          match find c ents with
          | None => Err ENOENT
          | Some n' => resolve n' p'
          end
      end
  end.

Definition stat (t : tree) (p : path) : result node :=
  match t with
  | None => Err ENOENT
  | Some n => resolve n p
  end.

(** Apply [f] to the entry at [p].  Every proper ancestor must be a
    directory: ENOENT when one is missing, ENOTDIR when one is a file. *)
Fixpoint descend (f : tree -> result tree) (p : path) (t : tree) : result tree :=
  match p with
  | [] => f t
  | c :: p' =>
      match t with
      | None => Err ENOENT
      | Some (File _ _) => Err ENOTDIR
      | Some (Dir m ents) =>
          match descend f p' (find c ents) with
          | Ok o => Ok (Some (Dir m (set_ent c o ents)))
          | Err e => Err e
          end
      end
  end.

(** Number of nested directory levels, the bound for a walk. *)
Fixpoint height (n : node) : nat :=
  match n with
  | File _ _ => 1%nat
  | Dir _ ents =>
      S ((fix hs (l : list (string * node)) : nat :=
            match l with
            | [] => 0%nat
            | (_, c) :: l' => Nat.max (height c) (hs l')
            end) ents)
  end.

Definition theight (t : tree) : nat :=
  match t with None => 1%nat | Some n => height n end.

(** Lexical order of [sort.Strings], by insertion. *)
Fixpoint insert_sorted (s : string) (l : list string) : list string :=
  match l with
  | [] => [s]
  | x :: l' => if String.leb s x then s :: l else x :: insert_sorted s l'
  end.

Definition sort_strings (l : list string) : list string :=
  fold_right insert_sorted [] l.

(** The names a directory lists, once each, sorted. *)
Fixpoint names_of (ents : list (string * node)) : list string :=
  match ents with
  | [] => []
  | (c, _) :: rest =>
      if existsb (String.eqb c) (names_of rest) then names_of rest
      else c :: names_of rest
  end.

(** ** The [os] package over a tree

    Mode bits are recorded, and what they forbid is not derived from them:
    every call on the destination is allowed, and a refusal on the source
    side is what [src_fault] below says. *)

(** What the process inherits: its umask, and whether the destination
    directory was named by a path that ends in a dot element (as the default
    local folder "." does), on which [os.RemoveAll] answers EINVAL. *)
Record Env : Type := mkEnv { umask : Z; dotRoot : bool }.

(** The tree the program reads from.  [src_fault p = Some e] says that the
    kernel refuses to resolve [p] and answers [e] (EACCES when the process
    may not search a directory above [p], for instance). *)
Record source : Type := mkSource {
  src_tree : tree;
  src_fault : path -> option errno
}.

Definition src_stat (S : source) (p : path) : result node :=
  match src_fault S p with
  | Some e => Err e
  | None => stat (src_tree S) p
  end.

Definition info_result (r : result node) : result FileInfo :=
  match r with
  | Ok n => Ok (info_of n)
  | Err e => Err e
  end.

Definition names_result (r : result node) : result (list string) :=
  match r with
  | Ok (Dir _ ents) => Ok (sort_strings (names_of ents))
  | Ok (File _ _) => Err ENOTDIR
  | Err e => Err e
  end.

(** [os.Stat]: the pair (info, err), one of them nil. *)
Definition os_Stat (r : result node) : option FileInfo * option error :=
  match r with
  | Ok n => (Some (info_of n), None)
  | Err e => (None, Some (PathError e))
  end.

(** A system call that changes the tree, or fails and leaves it. *)
Definition sys (f : tree -> result tree) : M tree (option error) :=
  fun t =>
    match f t with
    | Ok t' => (Ret None, t')
    | Err e => (Ret (Some (PathError e)), t)
    end.

Section Os.
Variable env : Env.

(** [os.RemoveAll]: removes the entry and everything below it; nil when
    the path does not exist. *)
Definition RemoveAll (p : path) : M tree (option error) :=
  fun t =>
    if dotRoot env && isNil (hd_error p)
    then (Ret (Some (PathError EINVAL)), t)
    else match descend (fun _ => Ok None) p t with
         | Ok t' => (Ret None, t')
         | Err ENOENT => (Ret None, t)
         | Err e => (Ret (Some (PathError e)), t)
         end.

(** [os.MkdirAll]: nil on an existing directory, ENOTDIR on (or through) a
    file, and otherwise every missing directory of the path is made, with
    mode [perm &^ umask]. *)
Fixpoint mkdirAll (perm : Z) (p : path) (t : tree) : result tree :=
  match p with
  | [] =>
      match t with
      | None => Ok (Some (Dir (Z.ldiff perm (umask env)) []))
      | Some (File _ _) => Err ENOTDIR
      | Some (Dir _ _) => Ok t
      end
  | c :: p' =>
      match t with
      | None =>
          match mkdirAll perm p' None with
          | Ok o => Ok (Some (Dir (Z.ldiff perm (umask env)) (set_ent c o [])))
          | Err e => Err e
          end
      | Some (File _ _) => Err ENOTDIR
      | Some (Dir m ents) =>
          match mkdirAll perm p' (find c ents) with
          | Ok o => Ok (Some (Dir m (set_ent c o ents)))
          | Err e => Err e
          end
      end
  end.

Definition MkdirAll (p : path) (perm : Z) : M tree (option error) :=
  sys (mkdirAll perm p).

(** [os.Create]: open with O_RDWR|O_CREATE|O_TRUNC and mode 0666.  An
    existing file is emptied and keeps its mode; a new one gets
    [0666 &^ umask]. *)
Definition os_Create (p : path) : M tree (option error) :=
  sys (descend (fun o =>
                  match o with
                  | None => Ok (Some (File (Z.ldiff 438 (umask env)) ""))
                  | Some (File m _) => Ok (Some (File m ""))
                  | Some (Dir _ _) => Err EISDIR
                  end) p).

(** [io.Copy(dstFile, srcFile)]: reading an opened directory fails with
    EISDIR; otherwise the bytes of the source are written to the
    destination file. *)
Definition io_Copy (dst : path) (srcFile : node) : M tree (option error) :=
  match srcFile with
  | Dir _ _ => ret (Some (PathError EISDIR))
  | File _ data =>
      sys (descend (fun o =>
                      match o with
                      | Some (File m _) => Ok (Some (File m data))
                      | Some (Dir _ _) => Err EISDIR
                      | None => Err ENOENT
                      end) dst)
  end.

(** [os.Chmod] *)
Definition Chmod (p : path) (m : Z) : M tree (option error) :=
  sys (descend (fun o =>
                  match o with
                  | Some (File _ d) => Ok (Some (File m d))
                  | Some (Dir _ e) => Ok (Some (Dir m e))
                  | None => Err ENOENT
                  end) p).
End Os.

(** Method calls on a [FileInfo] that may be nil: a nil receiver panics. *)
Definition info_IsDir (info : option FileInfo) : res bool :=
  match info with
  | Some i => Ret (IsDir i)
  | None => Panic
  end.

Definition info_Mode (info : option FileInfo) : res Z :=
  match info with
  | Some i => Ret (Mode i)
  | None => Panic
  end.

(** [IsExecAny]: [info.Mode().Perm()&0111 != 0] *)
Definition IsExecAny (info : option FileInfo) : res bool :=
  match info_Mode info with
  | Ret m => Ret (negb (Z.land (Perm m) 73 =? 0))
  | Panic => Panic
  | OutOfFuel => OutOfFuel
  end.

(** ** [filepath.Walk] *)

Section Walk.
Context {St : Type}.
(** [os.Lstat] and the sorted directory listing, on the tree walked. *)
Variable lstat : path -> St -> result FileInfo.
Variable readDirNames : path -> St -> result (list string).

Definition WalkFunc : Type :=
  path -> option FileInfo -> option error -> M St (option error).

Variable fn : WalkFunc.

(** The loop over the names of a directory. *)
Fixpoint walkNames (walk : path -> FileInfo -> M St (option error))
         (dir : path) (names : list string) : M St (option error) :=
  match names with
  | [] => ret None
  | name :: rest =>
      let filename := dir ++ [name] in
      fun st =>
        match lstat filename st with
        | Err e =>
            (err <- fn filename None (Some (PathError e)) ;;
             match err with
             | Some e' =>
                 if isSkipDir e' then walkNames walk dir rest
                 else ret (Some e')
             | None => walkNames walk dir rest
             end) st
        | Ok fileInfo =>
            (err <- walk filename fileInfo ;;
             match err with
             | Some e' =>
                 if negb (IsDir fileInfo) || negb (isSkipDir e')
                 then ret (Some e')
                 else walkNames walk dir rest
             | None => walkNames walk dir rest
             end) st
        end
  end.

(** [walk]: the names of a directory are read before the function is
    called on it. *)
Fixpoint walk (fuel : nat) (p : path) (info : FileInfo) : M St (option error) :=
  match fuel with
  | O => lift OutOfFuel
  | S fuel' =>
      if negb (IsDir info) then fn p (Some info) None
      else
        fun st =>
          let names := match readDirNames p st with Ok ns => ns | Err _ => [] end in
          let err := match readDirNames p st with
                     | Ok _ => None
                     | Err e => Some (PathError e)
                     end in
          (err1 <- fn p (Some info) err ;;
           if negb (isNil err) || negb (isNil err1) then ret err1
           else walkNames (walk fuel') p names) st
  end.

Definition Walk (fuel : nat) : M St (option error) :=
  fun st =>
    (err <- match lstat [] st with
            | Err e => fn [] None (Some (PathError e))
            | Ok info => walk fuel [] info
            end ;;
     match err with
     | Some SkipDir => ret None
     | _ => ret err
     end) st.
End Walk.

(** [if err := m; err != nil { return fmt.Errorf(msg, err) }; k] *)
Definition orWrap {St} (msg : string) (m : M St (option error))
           (k : M St (option error)) : M St (option error) :=
  err <- m ;;
  match err with
  | Some e => ret (Some (Errorf msg e))
  | None => k
  end.

(** [if err := m; err != nil { return err }; k] *)
Definition orReturn {St} (m : M St (option error))
           (k : M St (option error)) : M St (option error) :=
  err <- m ;;
  match err with
  | Some e => ret (Some e)
  | None => k
  end.

(** ** copy.go: the parts the three versions of [SyncDirs] share

    [SyncDirs(src, dst)] reads the tree at [src] and changes the tree at
    [dst]; the two are taken to be disjoint, as the scratch checkout and the
    local folder are.  A path of the model is the list of elements below
    the root walked, so [filepath.Rel] is the identity and never fails, and
    [filepath.Join(src, relPath)] is the same list read in the source. *)

Section SyncShared.
Variable env : Env.
Variable S : source.

Definition dst_lstat (p : path) (t : tree) : result FileInfo :=
  info_result (stat t p).
Definition dst_readDirNames (p : path) (t : tree) : result (list string) :=
  names_result (stat t p).
Definition src_lstat (p : path) (_ : tree) : result FileInfo :=
  info_result (src_stat S p).
Definition src_readDirNames (p : path) (_ : tree) : result (list string) :=
  names_result (src_stat S p).

(** The condition of the prune pass,
    [os.IsNotExist(err) || (srcInfo.IsDir() != info.IsDir())
      || (IsExecAny(srcInfo) != IsExecAny(info))],
    evaluated left to right. *)
Definition mismatch (srcInfo : option FileInfo) (err : option error)
           (info : option FileInfo) : res bool :=
  if IsNotExist err then Ret true
  else
    match info_IsDir srcInfo with
    | Ret sd =>
        match info_IsDir info with
        | Ret dd =>
            if negb (Bool.eqb sd dd) then Ret true
            else
              match IsExecAny srcInfo with
              | Ret se =>
                  match IsExecAny info with
                  | Ret de => Ret (negb (Bool.eqb se de))
                  | Panic => Panic
                  | OutOfFuel => OutOfFuel
                  end
              | Panic => Panic
              | OutOfFuel => OutOfFuel
              end
        | Panic => Panic
        | OutOfFuel => OutOfFuel
        end
    | Panic => Panic
    | OutOfFuel => OutOfFuel
    end.

(** The body of the prune callback from [srcPath := ...] on. *)
Definition pruneEntry (p : path) (info : option FileInfo)
  : M tree (option error) :=
  let srcPath := p in
  let (srcInfo, err) := os_Stat (src_stat S srcPath) in
  remove <- lift (mismatch srcInfo err info) ;;
  if remove
  then orWrap "failed to remove dst file or dir" (RemoveAll env p) (ret None)
  else ret None.
End SyncShared.

(** ** copy.go as in src/unnamed/part_000: the mode of the source file is
       passed to [copyFile] *)
Module CopyMode.
Section Sync.
Variable env : Env.
Variable S : source.

Definition copyFile (src dst : path) (mode : Z) : M tree (option error) :=
  match src_stat S src with
  | Err e => ret (Some (PathError e))
  | Ok srcFile =>
      orReturn (os_Create env dst)
        (orReturn (io_Copy dst srcFile)
           (if negb (mode =? 0) then Chmod dst mode else ret None))
  end.

Definition pruneFn (p : path) (info : option FileInfo) (err : option error)
  : M tree (option error) :=
  match err with
  | Some e => ret (Some e)
  | None => pruneEntry env S p info
  end.

Definition copyFn (p : path) (info : option FileInfo) (err : option error)
  : M tree (option error) :=
  match err with
  | Some e => ret (Some e)
  | None =>
      let dstPath := p in
      isdir <- lift (info_IsDir info) ;;
      if isdir
      then orWrap "failed to create dst dir" (MkdirAll env dstPath 509) (ret None)
      else
        mode <- lift (info_Mode info) ;;
        orWrap "failed to copy source dir" (copyFile p dstPath (Perm mode)) (ret None)
  end.

Definition SyncDirs : M tree (option error) :=
  fuel <- gets theight ;;
  err <- Walk dst_lstat dst_readDirNames pruneFn fuel ;;
  if negb (isNil err) && negb (IsNotExist err)
  then ret (option_map (Errorf "failed to remove non-matching dst dir") err)
  else Walk (src_lstat S) (src_readDirNames S) copyFn (theight (src_tree S)).
End Sync.
End CopyMode.

(** ** copy.go, first version in src/copy.go: [copyFile] takes a flag
       [setExecutableBit], and [SyncDirs] passes [userExecutableBit == 0] *)
Module CopyFlag.
Section Sync.
Variable env : Env.
Variable S : source.

Definition copyFile (src dst : path) (setExecutableBit : bool)
  : M tree (option error) :=
  match src_stat S src with
  | Err e => ret (Some (Errorf "failed to open source file" (PathError e)))
  | Ok srcFile =>
      orWrap "failed to create dest file" (os_Create env dst)
        (orWrap "failed to copy source file to dest file" (io_Copy dst srcFile)
           (if negb setExecutableBit then ret None
            else
              (* Get current permissions and add user executable bit *)
              fun t =>
                match stat t dst with
                | Err e => (Ret (Some (Errorf "failed to stat dest file" (PathError e))), t)
                | Ok n =>
                    let currentMode := Perm (Mode (info_of n)) in
                    let newMode := Z.lor currentMode 64 in
                    orWrap "failed to chmod dest file" (Chmod dst newMode) (ret None) t
                end))
  end.

Definition pruneFn (p : path) (info : option FileInfo) (err : option error)
  : M tree (option error) :=
  match err with
  | Some e => ret (Some e)
  | None => pruneEntry env S p info
  end.

Definition copyFn (p : path) (info : option FileInfo) (err : option error)
  : M tree (option error) :=
  match err with
  | Some e => ret (Some e)
  | None =>
      let dstPath := p in
      isdir <- lift (info_IsDir info) ;;
      if isdir
      then orWrap "failed to create dst dir" (MkdirAll env dstPath 509) (ret None)
      else
        m <- lift (info_Mode info) ;;
        let mode := Perm m in
        let userExecutableBit := Z.land mode 64 in
        orWrap "failed to copy source dir"
          (copyFile p dstPath (userExecutableBit =? 0)) (ret None)
  end.

Definition SyncDirs : M tree (option error) :=
  fuel <- gets theight ;;
  err <- Walk dst_lstat dst_readDirNames pruneFn fuel ;;
  if negb (isNil err) && negb (IsNotExist err)
  then ret (option_map (Errorf "failed to remove non-matching dst dir") err)
  else Walk (src_lstat S) (src_readDirNames S) copyFn (theight (src_tree S)).
End Sync.
End CopyFlag.

(** ** copy.go, second version in src/copy.go: entries that the source's
       .gitignore matches are kept by the prune pass *)

(** The library functions [loadGitignorePatterns] calls: the lines a
    [bufio.Scanner] yields for a file, [strings.TrimSpace], and go-git's
    [gitignore.ParsePattern] and [gitignore.NewMatcher(ps).Match]. *)
Record GoLib : Type := mkLib {
  scanLines : string -> list string;
  TrimSpace : string -> string;
  Pattern : Type;
  ParsePattern : string -> list string -> Pattern;
  Match : list Pattern -> list string -> bool -> bool
}.

Module CopyIgnore.
Section Sync.
Variable env : Env.
Variable lib : GoLib.
Variable S : source.

Definition copyFile (src dst : path) (setExecutableBit : bool)
  : M tree (option error) :=
  match src_stat S src with
  | Err e => ret (Some (Errorf "failed to open source file" (PathError e)))
  | Ok srcFile =>
      orWrap "failed to create dest file" (os_Create env dst)
        (orWrap "failed to copy source file to dest file" (io_Copy dst srcFile)
           (if negb setExecutableBit then ret None
            else
              (* Get current permissions and add user executable bit *)
              fun t =>
                match stat t dst with
                | Err e => (Ret (Some (Errorf "failed to stat dest file" (PathError e))), t)
                | Ok n =>
                    let currentMode := Perm (Mode (info_of n)) in
                    let currentExecutableBit := Z.land currentMode 64 in
                    if negb (currentExecutableBit =? 0) then (Ret None, t)
                    else
                      let newMode := Z.lor currentMode 64 in
                      orWrap "failed to chmod dest file" (Chmod dst newMode) (ret None) t
                end))
  end.

(** [loadGitignorePatterns]: no patterns when src/.gitignore cannot be
    opened (or read); blank lines and comments are skipped; the domain is
    nil. *)
Definition loadGitignorePatterns : list (Pattern lib) :=
  let domain : list string := [] in
  match src_stat S [".gitignore"] with
  | Ok (File _ data) =>
      map (fun line => ParsePattern lib line domain)
          (filter (fun line => negb (String.eqb line "" || String.prefix "#" line))
                  (map (TrimSpace lib) (scanLines lib data)))
  | _ => []
  end.

(** [strings.Split(filepath.ToSlash(relPath), "/")]: the relative path of
    the root is ".". *)
Definition gitignorePath (relPath : path) : list string :=
  match relPath with
  | [] => ["."]
  | _ => relPath
  end.

Definition pruneFn (gitignoreMatcher : list (Pattern lib))
           (p : path) (info : option FileInfo) (err : option error)
  : M tree (option error) :=
  match err with
  | Some e => ret (Some e)
  | None =>
      isdir <- lift (info_IsDir info) ;;
      if Match lib gitignoreMatcher (gitignorePath p) isdir
      then
        (* This file/directory is gitignored, so preserve it in destination *)
        if isdir then ret (Some SkipDir) else ret None
      else pruneEntry env S p info
  end.

Definition copyFn (p : path) (info : option FileInfo) (err : option error)
  : M tree (option error) :=
  match err with
  | Some e => ret (Some e)
  | None =>
      let dstPath := p in
      isdir <- lift (info_IsDir info) ;;
      if isdir
      then orWrap "failed to create dst dir" (MkdirAll env dstPath 509) (ret None)
      else
        m <- lift (info_Mode info) ;;
        let mode := Perm m in
        let userExecutableBit := Z.land mode 64 in
        orWrap "failed to copy source dir"
          (copyFile p dstPath (negb (userExecutableBit =? 0))) (ret None)
  end.

Definition SyncDirs : M tree (option error) :=
  let gitignoreMatcher := loadGitignorePatterns in
  fuel <- gets theight ;;
  err <- Walk dst_lstat dst_readDirNames (pruneFn gitignoreMatcher) fuel ;;
  if negb (isNil err) && negb (IsNotExist err)
  then ret (option_map (Errorf "failed to remove non-matching dst dir") err)
  else Walk (src_lstat S) (src_readDirNames S) copyFn (theight (src_tree S)).
End Sync.
End CopyIgnore.

(** A library instance for .gitignore files made of plain names, one per
    line: a pattern without slash, wildcard or negation matches a path when
    one of the path's elements is that name (go-git's [simpleNameMatch]). *)
Fixpoint split_lines (acc s : string) : list string :=
  match s with
  | EmptyString => if String.eqb acc "" then [] else [acc]
  | String c s' =>
      if Ascii.eqb c "010"%char then acc :: split_lines "" s'
      else split_lines (acc ++ String c "")%string s'
  end.

Definition plainLib : GoLib :=
  {| scanLines := split_lines "";
     TrimSpace := fun s => s;
     Pattern := string;
     ParsePattern := fun line _ => line;
     Match := fun ps p _ =>
                existsb (fun pat => existsb (String.eqb pat) p) ps |}.

(** ** The program state and what lies outside the program *)

(** A value or a Go error. *)
Definition fallible (A : Type) : Type := (A + error)%type.

(** command.go: the fields of [Command] that the methods read or write.
    [cmd] is the [*exec.Cmd] of the last [Start], by its argument vector;
    [cancel] says whether [c.cancel] is non-nil.  The channels and contexts
    are the plumbing between [Stop] and the watcher goroutine, whose
    outcomes come from [Procs]. *)
Record Command : Type := mkCommand {
  Args : list string;
  Pid : Z;
  RestartArgs : list string;
  cmd : option (list string);
  cancel : bool;
  exitCode : Z
}.

Record GitRepo : Type := mkGitRepo {
  URL : string;
  Branch : string;
  RepoFolder : string;
  username : string;
  password : string;
  lastFetchedCommit : string
}.

(** What the program does to the outside world, latest first. *)
Inductive event : Type :=
| EvProbe (url branch : string)
| EvFetch (commit : string)
| EvSync
| EvShell (runner command : string)
| EvRun (argv : list string)
| EvSpawn (argv : list string)
| EvCancel.

(** [local] is the tree at [Options.LocalFolder]. *)
Record State : Type := mkState {
  gitRepo : GitRepo;
  command : Command;
  local : tree;
  log : list event
}.

(** The remote repository as go-git shows it to this [GitRepo]:
    [remote_head] is the outcome of the in-memory clone and [repo.Head()],
    [remote_checkout] that of [os.MkdirTemp], [git.PlainClone],
    [ResolveRevision], [Worktree] and [Checkout]: the first error, or the
    tree at [path.Join(tmpDir, gitRepo.RepoFolder)]. *)
Record Remote : Type := mkRemote {
  remote_head : GitRepo -> fallible string;
  remote_checkout : GitRepo -> string -> fallible source
}.

(** What [cmd.Wait()] returns to the watcher. *)
Inductive waitResult : Type :=
| WaitNil
| WaitExit (code : Z)
| WaitErr (e : error).

(** The operating system as the supervisor meets it: [spawn] is the outcome
    of [cmd.Start()] (the pid or an error), [wait] what the watcher gets
    once the context is cancelled, [select_exit] whether the [select] of
    [Stop] takes the [exitCh] case when both channels are ready,
    [watcher_done] whether the watcher has run its deferred
    [c.cancel = nil] by the time [Stop] returns, and [run] the outcome of
    [exec.Command(argv...).Run()] with what it did to the local folder. *)
Record Procs : Type := mkProcs {
  spawn : list string -> fallible Z;
  wait : waitResult;
  select_exit : bool;
  watcher_done : bool;
  run : list string -> tree -> option error * tree
}.

(** [shell runner command] is the outcome of [runner -c command] run in the
    local folder. *)
Record Outside : Type := mkOutside {
  remote : Remote;
  procs : Procs;
  shell : string -> string -> tree -> option error * tree
}.

Definition modify {St} (f : St -> St) : M St unit := fun s => (Ret tt, f s).

Definition set_gitRepo (g : GitRepo) (st : State) : State :=
  mkState g (command st) (local st) (log st).
Definition set_command (c : Command) (st : State) : State :=
  mkState (gitRepo st) c (local st) (log st).
Definition set_local (t : tree) (st : State) : State :=
  mkState (gitRepo st) (command st) t (log st).

Definition emit (e : event) : M State unit :=
  modify (fun st => mkState (gitRepo st) (command st) (local st) (e :: log st)).

(** Run file-system code on the local folder. *)
Definition on_local {A} (m : M tree A) : M State A :=
  fun st => let (r, t') := m (local st) in (r, set_local t' st).

(** An external program run in the local folder. *)
Definition external (f : tree -> option error * tree) : M State (option error) :=
  on_local (fun t => let (err, t') := f t in (Ret err, t')).

(** ** command.go (src/unnamed/part_000) *)

Definition NewCommand (args restartArgs : list string) : Command :=
  mkCommand args (-1) restartArgs None false 0.

Definition IsRunning (c : Command) : bool := cancel c.

Section Supervisor.
Variable P : Procs.

(** [Start]: [c.cmd] is assigned before the process is started, and
    [c.Args[0]] panics on an empty argument vector. *)
Definition Start : M State (option error) :=
  c <- gets command ;;
  if IsRunning c then ret (Some (ErrorString "command is already running"))
  else
    match Args c with
    | [] => lift Panic
    | _ :: _ =>
        _ <- modify (set_command
                       (mkCommand (Args c) (Pid c) (RestartArgs c)
                                  (Some (Args c)) (cancel c) (exitCode c))) ;;
        _ <- emit (EvSpawn (Args c)) ;;
        match spawn P (Args c) with
        | inr e => ret (Some e)
        | inl pid =>
            _ <- modify (set_command
                           (mkCommand (Args c) pid (RestartArgs c)
                                      (Some (Args c)) true (exitCode c))) ;;
            ret None
        end
    end.

(** What the watcher goroutine writes when the process ends:
    [c.exitCode], and at the very end [c.cancel = nil]. *)
Definition watcher (cleared : bool) (c : Command) : Command :=
  mkCommand (Args c) (Pid c) (RestartArgs c) (cmd c)
            (if cleared then false else cancel c)
            (match wait P with
             | WaitExit code => code
             | _ => 0
             end).

(** [Stop]: cancel the context and wait for the watcher on [errorCh] and
    [exitCh]. *)
Definition Stop : M State (option error) :=
  c <- gets command ;;
  if negb (cancel c) then ret None
  else
    _ <- emit EvCancel ;;
    _ <- modify (set_command (watcher (watcher_done P) c)) ;;
    match wait P with
    | WaitErr e => if select_exit P then ret None else ret (Some e)
    | _ => ret None
    end.

Definition Restart : M State (option error) :=
  c <- gets command ;;
  if (0 <? Z.of_nat (List.length (RestartArgs c)))
  then
    _ <- emit (EvRun (RestartArgs c)) ;;
    orWrap "failed to restart command" (external (run P (RestartArgs c))) (ret None)
  else
    match Args c with
    | [] => lift Panic
    | _ :: _ =>
        orWrap "failed to stop command" Stop
          (orWrap "failed to start command again" Start (ret None))
    end.
End Supervisor.

(** [runShellCommand], with a working directory that is not empty. *)
Definition runShellCommand (W : Outside) (shellCommand runner : string)
  : M State (option error) :=
  _ <- emit (EvShell runner shellCommand) ;;
  orWrap "failed to run shell command" (external (shell W runner shellCommand))
         (ret None).

(** ** git.go *)

Fixpoint trim_left_slash (s : string) : string :=
  match s with
  | String c s' => if Ascii.eqb c "/"%char then trim_left_slash s' else s
  | EmptyString => s
  end.

Definition NewGitRepo (url branch repoFolder user pass : string) : GitRepo :=
  mkGitRepo url branch (trim_left_slash repoFolder) user pass "".

Section Git.
(** The [SyncDirs] of the package. *)
Variable SyncDirs : source -> M tree (option error).
Variable W : Outside.

Definition GetLastCommit : M State (string * option error) :=
  g <- gets gitRepo ;;
  _ <- emit (EvProbe (URL g) (Branch g)) ;;
  match remote_head (remote W) g with
  | inr e => ret ("", Some e)
  | inl commit =>
      if String.eqb commit ""
      then ret ("", Some (ErrorString "could not get commit hash"))
      else ret (commit, None)
  end.

Definition Fetch (commit : string) : M State (option error) :=
  g <- gets gitRepo ;;
  _ <- emit (EvFetch commit) ;;
  match remote_checkout (remote W) g commit with
  | inr e => ret (Some e)
  | inl repoSourceFolder =>
      _ <- emit EvSync ;;
      orReturn (on_local (SyncDirs repoSourceFolder)) (ret None)
  end.

(** [GitRepo.Sync] *)
Definition Sync : M State (bool * option error) :=
  r <- GetLastCommit ;;
  let (lastCommit, err) := r in
  match err with
  | Some e => ret (false, Some e)
  | None =>
      g <- gets gitRepo ;;
      if String.eqb (lastFetchedCommit g) lastCommit then ret (false, None)
      else
        err <- Fetch lastCommit ;;
        match err with
        | Some e => ret (false, Some e)
        | None =>
            _ <- modify (fun st =>
                           set_gitRepo
                             (mkGitRepo (URL (gitRepo st)) (Branch (gitRepo st))
                                        (RepoFolder (gitRepo st))
                                        (username (gitRepo st))
                                        (password (gitRepo st)) lastCommit) st) ;;
            ret (true, None)
        end
  end.

(** ** main.go *)

Variable env : Env.
(** [beforeUpdate] is nil when [Options.PreUpdateCommand] is empty. *)
Variable beforeUpdate : option (M State (option error)).

Definition InitializeGit : M State (bool * option error) :=
  err <- on_local (MkdirAll env [] 509) ;;
  match err with
  | Some e => ret (false, Some (Errorf "failed to create local folder" e))
  | None =>
      r <- Sync ;;
      let ok := isNil (snd r) in
      match beforeUpdate with
      | Some f =>
          err <- f ;;
          ret (ok && isNil err, None)
      | None => ret (ok, None)
      end
  end.

Definition Check : M State (option error) :=
  r <- Sync ;;
  let (changed, err) := r in
  match err with
  | Some _ => ret None
  | None =>
      if changed
      then
        err <- match beforeUpdate with
               | Some f => f
               | None => ret None
               end ;;
        match err with
        | Some _ => ret None
        | None =>
            err <- Restart (procs W) ;;
            match err with
            | Some _ => ret None
            | None => ret None
            end
        end
      else ret None
  end.
End Git.

(** The case the [select] of the main loop takes. *)
Inductive trigger : Type := CtxDone | UpdateCh | TimeAfter.

(** The variables of [main] that the loop reads and writes; [fatal] holds
    the message of a [log.Fatalf], which ends the process. *)
Record Loop : Type := mkLoop {
  state : State;
  gitInitialized : bool;
  done : bool;
  fatal : option string
}.

Section Main.
Variable SyncDirs : source -> M tree (option error).
Variable env : Env.
Variable PreUpdateCommand PreUpdateRunner : string.

Definition beforeUpdate (W : Outside) : option (M State (option error)) :=
  if String.eqb PreUpdateCommand "" then None
  else Some (runShellCommand W PreUpdateCommand PreUpdateRunner).

(** From [gitInitialized := false] to the first [command.Start()]. *)
Definition startup (W : Outside) (st : State) : res Loop :=
  let gitInitialized := false in
  match InitializeGit SyncDirs W env (beforeUpdate W) st with
  | (Ret (ok, err), st1) =>
      match err with
      | Some _ => Ret (mkLoop st1 gitInitialized false
                              (Some "failed to initialize monitor"))
      | None =>
          let gitInitialized := if ok then true else gitInitialized in
          match Start (procs W) st1 with
          | (Ret err, st2) =>
              match err with
              | Some _ => Ret (mkLoop st2 gitInitialized false
                                      (Some "command failed to even start"))
              | None => Ret (mkLoop st2 gitInitialized false None)
              end
          | (Panic, _) => Panic
          | (OutOfFuel, _) => OutOfFuel
          end
      end
  | (Panic, _) => Panic
  | (OutOfFuel, _) => OutOfFuel
  end.

(** One turn of [for !done { ... }]. *)
Definition iteration (W : Outside) (tr : trigger) (l : Loop) : res Loop :=
  match tr with
  | CtxDone => Ret (mkLoop (state l) (gitInitialized l) true (fatal l))
  | UpdateCh | TimeAfter =>
      if negb (gitInitialized l)
      then
        match InitializeGit SyncDirs W env (beforeUpdate W) (state l) with
        | (Ret (ok, err), st1) =>
            if negb (isNil err) && ok
            then Ret (mkLoop st1 true (done l) (fatal l))
            else Ret (mkLoop st1 (gitInitialized l) (done l) (fatal l))
        | (Panic, _) => Panic
        | (OutOfFuel, _) => OutOfFuel
        end
      else
        match Check SyncDirs W (beforeUpdate W) (state l) with
        | (Ret err, st1) =>
            match err with
            | Some _ => Ret (mkLoop st1 (gitInitialized l) (done l)
                                    (Some "failed to check"))
            | None => Ret (mkLoop st1 (gitInitialized l) (done l) (fatal l))
            end
        | (Panic, _) => Panic
        | (OutOfFuel, _) => OutOfFuel
        end
  end.

(** The loop over what the outside offers turn by turn; it ends when [done]
    is set or the process has exited. *)
Fixpoint loop (turns : list (Outside * trigger)) (l : Loop) : res Loop :=
  match turns with
  | [] => Ret l
  | (W, tr) :: rest =>
      if done l || negb (isNil (fatal l)) then Ret l
      else
        match iteration W tr l with
        | Ret l' => loop rest l'
        | Panic => Panic
        | OutOfFuel => OutOfFuel
        end
  end.
End Main.

(** The newline character. *)
Definition nl : string := String "010"%char EmptyString.

(** ** The trigger queue of main.go

    [updateCh := make(chan struct{}, 5)] carries no data, so a channel is
    its capacity, the number of buffered elements and the number of senders
    parked on it.  The webhook callback is
    [func() error { updateCh <- struct{}{}; return nil }] and the main loop
    receives in [case <-updateCh:]. *)
Record Chan : Type := mkChan {
  capacity : nat;
  buffered : nat;
  parked : nat
}.

Definition make_chan (n : nat) : Chan := mkChan n 0 0.

Definition updateCh : Chan := make_chan 5.

(** What happens to the goroutine that executes [ch <- struct{}{}]. *)
Inductive sendResult : Type :=
| Sent
| SendBlocks.

(** A send statement: it completes when the buffer has room and parks the
    sender otherwise. *)
Definition chan_send (c : Chan) : sendResult * Chan :=
  if (buffered c <? capacity c)%nat
  then (Sent, mkChan (capacity c) (S (buffered c)) (parked c))
  else (SendBlocks, mkChan (capacity c) (buffered c) (S (parked c))).

(** A receive on a channel that has a buffer: it takes the oldest element,
    and the element of a parked sender moves into the buffer, which
    releases that sender; [None] when there is nothing to receive. *)
Definition chan_recv (c : Chan) : option Chan :=
  match buffered c with
  | O => None
  | S b =>
      match parked c with
      | O => Some (mkChan (capacity c) b 0)
      | S s => Some (mkChan (capacity c) (S b) s)
      end
  end.

(** The calls of the webhook callback and the receives of the main loop, in
    the order they happen. *)
Inductive queue_event : Type :=
| Trigger
| Receive.

Definition queue_step (c : Chan) (ev : queue_event) : Chan :=
  match ev with
  | Trigger => snd (chan_send c)
  | Receive =>
      match chan_recv c with
      | Some c' => c'
      | None => c
      end
  end.

Definition queue_run (evs : list queue_event) (c : Chan) : Chan :=
  fold_left queue_step evs c.

(** ** webhook.go: the handler of [StartWebhookServer] *)

Record Request : Type := mkRequest {
  Method : string;
  RequestURI : string;
  HeaderGet : string -> string
}.

(** The status code and body written to the [ResponseWriter], and the
    status handed to [printLog]. *)
Record Response : Type := mkResponse {
  statusCode : Z;
  body : string;
  logged : Z
}.

(** [strings.Contains] *)
Fixpoint Contains (s substr : string) : bool :=
  String.prefix substr s
  || match s with
     | EmptyString => false
     | String _ s' => Contains s' substr
     end.

Section Webhook.
Context {St : Type}.
Variable trimSpace : string -> string.
(** [err.Error()] *)
Variable errorText : error -> string.
Variable tokenHeader tokenValue : string.
Variable onInvoked : M St (option error).

(** [http.Error(w, msg, code)] writes the code and the message with a
    newline. *)
Definition http_Error (msg : string) (code status : Z) : Response :=
  mkResponse code (msg ++ nl)%string status.

Definition handler (r : Request) : M St Response :=
  let status := 200 in
  if String.eqb (Method r) "GET" && Contains (RequestURI r) "/health"
  then ret (mkResponse 200 "OK" status)
  else if negb (String.eqb (Method r) "POST")
  then ret (http_Error "Invalid request method" 405 405)
  else if negb (String.eqb tokenHeader "")
          && negb (String.eqb (trimSpace (HeaderGet r tokenHeader)) tokenValue)
  then ret (http_Error "Not authorized" 403 403)
  else
    err <- onInvoked ;;
    match err with
    | Some e => ret (http_Error (errorText e) 500 status)
    | None => ret (mkResponse 200 "" status)
    end.
End Webhook.

(** ** Vocabulary of the statements *)

(** [a] is a prefix of [b]: the path [b] is [a] or lies below it. *)
Fixpoint prefixb (a b : path) : bool :=
  match a, b with
  | [], _ => true
  | x :: a', y :: b' => String.eqb x y && prefixb a' b'
  | _ :: _, [] => false
  end.

(** The entry at a path, as a tree. *)
Definition entry (t : tree) (p : path) : tree :=
  match stat t p with
  | Ok n => Some n
  | Err _ => None
  end.

(** [f] keeps the entries of a directory it is applied to. *)
Definition keeps_entries (f : tree -> result tree) : Prop :=
  forall m e o, f (Some (Dir m e)) = Ok o -> exists m', o = Some (Dir m' e).

(** The callback of a walk is given the answer of [lstat] on the current
    state. *)
Definition seen {St} (lstat : path -> St -> result FileInfo)
           (q : path) (oi : option FileInfo) (st : St) : Prop :=
  match oi with
  | Some i => lstat q st = Ok i
  | None => exists e, lstat q st = Err e
  end.

(** The mode a file at the destination has before the copy: its own when it
    exists, that of a new file otherwise. *)
Definition mode_before (env : Env) (o : tree) : Z :=
  match o with
  | Some (File m _) => m
  | _ => Z.ldiff 438 (umask env)
  end.

(** [copyFn] is the callback of the copy pass; the walk hands it the info
    of the source file at [p].  User-execute is bit 0100 (64), the read and
    write bits are 0666 (438).  A successful copy of a source file that has
    the user-execute bit leaves a destination file that has it. *)
Definition propagates_exec (S : source) (copyFn : @WalkFunc tree) : Prop :=
  forall p i t t',
    info_result (src_stat S p) = Ok i -> IsDir i = false ->
    Z.land (Perm (Mode i)) 64 <> 0 ->
    copyFn p (Some i) None t = (Ret None, t') ->
    exists m data, stat t' p = Ok (File m data) /\ Z.land (Perm m) 64 <> 0.

(** An overwriting copy leaves the read and write bits of the destination
    file as they were. *)
Definition preserves_rw (S : source) (copyFn : @WalkFunc tree) : Prop :=
  forall p i t t' m0 d0,
    info_result (src_stat S p) = Ok i -> IsDir i = false ->
    stat t p = Ok (File m0 d0) ->
    copyFn p (Some i) None t = (Ret None, t') ->
    exists m data,
      stat t' p = Ok (File m data) /\
      Z.land (Perm m) 438 = Z.land (Perm m0) 438.

(** The destination takes the permission bits of the source. *)
Definition imposes_source_perm (S : source) (copyFn : @WalkFunc tree) : Prop :=
  forall p i t t',
    info_result (src_stat S p) = Ok i -> IsDir i = false ->
    Perm (Mode i) <> 0 ->
    copyFn p (Some i) None t = (Ret None, t') ->
    exists data, stat t' p = Ok (File (Perm (Mode i)) data).

(** The prune pass of the gitignore-aware version removes an entry with
    path [a] and info [i]: no ignore rule matches it and the comparison with
    the source says so. *)
Definition pruned (lib : GoLib) (S : source) (a : path) (i : FileInfo) : bool :=
  negb (Match lib (CopyIgnore.loadGitignorePatterns lib S)
              (CopyIgnore.gitignorePath a) (IsDir i))
  && match mismatch (fst (os_Stat (src_stat S a)))
                    (snd (os_Stat (src_stat S a))) (Some i) with
     | Ret true => true
     | _ => false
     end.

(** [q] is not strictly below [p]. *)
Definition not_below (p q : path) : Prop := prefixb p q = true -> q = p.

(** The entry at [p] is [n], and the ancestors of [p] have the kind and
    mode they have in [dst0]. *)
Definition spine_kept (dst0 : tree) (p : path) (n : node) (st : tree) : Prop :=
  stat st p = Ok n /\
  forall a, prefixb a p = true ->
            info_result (stat st a) = info_result (stat dst0 a).

(** The height of the entry at a path, 0 when there is none. *)
Definition size_at (t : tree) (a : path) : nat :=
  match stat t a with
  | Ok n => height n
  | Err _ => 0%nat
  end.

(** The greatest height among the entries of a directory. *)
Fixpoint hmax (ents : list (string * node)) : nat :=
  match ents with
  | [] => 0%nat
  | (_, c) :: rest => Nat.max (height c) (hmax rest)
  end.

(** A node without what lies below it: a file as it is, a directory with
    its mode only. *)
Definition shallow (n : node) : node :=
  match n with
  | File m d => File m d
  | Dir m _ => Dir m []
  end.

(** What there is at a path, without what lies below it. *)
Definition look (t : tree) (p : path) : result node :=
  match stat t p with
  | Ok n => Ok (shallow n)
  | Err e => Err e
  end.

(** The destination has at [p] what the source node [n] asks for: a
    directory for a directory, and for a file a file with the same bytes
    whose mode stands in the relation [good] to the mode of the source. *)
Definition mirrors (good : Z -> Z -> Prop) (n : node) (t : tree) (p : path)
  : Prop :=
  match n with
  | File sm d => exists m, look t p = Ok (File m d) /\ good sm m
  | Dir _ _ => exists m, look t p = Ok (Dir m [])
  end.

(** How the mode [m] of the copy relates to the mode [sm] of the source
    file: for the gitignore-aware version the user-execute bit (0100 = 64)
    is handed on, for src/unnamed/part_000 the permission bits are unless
    they are all zero, and the first version of src/copy.go sets the
    user-execute bit on the copy when the source file does not have it (it
    passes [userExecutableBit == 0] as [setExecutableBit]). *)
Definition exec_handed_on (sm m : Z) : Prop :=
  Z.land (Perm sm) 64 <> 0 -> Z.land (Perm m) 64 <> 0.

Definition perm_handed_on (sm m : Z) : Prop :=
  Perm sm <> 0 -> m = Perm sm.

Definition exec_set_when_absent (sm m : Z) : Prop :=
  Z.land (Perm sm) 64 = 0 -> Z.land (Perm m) 64 <> 0.

(** The source directory does not exist: every path in it answers
    ENOENT. *)
Definition source_missing (S : source) : Prop :=
  forall p, src_stat S p = Err ENOENT.

(** [gitignore.NewMatcher(nil).Match] is false, as go-git's loop over no
    patterns is. *)
Definition empty_matcher_matches_nothing (lib : GoLib) : Prop :=
  forall p isDir, Match lib [] p isDir = false.

(** [f] puts nothing below the entry it is applied to. *)
Definition adds_nothing_below (f : tree -> result tree) : Prop :=
  forall o o' c r n, f o = Ok o' -> stat o' (c :: r) = Ok n -> stat o (c :: r) = Ok n.

(** What [t'] has at [p], [t] has: same kind, mode and bytes. *)
Definition from_before (p : path) (t t' : tree) : Prop :=
  forall x, look t' p = Ok x -> look t p = Ok x.

(** The source has nothing at [p]. *)
Definition not_in_source (S : source) (p : path) : Prop :=
  forall n, stat (src_tree S) p <> Ok n.

(** The number of receives of the main loop that got a trigger, and the
    number of calls of the webhook callback, in a run of the queue. *)
Fixpoint delivered (evs : list queue_event) (c : Chan) : nat :=
  match evs with
  | [] => 0%nat
  | ev :: rest =>
      ((match ev, chan_recv c with
        | Receive, Some _ => 1
        | _, _ => 0
        end) + delivered rest (queue_step c ev))%nat
  end.

Fixpoint triggered (evs : list queue_event) : nat :=
  match evs with
  | [] => 0%nat
  | Trigger :: rest => S (triggered rest)
  | Receive :: rest => triggered rest
  end.

(** The mode of every file in a tree is made of permission bits only. *)
Fixpoint perm_only (n : node) : Prop :=
  match n with
  | File m _ => Perm m = m
  | Dir _ ents =>
      (fix all (l : list (string * node)) : Prop :=
         match l with
         | [] => True
         | (_, c) :: l' => perm_only c /\ all l'
         end) ents
  end.

(** A run of slashes. *)
Fixpoint slashes (k : nat) : string :=
  match k with
  | O => EmptyString
  | S k' => String "/"%char (slashes k')
  end.

(** ** Sample trees

    Modes in decimal: 0755 = 493, 0644 = 420, 0600 = 384; umask 022 = 18. *)

Definition env022 : Env := mkEnv 18 false.

Definition no_fault : path -> option errno := fun _ => None.

(** A source with one configuration file, and a destination that holds an
    older copy readable by its owner only. *)
Definition src_conf : source :=
  mkSource (Some (Dir 493 [("app.conf", File 420 "v2")])) no_fault.

Definition dst_conf : tree := Some (Dir 493 [("app.conf", File 384 "v1")]).

(** A source with one executable script. *)
Definition src_script : source :=
  mkSource (Some (Dir 493 [("run.sh", File 493 "go")])) no_fault.

(** A source whose .gitignore names keep.txt and that tracks a keep.txt all
    the same; the destination has its own keep.txt. *)
Definition src_keep : source :=
  mkSource (Some (Dir 493 [(".gitignore", File 420 ("keep.txt" ++ nl)%string);
                           ("keep.txt", File 420 "new")])) no_fault.

Definition dst_keep : tree := Some (Dir 493 [("keep.txt", File 384 "old")]).

(** A destination with a directory that the source does not have, and a
    keep.txt in it. *)
Definition dst_old : tree :=
  Some (Dir 493 [("old", Dir 493 [("keep.txt", File 420 "mine")])]).

(** A source whose .gitignore names keep.txt and that has no such file. *)
Definition src_app : source :=
  mkSource (Some (Dir 493 [(".gitignore", File 420 ("keep.txt" ++ nl)%string);
                           ("app", File 420 "v2")])) no_fault.

Definition dst_app : tree :=
  Some (Dir 493 [("app", File 420 "v1"); ("keep.txt", File 384 "mine")]).

(** A source with a directory a of mode 0601 (385), which its owner may not
    search: for a process of the owner the kernel refuses a/b with EACCES.
    The destination has a/b too. *)
Definition src_denied : source :=
  mkSource (Some (Dir 493 [("a", Dir 385 [("b", File 420 "x")])]))
           (fun p => match p with
                     | ["a"; "b"] => Some EACCES
                     | _ => None
                     end).

Definition dst_denied : tree :=
  Some (Dir 493 [("a", Dir 493 [("b", File 420 "")])]).

(** An empty source, and a destination with a directory and a file that
    the source does not have. *)
Definition src_empty : source := mkSource (Some (Dir 493 [])) no_fault.

Definition dst_stale : tree :=
  Some (Dir 493 [("old", Dir 493 [("x", File 420 "1")]); ("zzz", File 420 "2")]).

(** A file or a directory without entries; and a tree whose root holds
    nothing but such. *)
Definition leaf (n : node) : Prop :=
  match n with
  | File _ _ => True
  | Dir _ ents => ents = []
  end.

Definition flat (t : tree) : Prop := forall c n, stat t [c] = Ok n -> leaf n.

(** No ignore rule of the source matches anything. *)
Definition nothing_ignored (lib : GoLib) (S : source) : Prop :=
  forall q isDir,
    Match lib (CopyIgnore.loadGitignorePatterns lib S) q isDir = false.

(** A destination of configuration files only, one of them not in
    [src_conf]. *)
Definition dst_flat : tree :=
  Some (Dir 493 [("app.conf", File 384 "v1"); ("old.conf", File 420 "x")]).

(** A supervisor environment in which every process starts and ends on
    request, and external commands succeed without touching the folder. *)
Definition procs_ok : Procs :=
  mkProcs (fun _ => inl 4242) (WaitExit (-1)) false true (fun _ t => (None, t)).

Definition remote_down : Remote :=
  mkRemote (fun _ => inr (ErrorString "connection refused"))
           (fun _ _ => inr (ErrorString "connection refused")).

Definition remote_at (commit : string) (S : source) : Remote :=
  mkRemote (fun _ => inl commit) (fun _ _ => inl S).

Definition outside (R : Remote) : Outside :=
  mkOutside R procs_ok (fun _ _ t => (None, t)).

Definition repo0 : GitRepo :=
  NewGitRepo "https://example.org/conf.git" "master" "." "" "".

Definition state0 : State :=
  mkState repo0 (NewCommand ["server"] ["reload"]) None [].

(** A state in which revision c0ffee has been fetched. *)
Definition state_synced : State :=
  mkState (mkGitRepo "https://example.org/conf.git" "master" "." "" "" "c0ffee")
          (NewCommand ["server"] ["reload"]) dst_conf [].

(** The loop as it stands when the first [InitializeGit] has failed: the
    remote was down, the folder is there and empty, the command runs. *)
Definition loop_uninitialized : Loop :=
  mkLoop (mkState repo0
                  (mkCommand ["server"] 4242 ["reload"] (Some ["server"]) true 0)
                  (Some (Dir 493 []))
                  [EvSpawn ["server"];
                   EvProbe "https://example.org/conf.git" "master"])
         false false None.

(** A probe request, and a GET of a health path with a query. *)
Definition health_request : Request :=
  mkRequest "GET" "/api/health?verbose=1" (fun _ => "").

(** The loop in its steady state, revision c0ffee fetched. *)
Definition loop_steady : Loop := mkLoop state_synced true false None.

(** A running command, a name for the program being part of it. *)
Definition has_program (c : Command) : Prop := cancel c = true -> Args c <> [].

(** * Part II: lemmas and theorems *)

(** ** Trees and paths *)

Lemma prefixb_trans (a b c : path) :
  prefixb a b = true -> prefixb b c = true -> prefixb a c = true.
Proof.
  revert b c; induction a as [|x a IH]; intros [|y b] [|z c]; simpl; try easy.
  intros H1 H2.
  apply andb_true_iff in H1 as [E1 H1]. apply andb_true_iff in H2 as [E2 H2].
  apply String.eqb_eq in E1, E2. subst.
  rewrite String.eqb_refl. simpl. eauto.
Qed.

(** A prefix of [q ++ [name]] is a prefix of [q] or is [q ++ [name]]. *)
Lemma prefixb_snoc (p q : path) (name : string) :
  prefixb p (q ++ [name]) = true -> prefixb p q = true \/ p = q ++ [name].
Proof.
  revert q; induction p as [|x p IH]; intros q H; [now left|].
  destruct q as [|y q]; simpl in *.
  - apply andb_true_iff in H as [E H]. apply String.eqb_eq in E. subst.
    destruct p; [now right | discriminate].
  - apply andb_true_iff in H as [E H]. apply String.eqb_eq in E. subst.
    rewrite String.eqb_refl. simpl.
    destruct (IH _ H) as [H1 | H1]; [now left | right; now rewrite H1].
Qed.

Lemma find_set_ent_same c o ents : find c (set_ent c o ents) = o.
Proof.
  induction ents as [|[c' n'] rest IH]; simpl.
  - destruct o; simpl; [now rewrite String.eqb_refl | reflexivity].
  - destruct (String.eqb c c') eqn:E.
    + destruct o; simpl; [now rewrite String.eqb_refl | exact IH].
    + simpl. now rewrite E.
Qed.

Lemma find_set_ent_other c c' o ents :
  String.eqb c' c = false -> find c' (set_ent c o ents) = find c' ents.
Proof.
  intros N. induction ents as [|[c1 n1] rest IH]; simpl.
  - destruct o; simpl; [now rewrite N | reflexivity].
  - destruct (String.eqb c c1) eqn:E.
    + apply String.eqb_eq in E. subst c1. rewrite N.
      destruct o; simpl; [now rewrite N | exact IH].
    + simpl. now rewrite IH.
Qed.

Lemma stat_cons m ents c p :
  stat (Some (Dir m ents)) (c :: p) = stat (find c ents) p.
Proof.
  simpl. destruct (find c ents); [reflexivity|].
  destruct p; reflexivity.
Qed.

(** What [descend] hands to [f] is the entry at the path, and what [f]
    answers is the entry afterwards. *)
Lemma descend_entry f q t t' :
  descend f q t = Ok t' -> f (entry t q) = Ok (entry t' q).
Proof.
  revert t t'; induction q as [|c q IH]; intros t t' H.
  - simpl in H. destruct t, t'; exact H.
  - destruct t as [[m d | m ents]|]; simpl in H; try discriminate.
    destruct (descend f q (find c ents)) as [o|e] eqn:D; [|discriminate].
    injection H as <-.
    unfold entry. rewrite !stat_cons, find_set_ent_same.
    exact (IH _ _ D).
Qed.

(** A change at [q] is not seen at a path that [q] is not a prefix of and
    that is not a prefix of [q]. *)
Lemma descend_apart f q t t' p :
  descend f q t = Ok t' ->
  prefixb q p = false -> prefixb p q = false ->
  stat t' p = stat t p.
Proof.
  revert t t' p; induction q as [|c q IH]; intros t t' p H Hq Hp.
  - discriminate.
  - destruct p as [|c' p]; [discriminate|].
    destruct t as [[m d | m ents]|]; simpl in H; try discriminate.
    destruct (descend f q (find c ents)) as [o|e] eqn:D; [|discriminate].
    injection H as <-.
    rewrite !stat_cons. simpl in Hq, Hp.
    destruct (String.eqb c' c) eqn:E.
    + apply String.eqb_eq in E. subst c'.
      rewrite String.eqb_refl in Hq. simpl in Hq, Hp.
      rewrite find_set_ent_same. eauto.
    + now rewrite find_set_ent_other.
Qed.

(** A change at [q] keeps kind and mode of every path that [q] is not a
    prefix of, the ancestors of [q] among them. *)
Lemma descend_info f q t t' p :
  descend f q t = Ok t' ->
  prefixb q p = false ->
  info_result (stat t' p) = info_result (stat t p).
Proof.
  revert t t' p; induction q as [|c q IH]; intros t t' p H Hq.
  - discriminate.
  - destruct t as [[m d | m ents]|]; simpl in H; try discriminate.
    destruct (descend f q (find c ents)) as [o|e] eqn:D; [|discriminate].
    injection H as <-.
    destruct p as [|c' p]; [reflexivity|].
    rewrite !stat_cons. simpl in Hq.
    destruct (String.eqb c' c) eqn:E.
    + apply String.eqb_eq in E. subst c'.
      rewrite String.eqb_refl in Hq. simpl in Hq.
      rewrite find_set_ent_same. eauto.
    + now rewrite find_set_ent_other.
Qed.

(** Such a change at [q] is not seen at an existing path that is not a
    prefix of [q]: below [q] included. *)
Lemma descend_below f q t t' p n :
  keeps_entries f ->
  descend f q t = Ok t' ->
  stat t p = Ok n ->
  prefixb p q = false ->
  stat t' p = Ok n.
Proof.
  intros K. revert t t' p; induction q as [|c q IH]; intros t t' p H Hs Hp.
  - destruct p as [|c' p]; [discriminate|].
    simpl in H.
    destruct t as [[m d | m ents]|]; try discriminate.
    destruct (K _ _ _ H) as [m' ->]. exact Hs.
  - destruct p as [|c' p]; [discriminate|].
    destruct t as [[m d | m ents]|]; simpl in H; try discriminate.
    destruct (descend f q (find c ents)) as [o|e] eqn:D; [|discriminate].
    injection H as <-.
    rewrite stat_cons in *. simpl in Hp.
    destruct (String.eqb c' c) eqn:E.
    + apply String.eqb_eq in E. subst c'.
      rewrite find_set_ent_same. simpl in Hp. eauto.
    + now rewrite find_set_ent_other.
Qed.

Lemma mkdirAll_below env perm q t t' p n :
  mkdirAll env perm q t = Ok t' ->
  stat t p = Ok n ->
  prefixb p q = false ->
  stat t' p = Ok n.
Proof.
  revert t t' p; induction q as [|c q IH]; intros t t' p H Hs Hp.
  - destruct p as [|c' p]; [discriminate|].
    destruct t as [[m d | m ents]|]; simpl in H; try discriminate.
    now injection H as <-.
  - destruct p as [|c' p]; [discriminate|].
    destruct t as [[m d | m ents]|]; simpl in H; try discriminate.
    destruct (mkdirAll env perm q (find c ents)) as [o|e] eqn:D; [|discriminate].
    injection H as <-.
    rewrite stat_cons in *. simpl in Hp.
    destruct (String.eqb c' c) eqn:E.
    + apply String.eqb_eq in E. subst c'.
      rewrite find_set_ent_same. simpl in Hp. eauto.
    + now rewrite find_set_ent_other.
Qed.

(** * An invariant of [filepath.Walk]

    [Inv] is kept by the whole walk when the callback keeps it at every
    path it may be called on, and a callback that descends into a
    directory may be called on its children. *)
Section WalkInvariant.
Context {St : Type}.
Variable lstat : path -> St -> result FileInfo.
Variable readDirNames : path -> St -> result (list string).
Variable fn : @WalkFunc St.
Variable Inv : St -> Prop.
Variable ok : path -> Prop.

Hypothesis fn_inv : forall q oi err st r st',
    ok q -> Inv st -> seen lstat q oi st -> fn q oi err st = (r, st') -> Inv st'.
Hypothesis fn_descend : forall q i st st' name,
    ok q -> Inv st -> lstat q st = Ok i -> IsDir i = true ->
    fn q (Some i) None st = (Ret None, st') -> ok (q ++ [name]).

Lemma walkNames_inv (rec : path -> FileInfo -> M St (option error)) q :
  (forall name, ok (q ++ [name])) ->
  (forall c i st r st', ok c -> Inv st -> lstat c st = Ok i ->
                        rec c i st = (r, st') -> Inv st') ->
  forall names st r st',
    Inv st -> walkNames lstat fn rec q names st = (r, st') -> Inv st'.
Proof.
  intros Hok Hrec names.
  induction names as [|name rest IH]; intros st r st' HI H; simpl in H.
  - now injection H as _ <-.
  - destruct (lstat (q ++ [name]) st) as [fi|e] eqn:L; unfold bind in H.
    + destruct (rec (q ++ [name]) fi st) as [r1 st1] eqn:R.
      assert (Inv st1) by exact (Hrec _ _ _ _ _ (Hok name) HI L R).
      destruct r1 as [[e'|]| |]; try (now injection H as _ <-).
      * destruct (negb (IsDir fi) || negb (isSkipDir e')).
        -- now injection H as _ <-.
        -- eauto.
      * eauto.
    + destruct (fn (q ++ [name]) None (Some (PathError e)) st) as [r1 st1] eqn:R.
      assert (Inv st1).
      { eapply fn_inv; [apply Hok | exact HI | | exact R]. now exists e. }
      destruct r1 as [[e'|]| |]; try (now injection H as _ <-).
      * destruct (isSkipDir e'); [eauto | now injection H as _ <-].
      * eauto.
Qed.

Lemma walk_inv fuel :
  forall q i st r st',
    ok q -> Inv st -> lstat q st = Ok i ->
    walk lstat readDirNames fn fuel q i st = (r, st') -> Inv st'.
Proof.
  induction fuel as [|fuel IH]; intros q i st r st' Hq HI L H; simpl in H.
  - now injection H as _ <-.
  - destruct (IsDir i) eqn:D; simpl in H.
    + unfold bind in H.
      destruct (readDirNames q st) as [names|e] eqn:N.
      * destruct (fn q (Some i) None st) as [r1 st1] eqn:R.
        assert (Inv st1) by exact (fn_inv q (Some i) _ st _ _ Hq HI L R).
        destruct r1 as [[e'|]| |]; simpl in H; try (now injection H as _ <-).
        eapply walkNames_inv; [| | exact H0 | exact H].
        -- intros name. exact (fn_descend q i st st1 name Hq HI L D R).
        -- exact IH.
      * destruct (fn q (Some i) (Some (PathError e)) st) as [r1 st1] eqn:R.
        assert (Inv st1) by exact (fn_inv q (Some i) _ st _ _ Hq HI L R).
        destruct r1 as [a| |]; simpl in H; now injection H as _ <-.
    + exact (fn_inv q (Some i) _ st _ _ Hq HI L H).
Qed.

Lemma Walk_inv fuel st r st' :
  ok [] -> Inv st ->
  Walk lstat readDirNames fn fuel st = (r, st') -> Inv st'.
Proof.
  intros Hq HI H. unfold Walk, bind in H.
  destruct (lstat [] st) as [i|e] eqn:L.
  - destruct (walk lstat readDirNames fn fuel [] i st) as [r1 st1] eqn:W.
    assert (Inv st1) by (eapply walk_inv; eauto).
    destruct r1 as [[[]|]| |]; now injection H as _ <-.
  - destruct (fn [] None (Some (PathError e)) st) as [r1 st1] eqn:R.
    assert (Inv st1).
    { eapply fn_inv; [exact Hq | exact HI | | exact R]. now exists e. }
    destruct r1 as [[[]|]| |]; now injection H as _ <-.
Qed.
End WalkInvariant.

(** * What the system calls leave alone *)

Lemma sys_cases f t r t' :
  sys f t = (r, t') ->
  (t' = t /\ exists e, f t = Err e /\ r = Ret (Some (PathError e)))
  \/ (f t = Ok t' /\ r = Ret None).
Proof.
  unfold sys. destruct (f t) as [t1|e] eqn:F; intros H; injection H as <- <-.
  - now right.
  - left. split; [reflexivity|]. now exists e.
Qed.

Lemma RemoveAll_cases env q t r t' :
  RemoveAll env q t = (r, t') ->
  t' = t \/ descend (fun _ => Ok None) q t = Ok t'.
Proof.
  unfold RemoveAll.
  destruct (dotRoot env && isNil (hd_error q)).
  - intros H; injection H as _ <-. now left.
  - destruct (descend (fun _ => Ok None) q t) as [t1|e] eqn:D.
    + intros H; injection H as _ <-. now right.
    + destruct e; intros H; injection H as _ <-; now left.
Qed.

Lemma orWrap_cases {St} msg (m k : M St (option error)) st r st' :
  orWrap msg m k st = (r, st') ->
  (exists r1, m st = (r1, st') /\ (forall a, r1 = Ret a -> a <> None))
  \/ (exists st1, m st = (Ret None, st1) /\ k st1 = (r, st')).
Proof.
  unfold orWrap, bind.
  destruct (m st) as [[[e|]| |] st1] eqn:E; intros H.
  - injection H as _ <-. left. eexists; split; [reflexivity|]. congruence.
  - right. now exists st1.
  - injection H as _ <-. left. eexists; split; [reflexivity|]. congruence.
  - injection H as _ <-. left. eexists; split; [reflexivity|]. congruence.
Qed.

Lemma keeps_entries_Create env :
  keeps_entries (fun o =>
                   match o with
                   | None => Ok (Some (File (Z.ldiff 438 (umask env)) ""))
                   | Some (File m _) => Ok (Some (File m ""))
                   | Some (Dir _ _) => Err EISDIR
                   end).
Proof. intros m e o H. discriminate. Qed.

Lemma keeps_entries_write data :
  keeps_entries (fun o =>
                   match o with
                   | Some (File m _) => Ok (Some (File m data))
                   | Some (Dir _ _) => Err EISDIR
                   | None => Err ENOENT
                   end).
Proof. intros m e o H. discriminate. Qed.

Lemma keeps_entries_chmod m0 :
  keeps_entries (fun o =>
                   match o with
                   | Some (File _ d) => Ok (Some (File m0 d))
                   | Some (Dir _ e) => Ok (Some (Dir m0 e))
                   | None => Err ENOENT
                   end).
Proof. intros m e o H. injection H as <-. now exists m0. Qed.

Section Frames.
Variable env : Env.
Variable p : path.
Variable n : node.

(** Creating, writing or changing the mode of [q] keeps an existing path
    [p] that is not a prefix of [q]. *)
Lemma os_Create_keeps q t r t' :
  prefixb p q = false -> stat t p = Ok n ->
  os_Create env q t = (r, t') -> stat t' p = Ok n.
Proof.
  intros Hp Hs H. apply sys_cases in H as [[-> _] | [H _]]; [exact Hs|].
  eapply descend_below; eauto using keeps_entries_Create.
Qed.

Lemma io_Copy_keeps q srcFile t r t' :
  prefixb p q = false -> stat t p = Ok n ->
  io_Copy q srcFile t = (r, t') -> stat t' p = Ok n.
Proof.
  intros Hp Hs H. destruct srcFile as [m data | m ents]; simpl in H.
  - apply sys_cases in H as [[-> _] | [H _]]; [exact Hs|].
    eapply descend_below; eauto using keeps_entries_write.
  - now injection H as _ <-.
Qed.

Lemma Chmod_keeps q m t r t' :
  prefixb p q = false -> stat t p = Ok n ->
  Chmod q m t = (r, t') -> stat t' p = Ok n.
Proof.
  intros Hp Hs H. apply sys_cases in H as [[-> _] | [H _]]; [exact Hs|].
  eapply descend_below; eauto using keeps_entries_chmod.
Qed.

Lemma MkdirAll_keeps q perm t r t' :
  prefixb p q = false -> stat t p = Ok n ->
  MkdirAll env q perm t = (r, t') -> stat t' p = Ok n.
Proof.
  intros Hp Hs H. apply sys_cases in H as [[-> _] | [H _]]; [exact Hs|].
  eapply mkdirAll_below; eauto.
Qed.
End Frames.

(** * The gitignore-aware [SyncDirs] and a path that matches an ignore rule *)

Section IgnoredPath.
Variable env : Env.
Variable lib : GoLib.
Variable S : source.

Local Abbreviation matcher := (CopyIgnore.loadGitignorePatterns lib S).

Variable dst0 : tree.
Variable p : path.
Variable n : node.
Hypothesis p_exists : stat dst0 p = Ok n.
Hypothesis p_ignored :
  Match lib matcher (CopyIgnore.gitignorePath p) (IsDir (info_of n)) = true.
Hypothesis ancestors_kept : forall a i,
    prefixb a p = true -> a <> p ->
    info_result (stat dst0 a) = Ok i -> pruned lib S a i = false.

Local Abbreviation ok := (not_below p).
Local Abbreviation InvPrune := (spine_kept dst0 p n).

Lemma ok_apart q : ok q -> q <> p -> prefixb p q = false.
Proof.
  intros Hq N. destruct (prefixb p q) eqn:E; [|reflexivity].
  now elim N; apply Hq.
Qed.

Lemma pruneFn_inv q oi err st r st' :
  ok q -> InvPrune st -> seen dst_lstat q oi st ->
  CopyIgnore.pruneFn env lib S matcher q oi err st = (r, st') ->
  InvPrune st'.
Proof.
  intros Hq [Hs Ha] Hseen H.
  destruct err as [e|]; simpl in H; [now injection H as _ <-|].
  destruct oi as [i|]; simpl in H; [|now injection H as _ <-].
  unfold bind, lift in H. simpl in Hseen. unfold dst_lstat in Hseen.
  destruct (Match lib matcher (CopyIgnore.gitignorePath q) (IsDir i)) eqn:Mt.
  { destruct (IsDir i); now injection H as _ <-. }
  assert (Nqp : q <> p).
  { intros ->. rewrite Hs in Hseen. injection Hseen as <-. congruence. }
  unfold pruneEntry in H.
  destruct (os_Stat (src_stat S q)) as [srcInfo serr] eqn:Os.
  unfold bind, lift in H.
  destruct (mismatch srcInfo serr (Some i)) as [[|]| |] eqn:Mm;
    try (now injection H as _ <-).
  apply orWrap_cases in H as [(r1 & H & _) | (st1 & H & K)].
  2: injection K as _ <-.
  all: apply RemoveAll_cases in H as [-> | D]; try (split; assumption).
  all: destruct (prefixb q p) eqn:Pq.
  all: try (exfalso;
            assert (X : pruned lib S q i = false)
              by (apply ancestors_kept; [exact Pq | exact Nqp |
                                         rewrite <- (Ha q Pq); exact Hseen]);
            unfold pruned in X; rewrite Mt, Os in X; simpl in X;
            rewrite Mm in X; discriminate).
  all: split;
    [ rewrite <- Hs; eapply descend_apart; eauto using ok_apart
    | intros a Pa; rewrite <- (Ha a Pa); eapply descend_info; [exact D|];
      destruct (prefixb q a) eqn:Qa; [|reflexivity];
      now rewrite (prefixb_trans _ _ _ Qa Pa) in Pq ].
Qed.

Lemma pruneFn_descend q i st st' name :
  ok q -> InvPrune st -> dst_lstat q st = Ok i -> IsDir i = true ->
  CopyIgnore.pruneFn env lib S matcher q (Some i) None st = (Ret None, st') ->
  ok (q ++ [name]).
Proof.
  intros Hq [Hs Ha] L D H Hp.
  destruct (prefixb_snoc _ _ _ Hp) as [Hp' | ->]; [|reflexivity].
  exfalso. apply Hq in Hp'. subst q.
  unfold dst_lstat in L. rewrite Hs in L. injection L as <-.
  simpl in H. unfold bind, lift in H. simpl in H.
  rewrite p_ignored, D in H. discriminate.
Qed.

Lemma prune_keeps fuel st r st' :
  InvPrune st ->
  Walk dst_lstat dst_readDirNames
       (CopyIgnore.pruneFn env lib S matcher) fuel st = (r, st') ->
  InvPrune st'.
Proof.
  intros HI H.
  eapply (Walk_inv dst_lstat dst_readDirNames _ InvPrune ok); eauto.
  - intros; eapply pruneFn_inv; eauto.
  - intros; eapply pruneFn_descend; eauto.
  - intros Hp. destruct p; [reflexivity | discriminate].
Qed.

(** The copy pass, when the source has nothing at [p]. *)
Variable e0 : errno.
Hypothesis p_not_in_source : src_stat S p = Err e0.

Lemma copyFile_keeps q flag st r st' :
  prefixb p q = false -> stat st p = Ok n ->
  CopyIgnore.copyFile env S q q flag st = (r, st') -> stat st' p = Ok n.
Proof.
  intros Hp HI H. unfold CopyIgnore.copyFile in H.
  destruct (src_stat S q) as [srcFile|e]; [|now injection H as _ <-].
  apply orWrap_cases in H as [(r1 & H & _) | (st1 & H & K)].
  { eapply os_Create_keeps; eauto. }
  assert (I1 : stat st1 p = Ok n) by (eapply os_Create_keeps; eauto).
  apply orWrap_cases in K as [(r1 & K & _) | (st2 & K & K2)].
  { eapply io_Copy_keeps; eauto. }
  assert (I2 : stat st2 p = Ok n) by (eapply io_Copy_keeps; eauto).
  destruct flag; simpl in K2; [|now injection K2 as _ <-].
  destruct (stat st2 q) as [nq|e]; [|now injection K2 as _ <-].
  destruct (negb (Z.land (Perm (Mode (info_of nq))) 64 =? 0));
    [now injection K2 as _ <-|].
  apply orWrap_cases in K2 as [(r1 & K2 & _) | (st3 & K2 & K3)].
  - eapply Chmod_keeps; eauto.
  - injection K3 as _ <-. eapply Chmod_keeps; eauto.
Qed.

Lemma seen_in_source q i st :
  ok q -> src_lstat S q st = Ok i -> prefixb p q = false.
Proof.
  intros Hq L. apply ok_apart; [exact Hq|].
  intros ->. unfold src_lstat in L. now rewrite p_not_in_source in L.
Qed.

Lemma copyFn_inv q oi err st r st' :
  ok q -> stat st p = Ok n -> seen (src_lstat S) q oi st ->
  CopyIgnore.copyFn env S q oi err st = (r, st') -> stat st' p = Ok n.
Proof.
  intros Hq HI Hseen H.
  destruct err as [e|]; simpl in H; [now injection H as _ <-|].
  destruct oi as [i|]; simpl in H; [|now injection H as _ <-].
  simpl in Hseen. pose proof (seen_in_source _ _ _ Hq Hseen) as Hp.
  unfold bind, lift in H. simpl in H.
  destruct (IsDir i).
  - apply orWrap_cases in H as [(r1 & H & _) | (st1 & H & K)].
    + eapply MkdirAll_keeps; eauto.
    + injection K as _ <-. eapply MkdirAll_keeps; eauto.
  - apply orWrap_cases in H as [(r1 & H & _) | (st1 & H & K)].
    + eapply copyFile_keeps; eauto.
    + injection K as _ <-. eapply copyFile_keeps; eauto.
Qed.

Lemma copyFn_descend q i st st' name :
  ok q -> stat st p = Ok n -> src_lstat S q st = Ok i -> IsDir i = true ->
  CopyIgnore.copyFn env S q (Some i) None st = (Ret None, st') ->
  ok (q ++ [name]).
Proof.
  intros Hq _ L _ _ Hp.
  destruct (prefixb_snoc _ _ _ Hp) as [Hp' | ->]; [|reflexivity].
  now rewrite (seen_in_source _ _ _ Hq L) in Hp'.
Qed.

Lemma copy_keeps fuel st r st' :
  stat st p = Ok n ->
  Walk (src_lstat S) (src_readDirNames S)
       (CopyIgnore.copyFn env S) fuel st = (r, st') ->
  stat st' p = Ok n.
Proof.
  intros HI H.
  eapply (Walk_inv (src_lstat S) (src_readDirNames S) _
                   (fun st => stat st p = Ok n) ok); [| | | exact HI | exact H].
  - intros; eapply copyFn_inv; eauto.
  - intros; eapply copyFn_descend; eauto.
  - intros Hp. destruct p; [reflexivity | discriminate].
Qed.

(** C2 (amended): a destination path [p] that matches an ignore rule of the
    source is left as it was by [SyncDirs], with everything below it and
    whatever the outcome of the call, when the source has nothing at [p] and
    the prune pass removes none of the ancestors of [p]. *)
Theorem ignored_path_untouched r dst' :
  CopyIgnore.SyncDirs env lib S dst0 = (r, dst') -> stat dst' p = Ok n.
Proof.
  unfold CopyIgnore.SyncDirs, bind, gets.
  destruct (Walk dst_lstat dst_readDirNames _ (theight dst0) dst0)
    as [r1 st1] eqn:W.
  assert (I1 : InvPrune st1).
  { eapply prune_keeps; [|exact W]. split; [exact p_exists | reflexivity]. }
  destruct I1 as [I1 _].
  destruct r1 as [err| |]; try (now intros H; injection H as _ <-).
  destruct (negb (isNil err) && negb (IsNotExist err)).
  - now intros H; injection H as _ <-.
  - intros H. eapply copy_keeps; eauto.
Qed.
End IgnoredPath.

(** * What a successful [copyFile] leaves at the destination *)

Lemma orWrap_ok {St} msg (m k : M St (option error)) st st' :
  orWrap msg m k st = (Ret None, st') ->
  exists st1, m st = (Ret None, st1) /\ k st1 = (Ret None, st').
Proof.
  unfold orWrap, bind.
  destruct (m st) as [[[e|]| |] st1]; intros H; try discriminate.
  now exists st1.
Qed.

Lemma orReturn_ok {St} (m k : M St (option error)) st st' :
  orReturn m k st = (Ret None, st') ->
  exists st1, m st = (Ret None, st1) /\ k st1 = (Ret None, st').
Proof.
  unfold orReturn, bind.
  destruct (m st) as [[[e|]| |] st1]; intros H; try discriminate.
  now exists st1.
Qed.

Lemma sys_ok f t t' : sys f t = (Ret None, t') -> f t = Ok t'.
Proof.
  intros H. apply sys_cases in H as [(_ & e & _ & H) | [H _]];
    [discriminate | exact H].
Qed.

Lemma os_Create_entry env p t t' :
  os_Create env p t = (Ret None, t') ->
  entry t' p = Some (File (mode_before env (entry t p)) "").
Proof.
  intros H. apply sys_ok, descend_entry in H.
  destruct (entry t p) as [[m d | m e]|]; simpl in *; congruence.
Qed.

Lemma io_Copy_entry p srcFile t t' m d :
  io_Copy p srcFile t = (Ret None, t') ->
  entry t p = Some (File m d) ->
  exists sm data, srcFile = File sm data /\ entry t' p = Some (File m data).
Proof.
  intros H E. destruct srcFile as [sm data | sm ents]; simpl in H; [|discriminate].
  apply sys_ok, descend_entry in H. rewrite E in H.
  exists sm, data. split; [reflexivity | congruence].
Qed.

Lemma Chmod_entry p m t t' m0 d :
  Chmod p m t = (Ret None, t') ->
  entry t p = Some (File m0 d) ->
  entry t' p = Some (File m d).
Proof.
  intros H E. apply sys_ok, descend_entry in H. rewrite E in H. congruence.
Qed.

Lemma entry_stat t p n : entry t p = Some n -> stat t p = Ok n.
Proof. unfold entry. destruct (stat t p); congruence. Qed.

Section CopyFileSpecs.
Variable env : Env.
Variable S : source.

(** Version with the mode argument: the destination gets the bytes of the
    source and, unless the mode passed is zero, that mode. *)
Lemma CopyMode_copyFile_ok src dst mode t t' :
  CopyMode.copyFile env S src dst mode t = (Ret None, t') ->
  exists sm data,
    src_stat S src = Ok (File sm data) /\
    entry t' dst =
      Some (File (if mode =? 0 then mode_before env (entry t dst) else mode)
                 data).
Proof.
  unfold CopyMode.copyFile. intros H.
  destruct (src_stat S src) as [srcFile|e]; [|discriminate].
  apply orReturn_ok in H as (t1 & H1 & H).
  apply orReturn_ok in H as (t2 & H2 & H).
  apply os_Create_entry in H1.
  destruct (io_Copy_entry _ _ _ _ _ _ H2 H1) as (sm & data & -> & E2).
  exists sm, data. split; [reflexivity|].
  destruct (mode =? 0); simpl in H.
  - now injection H as <-.
  - eapply Chmod_entry; eauto.
Qed.

(** First version with the flag: when the flag is set the user-execute bit
    is added to the permission bits the destination has. *)
Lemma CopyFlag_copyFile_ok src dst flag t t' :
  CopyFlag.copyFile env S src dst flag t = (Ret None, t') ->
  exists sm data,
    src_stat S src = Ok (File sm data) /\
    entry t' dst =
      Some (File (if flag
                  then Z.lor (Perm (mode_before env (entry t dst))) 64
                  else mode_before env (entry t dst))
                 data).
Proof.
  unfold CopyFlag.copyFile. intros H.
  destruct (src_stat S src) as [srcFile|e]; [|discriminate].
  apply orWrap_ok in H as (t1 & H1 & H).
  apply orWrap_ok in H as (t2 & H2 & H).
  apply os_Create_entry in H1.
  destruct (io_Copy_entry _ _ _ _ _ _ H2 H1) as (sm & data & -> & E2).
  exists sm, data. split; [reflexivity|].
  destruct flag; simpl in H.
  - rewrite (entry_stat _ _ _ E2) in H. simpl in H.
    apply orWrap_ok in H as (t3 & H3 & H). injection H as <-.
    eapply Chmod_entry; eauto.
  - now injection H as <-.
Qed.

(** Gitignore-aware version: as before, and the mode is left alone when
    the destination already has the user-execute bit. *)
Lemma CopyIgnore_copyFile_ok src dst flag t t' :
  CopyIgnore.copyFile env S src dst flag t = (Ret None, t') ->
  exists sm data,
    src_stat S src = Ok (File sm data) /\
    entry t' dst =
      Some (File (if flag && (Z.land (Perm (mode_before env (entry t dst))) 64 =? 0)
                  then Z.lor (Perm (mode_before env (entry t dst))) 64
                  else mode_before env (entry t dst))
                 data).
Proof.
  unfold CopyIgnore.copyFile. intros H.
  destruct (src_stat S src) as [srcFile|e]; [|discriminate].
  apply orWrap_ok in H as (t1 & H1 & H).
  apply orWrap_ok in H as (t2 & H2 & H).
  apply os_Create_entry in H1.
  destruct (io_Copy_entry _ _ _ _ _ _ H2 H1) as (sm & data & -> & E2).
  exists sm, data. split; [reflexivity|].
  destruct flag; simpl in H.
  - rewrite (entry_stat _ _ _ E2) in H. simpl in H.
    destruct (Z.land (Perm (mode_before env (entry t dst))) 64 =? 0); simpl in H.
    + apply orWrap_ok in H as (t3 & H3 & H). injection H as <-.
      eapply Chmod_entry; eauto.
    + now injection H as <-.
  - now injection H as <-.
Qed.
End CopyFileSpecs.

(** Bits: adding the user-execute bit (0100) sets it and changes no read or
    write bit (0666). *)
Lemma user_exec_set m : Z.land (Perm (Z.lor (Perm m) 64)) 64 <> 0.
Proof.
  unfold Perm. intros H.
  assert (T : Z.testbit (Z.land (Z.land (Z.lor (Z.land m 511) 64) 511) 64) 6 = false)
    by (rewrite H; apply Z.testbit_0_l).
  rewrite !Z.land_spec, Z.lor_spec, Z.land_spec in T.
  change (Z.testbit 64 6) with true in T. change (Z.testbit 511 6) with true in T.
  rewrite orb_true_r in T. discriminate.
Qed.

Lemma other_bits_kept m : Z.land (Perm (Z.lor (Perm m) 64)) 438 = Z.land (Perm m) 438.
Proof.
  unfold Perm. apply Z.bits_inj'. intros k Hk.
  rewrite !Z.land_spec, Z.lor_spec, !Z.land_spec.
  destruct (Z.eq_dec k 6) as [-> | N].
  - change (Z.testbit 438 6) with false. now rewrite !andb_false_r.
  - assert (Z.testbit 64 k = false) as ->.
    { change 64 with (2 ^ 6). apply Z.pow2_bits_false. congruence. }
    rewrite orb_false_r.
    destruct (Z.testbit m k), (Z.testbit 511 k), (Z.testbit 438 k); reflexivity.
Qed.

(** * Permission bits across a copy *)

Lemma stat_entry t p n : stat t p = Ok n -> entry t p = Some n.
Proof. unfold entry. now intros ->. Qed.

Lemma CopyIgnore_propagates_exec env S :
  propagates_exec S (CopyIgnore.copyFn env S).
Proof.
  intros p i t t' _ D X H. simpl in H. unfold bind, lift in H. simpl in H.
  rewrite D in H. apply orWrap_ok in H as (t1 & H & K). injection K as <-.
  apply CopyIgnore_copyFile_ok in H as (sm & data & _ & E).
  apply Z.eqb_neq in X. rewrite X in E. simpl in E.
  eexists _, data. split; [apply entry_stat; exact E|].
  destruct (Z.land (Perm (mode_before env (entry t p))) 64 =? 0) eqn:B.
  - apply user_exec_set.
  - now apply Z.eqb_neq in B.
Qed.

Lemma CopyIgnore_preserves_rw env S :
  preserves_rw S (CopyIgnore.copyFn env S).
Proof.
  intros p i t t' m0 d0 _ D Hs H. simpl in H. unfold bind, lift in H. simpl in H.
  rewrite D in H. apply orWrap_ok in H as (t1 & H & K). injection K as <-.
  apply CopyIgnore_copyFile_ok in H as (sm & data & _ & E).
  rewrite (stat_entry _ _ _ Hs) in E. simpl in E.
  eexists _, data. split; [apply entry_stat; exact E|].
  destruct (_ && _); [apply other_bits_kept | reflexivity].
Qed.

Lemma CopyFlag_preserves_rw env S :
  preserves_rw S (CopyFlag.copyFn env S).
Proof.
  intros p i t t' m0 d0 _ D Hs H. simpl in H. unfold bind, lift in H. simpl in H.
  rewrite D in H. apply orWrap_ok in H as (t1 & H & K). injection K as <-.
  apply CopyFlag_copyFile_ok in H as (sm & data & _ & E).
  rewrite (stat_entry _ _ _ Hs) in E. simpl in E.
  eexists _, data. split; [apply entry_stat; exact E|].
  destruct (_ =? 0); [apply other_bits_kept | reflexivity].
Qed.

Lemma CopyMode_imposes_source_perm env S :
  imposes_source_perm S (CopyMode.copyFn env S).
Proof.
  intros p i t t' _ D X H. simpl in H. unfold bind, lift in H. simpl in H.
  rewrite D in H. apply orWrap_ok in H as (t1 & H & K). injection K as <-.
  apply CopyMode_copyFile_ok in H as (sm & data & _ & E).
  apply Z.eqb_neq in X. rewrite X in E.
  exists data. apply entry_stat; exact E.
Qed.

Lemma Perm_idem m : Perm (Perm m) = Perm m.
Proof. unfold Perm. now rewrite <- Z.land_assoc. Qed.

Lemma CopyMode_propagates_exec env S :
  propagates_exec S (CopyMode.copyFn env S).
Proof.
  intros p i t t' Hi D X H.
  destruct (CopyMode_imposes_source_perm env S p i t t' Hi D) as [data E]; auto.
  - intros Z0. rewrite Z0 in X. now apply X.
  - exists (Perm (Mode i)), data. split; [exact E|]. now rewrite Perm_idem.
Qed.

(** * Claims on copy.go *)

(** C1 (amended): every copy of the gitignore-aware [SyncDirs] gives the
    destination the user-execute bit of a source file that has it, also
    when the destination existed without it, and it and the first version
    of src/copy.go leave the read and write bits of an existing destination
    file as they were; a copy of the version in src/unnamed/part_000
    propagates the user-execute bit too, and it sets the permission bits of
    the destination to those of the source whenever these are not all
    zero. *)
Theorem copy_permissions (env : Env) (S : source) :
  (propagates_exec S (CopyIgnore.copyFn env S)
   /\ preserves_rw S (CopyIgnore.copyFn env S))
  /\ preserves_rw S (CopyFlag.copyFn env S)
  /\ (propagates_exec S (CopyMode.copyFn env S)
      /\ imposes_source_perm S (CopyMode.copyFn env S)).
Proof.
  repeat split.
  - apply CopyIgnore_propagates_exec.
  - apply CopyIgnore_preserves_rw.
  - apply CopyFlag_preserves_rw.
  - apply CopyMode_propagates_exec.
  - apply CopyMode_imposes_source_perm.
Qed.

Lemma copy_permissions_witness :
  exists m data,
    stat (snd (CopyIgnore.copyFn env022 src_script ["run.sh"]
                 (Some (mkInfo false 493)) None
                 (Some (Dir 493 [("run.sh", File 420 "old")]))))
         ["run.sh"] = Ok (File m data)
    /\ Z.land (Perm m) 64 <> 0.
Proof.
  apply (proj1 (proj1 (copy_permissions env022 src_script)))
    with (i := mkInfo false 493)
         (t := Some (Dir 493 [("run.sh", File 420 "old")])).
  - reflexivity.
  - reflexivity.
  - vm_compute. discriminate.
  - reflexivity.
Defined.

(** C1 as stated fails on the version of src/unnamed/part_000: the
    destination file had mode 0600, and after [SyncDirs] has overwritten it
    it has the mode 0644 of the source. *)
Lemma mode_copy_overwrites_permissions :
  stat dst_conf ["app.conf"] = Ok (File 384 "v1")
  /\ CopyMode.SyncDirs env022 src_conf dst_conf
     = (Ret None, Some (Dir 493 [("app.conf", File 420 "v2")]))
  /\ Z.land (Perm 420) 438 <> Z.land (Perm 384) 438
  /\ ~ preserves_rw src_conf (CopyMode.copyFn env022 src_conf).
Proof.
  split; [reflexivity|]. split; [reflexivity|]. split; [discriminate|].
  intros H.
  destruct (H ["app.conf"] (mkInfo false 420) dst_conf
              (Some (Dir 493 [("app.conf", File 420 "v2")])) 384 "v1"
              eq_refl eq_refl eq_refl eq_refl) as (m & data & E & B).
  injection E as <- <-. discriminate.
Qed.

(** The first version of src/copy.go passes [userExecutableBit == 0] as
    [setExecutableBit]: an executable source file arrives without the
    user-execute bit (and a file that is not executable gets it). *)
Lemma flag_copy_inverts_exec :
  CopyFlag.SyncDirs env022 src_script (Some (Dir 493 []))
  = (Ret None, Some (Dir 493 [("run.sh", File 420 "go")]))
  /\ CopyFlag.SyncDirs env022 src_conf (Some (Dir 493 []))
     = (Ret None, Some (Dir 493 [("app.conf", File 484 "v2")]))
  /\ ~ propagates_exec src_script (CopyFlag.copyFn env022 src_script).
Proof.
  split; [reflexivity|]. split; [reflexivity|].
  intros H.
  destruct (H ["run.sh"] (mkInfo false 493) (Some (Dir 493 []))
              (Some (Dir 493 [("run.sh", File 420 "go")]))
              eq_refl eq_refl) as (m & data & E & B).
  - vm_compute. discriminate.
  - reflexivity.
  - injection E as <- <-. now apply B.
Qed.

(** C2 as stated fails: keep.txt matches the ignore rule of the source, the
    source has a keep.txt of its own, and the copy pass of [SyncDirs]
    overwrites the content of the destination's. *)
Lemma ignored_path_changed :
  CopyIgnore.loadGitignorePatterns plainLib src_keep = ["keep.txt"]
  /\ Match plainLib ["keep.txt"] ["keep.txt"] false = true
  /\ stat dst_keep ["keep.txt"] = Ok (File 384 "old")
  /\ exists dst',
      CopyIgnore.SyncDirs env022 plainLib src_keep dst_keep = (Ret None, dst')
      /\ stat dst' ["keep.txt"] = Ok (File 384 "new").
Proof.
  repeat (split; [reflexivity|]).
  eexists. split; [vm_compute; reflexivity|]. reflexivity.
Qed.

(** An ignored path below a directory that the prune pass removes goes with
    it: old/keep.txt matches the ignore rule, old does not and the source
    has no old. *)
Lemma ignored_path_removed_with_ancestor :
  Match plainLib (CopyIgnore.loadGitignorePatterns plainLib src_app)
        ["old"; "keep.txt"] false = true
  /\ stat dst_old ["old"; "keep.txt"] = Ok (File 420 "mine")
  /\ pruned plainLib src_app ["old"] (mkInfo true 493) = true
  /\ exists dst',
      CopyIgnore.SyncDirs env022 plainLib src_app dst_old = (Ret None, dst')
      /\ stat dst' ["old"; "keep.txt"] = Err ENOENT.
Proof.
  repeat (split; [reflexivity|]).
  eexists. split; [vm_compute; reflexivity|]. reflexivity.
Qed.

Lemma ignored_path_untouched_witness :
  stat (snd (CopyIgnore.SyncDirs env022 plainLib src_app dst_app)) ["keep.txt"]
  = Ok (File 384 "mine").
Proof.
  apply (ignored_path_untouched env022 plainLib src_app dst_app
           ["keep.txt"] (File 384 "mine"))
    with (e0 := ENOENT)
         (r := fst (CopyIgnore.SyncDirs env022 plainLib src_app dst_app)).
  - reflexivity.
  - reflexivity.
  - intros a i Ha Na Hi.
    destruct a as [|c a].
    + injection Hi as <-. reflexivity.
    + exfalso. apply Na. simpl in Ha.
      apply andb_true_iff in Ha as [Hc Ha]. apply String.eqb_eq in Hc.
      subst c. destruct a; [reflexivity | discriminate].
  - reflexivity.
  - apply surjective_pairing.
Defined.

(** C9: when [os.Stat] of the source path fails with an error other than
    not-exist, the prune callback of each version calls a method on the nil
    [FileInfo] and panics instead of returning the error (in the
    gitignore-aware version: for an entry no ignore rule matches). *)
Theorem prune_stat_error_panics
        (env : Env) (lib : GoLib) (S : source) (matcher : list (Pattern lib))
        (p : path) (i : FileInfo) (e : errno) (t : tree) :
  src_stat S p = Err e -> e <> ENOENT ->
  CopyFlag.pruneFn env S p (Some i) None t = (Panic, t)
  /\ CopyMode.pruneFn env S p (Some i) None t = (Panic, t)
  /\ (Match lib matcher (CopyIgnore.gitignorePath p) (IsDir i) = false ->
      CopyIgnore.pruneFn env lib S matcher p (Some i) None t = (Panic, t)).
Proof.
  intros Hs He.
  assert (X : pruneEntry env S p (Some i) t = (Panic, t)).
  { unfold pruneEntry. rewrite Hs. simpl. unfold bind, lift.
    destruct e; try reflexivity. now elim He. }
  split; [exact X|]. split; [exact X|].
  intros Mt. simpl. unfold bind, lift. simpl. rewrite Mt. exact X.
Qed.

Lemma prune_stat_error_panics_witness :
  CopyFlag.pruneFn env022 src_denied ["a"; "b"] (Some (mkInfo false 420)) None
                   dst_denied = (Panic, dst_denied)
  /\ CopyMode.pruneFn env022 src_denied ["a"; "b"] (Some (mkInfo false 420)) None
                      dst_denied = (Panic, dst_denied)
  /\ CopyIgnore.pruneFn env022 plainLib src_denied [] ["a"; "b"]
                        (Some (mkInfo false 420)) None dst_denied
     = (Panic, dst_denied).
Proof.
  destruct (prune_stat_error_panics env022 plainLib src_denied [] ["a"; "b"]
              (mkInfo false 420) EACCES dst_denied) as (H1 & H2 & H3).
  - reflexivity.
  - discriminate.
  - split; [exact H1|]. split; [exact H2|]. apply H3. reflexivity.
Defined.

(** The whole of [SyncDirs] panics on that input, in each version. *)
Lemma SyncDirs_panics :
  CopyFlag.SyncDirs env022 src_denied dst_denied = (Panic, dst_denied)
  /\ CopyMode.SyncDirs env022 src_denied dst_denied = (Panic, dst_denied)
  /\ CopyIgnore.SyncDirs env022 plainLib src_denied dst_denied
     = (Panic, dst_denied).
Proof. repeat split; reflexivity. Qed.

(** * Claims on git.go *)

Section GitFacts.
Variable SyncDirs : source -> M tree (option error).
Variable W : Outside.

Lemma GetLastCommit_state st r st' :
  GetLastCommit W st = (r, st') ->
  gitRepo st' = gitRepo st /\ command st' = command st /\ local st' = local st
  /\ log st' = EvProbe (URL (gitRepo st)) (Branch (gitRepo st)) :: log st.
Proof.
  unfold GetLastCommit, bind, gets, emit, modify. simpl.
  destruct (remote_head (remote W) (gitRepo st)) as [c|e].
  - destruct (String.eqb c ""); intros H; injection H as _ <-; auto.
  - intros H; injection H as _ <-; auto.
Qed.

Lemma Fetch_keeps_gitRepo c st r st' :
  Fetch SyncDirs W c st = (r, st') -> gitRepo st' = gitRepo st.
Proof.
  unfold Fetch, bind, gets, emit, modify. simpl.
  destruct (remote_checkout (remote W) (gitRepo st) c) as [S|e].
  - unfold orReturn, bind, on_local. simpl.
    destruct (SyncDirs S (local st)) as [[[e|]| |] t'];
      intros H; injection H as _ <-; reflexivity.
  - intros H; injection H as _ <-; reflexivity.
Qed.


(** C4: when the revision probed is the stored [lastFetchedCommit], [Sync]
    returns (false, nil); the local folder, the [GitRepo] and the command
    are what they were, and the probe is all the program has done to the
    outside: no retrieval, no synchronization. *)
Theorem Sync_same_revision_does_nothing (st : State) (c : string) (st1 : State) :
  GetLastCommit W st = (Ret (c, None), st1) ->
  lastFetchedCommit (gitRepo st) = c ->
  Sync SyncDirs W st = (Ret (false, None), st1)
  /\ local st1 = local st
  /\ gitRepo st1 = gitRepo st
  /\ command st1 = command st
  /\ log st1 = EvProbe (URL (gitRepo st)) (Branch (gitRepo st)) :: log st.
Proof.
  intros G E.
  destruct (GetLastCommit_state _ _ _ G) as (Hg & Hc & Hl & Hlog).
  repeat split; auto.
  unfold Sync, bind. rewrite G. simpl.
  rewrite Hg, E, String.eqb_refl. reflexivity.
Qed.
End GitFacts.


Lemma Sync_same_revision_does_nothing_witness :
  Sync (CopyIgnore.SyncDirs env022 plainLib)
       (outside (remote_at "c0ffee" src_conf)) state_synced
  = (Ret (false, None),
     mkState (gitRepo state_synced) (command state_synced) dst_conf
             [EvProbe "https://example.org/conf.git" "master"])
  /\ local (mkState (gitRepo state_synced) (command state_synced) dst_conf
                    [EvProbe "https://example.org/conf.git" "master"])
     = local state_synced
  /\ gitRepo (mkState (gitRepo state_synced) (command state_synced) dst_conf
                      [EvProbe "https://example.org/conf.git" "master"])
     = gitRepo state_synced
  /\ command (mkState (gitRepo state_synced) (command state_synced) dst_conf
                      [EvProbe "https://example.org/conf.git" "master"])
     = command state_synced
  /\ log (mkState (gitRepo state_synced) (command state_synced) dst_conf
                  [EvProbe "https://example.org/conf.git" "master"])
     = EvProbe (URL (gitRepo state_synced)) (Branch (gitRepo state_synced))
         :: log state_synced.
Proof.
  apply (Sync_same_revision_does_nothing
           (CopyIgnore.SyncDirs env022 plainLib)
           (outside (remote_at "c0ffee" src_conf)) state_synced "c0ffee").
  - reflexivity.
  - reflexivity.
Defined.

(** * Claims on main.go *)

Section MainFacts.
Variable SyncDirs : source -> M tree (option error).
Variable env : Env.
Variable PreUpdateCommand PreUpdateRunner : string.

Lemma InitializeGit_error_not_ok W b st ok e st' :
  InitializeGit SyncDirs W env b st = (Ret (ok, Some e), st') -> ok = false.
Proof.
  unfold InitializeGit, bind.
  destruct (on_local (MkdirAll env [] 509) st) as [[[e1|]| |] st1];
    try discriminate.
  - now intros H; injection H as <- _ _.
  - destruct (Sync SyncDirs W st1) as [[r| |] st2]; try discriminate.
    destruct b as [f|]; [|discriminate].
    destruct (f st2) as [[err| |] st3]; discriminate.
Qed.

(** A turn of the loop that starts with [gitInitialized] false ends with it
    false, whatever [InitializeGit] returned. *)
Lemma iteration_keeps_uninitialized W tr l l' :
  gitInitialized l = false ->
  iteration SyncDirs env PreUpdateCommand PreUpdateRunner W tr l = Ret l' ->
  gitInitialized l' = false.
Proof.
  intros G. unfold iteration. rewrite G. simpl.
  destruct tr.
  - intros H; injection H as <-. reflexivity.
  - destruct (InitializeGit _ _ _ _ _) as [[[ok [e|]]| |] st1] eqn:I;
      try discriminate; simpl.
    + rewrite (InitializeGit_error_not_ok _ _ _ _ _ _ I).
      intros H; injection H as <-. reflexivity.
    + intros H; injection H as <-. reflexivity.
  - destruct (InitializeGit _ _ _ _ _) as [[[ok [e|]]| |] st1] eqn:I;
      try discriminate; simpl.
    + rewrite (InitializeGit_error_not_ok _ _ _ _ _ _ I).
      intros H; injection H as <-. reflexivity.
    + intros H; injection H as <-. reflexivity.
Qed.

Lemma loop_keeps_uninitialized turns l l' :
  gitInitialized l = false ->
  loop SyncDirs env PreUpdateCommand PreUpdateRunner turns l = Ret l' ->
  gitInitialized l' = false.
Proof.
  revert l. induction turns as [|[W tr] rest IH]; intros l G; simpl.
  - now intros H; injection H as <-.
  - destruct (done l || negb (isNil (fatal l))).
    + now intros H; injection H as <-.
    + destruct (iteration _ _ _ _ W tr l) as [l1| |] eqn:I; try discriminate.
      apply IH. eapply iteration_keeps_uninitialized; eauto.
Qed.

Lemma Check_nil W b st err st' :
  Check SyncDirs W b st = (Ret err, st') -> err = None.
Proof.
  unfold Check, bind.
  destruct (Sync SyncDirs W st) as [[[changed [e|]]| |] st1]; try discriminate.
  - now intros H; injection H as <- _.
  - destruct changed; [|now intros H; injection H as <- _].
    destruct (match b with Some f => f | None => ret None end st1)
      as [[[e|]| |] st2]; try discriminate.
    + now intros H; injection H as <- _.
    + destruct (Restart (procs W) st2) as [[[e|]| |] st3]; try discriminate;
        now intros H; injection H as <- _.
Qed.

Lemma iteration_keeps_fatal W tr l l' :
  iteration SyncDirs env PreUpdateCommand PreUpdateRunner W tr l = Ret l' ->
  fatal l' = fatal l.
Proof.
  unfold iteration. destruct tr.
  - now intros H; injection H as <-.
  - destruct (negb (gitInitialized l)).
    + destruct (InitializeGit _ _ _ _ _) as [[[ok err]| |] st1]; try discriminate.
      destruct (negb (isNil err) && ok); now intros H; injection H as <-.
    + destruct (Check _ _ _ _) as [[err| |] st1] eqn:C; try discriminate.
      rewrite (Check_nil _ _ _ _ _ C). now intros H; injection H as <-.
  - destruct (negb (gitInitialized l)).
    + destruct (InitializeGit _ _ _ _ _) as [[[ok err]| |] st1]; try discriminate.
      destruct (negb (isNil err) && ok); now intros H; injection H as <-.
    + destruct (Check _ _ _ _) as [[err| |] st1] eqn:C; try discriminate.
      rewrite (Check_nil _ _ _ _ _ C). now intros H; injection H as <-.
Qed.

(** C8: [Check] returns nil whenever it returns, whether the
    synchronization, the hook or the restart failed or all went well; so no
    turn of the main loop reaches the "failed to check" exit, and a loop
    that starts without a fatal exit never has one. *)
Theorem Check_always_returns_nil :
  (forall W b st err st', Check SyncDirs W b st = (Ret err, st') -> err = None)
  /\ (forall W tr l l',
         iteration SyncDirs env PreUpdateCommand PreUpdateRunner W tr l = Ret l' ->
         fatal l' = fatal l)
  /\ (forall turns l l',
         fatal l = None ->
         loop SyncDirs env PreUpdateCommand PreUpdateRunner turns l = Ret l' ->
         fatal l' = None).
Proof.
  split; [exact Check_nil|]. split; [exact iteration_keeps_fatal|].
  intros turns. induction turns as [|[W tr] rest IH]; intros l l' F; simpl.
  - now intros H; injection H as <-.
  - destruct (done l || negb (isNil (fatal l))).
    + now intros H; injection H as <-.
    + destruct (iteration _ _ _ _ W tr l) as [l1| |] eqn:I; try discriminate.
      apply IH. rewrite (iteration_keeps_fatal _ _ _ _ I). exact F.
Qed.
End MainFacts.

Lemma Check_always_returns_nil_witness :
  exists l',
    loop (CopyIgnore.SyncDirs env022 plainLib) env022 "make" "bash"
         [(outside remote_down, TimeAfter);
          (outside (remote_at "facade" src_conf), UpdateCh)] loop_steady
    = Ret l'
    /\ fatal l' = None.
Proof.
  eexists. split; [vm_compute; reflexivity|].
  apply (proj2 (proj2 (Check_always_returns_nil
                         (CopyIgnore.SyncDirs env022 plainLib) env022
                         "make" "bash"))
           [(outside remote_down, TimeAfter);
            (outside (remote_at "facade" src_conf), UpdateCh)] loop_steady).
  - reflexivity.
  - vm_compute. reflexivity.
Defined.

(** C5, what the code does: the first [InitializeGit] has failed; on the
    next turn the remote is up and [InitializeGit] returns (true, nil), yet
    [gitInitialized] stays false, and the turn after that initializes once
    more (the hook runs although nothing changed) instead of taking the
    [Check] path. *)
Theorem retried_initialization_is_never_recorded :
  fst (InitializeGit (CopyIgnore.SyncDirs env022 plainLib)
                     (outside (remote_at "c0ffee" src_conf)) env022
                     (beforeUpdate "make" "bash"
                                   (outside (remote_at "c0ffee" src_conf)))
                     (state loop_uninitialized))
  = Ret (true, None)
  /\ exists l1 l2,
      iteration (CopyIgnore.SyncDirs env022 plainLib) env022 "make" "bash"
                (outside (remote_at "c0ffee" src_conf)) TimeAfter
                loop_uninitialized = Ret l1
      /\ gitInitialized l1 = false
      /\ local (state l1) = Some (Dir 493 [("app.conf", File 420 "v2")])
      /\ iteration (CopyIgnore.SyncDirs env022 plainLib) env022 "make" "bash"
                   (outside (remote_at "c0ffee" src_conf)) TimeAfter l1 = Ret l2
      /\ gitInitialized l2 = false
      /\ log (state l2)
         = [EvShell "bash" "make";
            EvProbe "https://example.org/conf.git" "master"] ++ log (state l1).
Proof.
  split; [reflexivity|].
  eexists. eexists.
  split; [vm_compute; reflexivity|]. split; [reflexivity|].
  split; [reflexivity|].
  split; [vm_compute; reflexivity|]. split; reflexivity.
Qed.

(** * Claims on command.go *)

(** C6: with a restart argument vector, [Restart] runs that command once,
    returns its failure wrapped, and leaves the [Command] (running flag,
    handle, pid and the rest) as it was; without one, and on a command
    that has a program name whenever it runs, [Restart] is [Stop] followed,
    when [Stop] succeeded, by [Start]. *)
Theorem Restart_runs_command_or_stops_and_starts (P : Procs) (st : State) :
  (RestartArgs (command st) <> [] ->
   Restart P st
   = (Ret (option_map (Errorf "failed to restart command")
                      (fst (run P (RestartArgs (command st)) (local st)))),
      mkState (gitRepo st) (command st)
              (snd (run P (RestartArgs (command st)) (local st)))
              (EvRun (RestartArgs (command st)) :: log st)))
  /\ (RestartArgs (command st) = [] -> has_program (command st) ->
      Restart P st
      = orWrap "failed to stop command" (Stop P)
               (orWrap "failed to start command again" (Start P) (ret None)) st).
Proof.
  split.
  - intros N. unfold Restart, bind, gets. simpl.
    destruct (RestartArgs (command st)) as [|a rest] eqn:R; [now elim N|].
    simpl. unfold orWrap, bind, external, on_local. simpl.
    destruct (run P (a :: rest) (local st)) as [[e|] t']; reflexivity.
  - intros R Hp. unfold Restart, bind, gets. simpl. rewrite R. simpl.
    destruct (Args (command st)) as [|a rest] eqn:A; [|reflexivity].
    unfold orWrap, bind, Stop, Start, bind, gets. simpl.
    destruct (cancel (command st)) eqn:C.
    + now elim (Hp C).
    + simpl. unfold IsRunning. rewrite C, A. reflexivity.
Qed.

Lemma Restart_runs_command_or_stops_and_starts_witness :
  Restart procs_ok (state loop_uninitialized)
  = (Ret None,
     mkState (gitRepo (state loop_uninitialized))
             (command (state loop_uninitialized))
             (Some (Dir 493 []))
             (EvRun ["reload"] :: log (state loop_uninitialized)))
  /\ Restart procs_ok
             (mkState repo0 (mkCommand ["server"] 7 [] (Some ["server"]) true 0)
                      None [])
     = (Ret None,
        mkState repo0 (mkCommand ["server"] 4242 [] (Some ["server"]) true (-1))
                None [EvSpawn ["server"]; EvCancel]).
Proof.
  split.
  - apply (proj1 (Restart_runs_command_or_stops_and_starts
                    procs_ok (state loop_uninitialized))).
    discriminate.
  - rewrite (proj2 (Restart_runs_command_or_stops_and_starts procs_ok
                      (mkState repo0
                               (mkCommand ["server"] 7 [] (Some ["server"]) true 0)
                               None []))).
    + reflexivity.
    + reflexivity.
    + intros _. discriminate.
Defined.

(** * Claims on the trigger queue *)

Lemma queue_step_bound c ev :
  capacity c = 5%nat -> (buffered c <= 5)%nat ->
  capacity (queue_step c ev) = 5%nat /\ (buffered (queue_step c ev) <= 5)%nat.
Proof.
  intros Hc Hb. destruct ev; simpl.
  - unfold chan_send. rewrite Hc.
    destruct (buffered c <? 5)%nat eqn:L; simpl; split; auto.
    apply Nat.ltb_lt in L. lia.
  - unfold chan_recv.
    destruct (buffered c) as [|b] eqn:B; [rewrite B; auto|].
    destruct (parked c); simpl; split; auto. lia.
Qed.

Lemma queue_run_bound evs c :
  capacity c = 5%nat -> (buffered c <= 5)%nat ->
  capacity (queue_run evs c) = 5%nat /\ (buffered (queue_run evs c) <= 5)%nat.
Proof.
  revert c. induction evs as [|ev evs IH]; intros c Hc Hb; simpl; [auto|].
  destruct (queue_step_bound c ev Hc Hb) as [Hc' Hb']. now apply IH.
Qed.

(** C7 (amended): whatever triggers and receives have happened, the queue
    holds at most five triggers; a trigger that arrives when it holds five
    is not dropped: the sender is parked on the channel, and the next
    receive of the main loop puts its trigger into the queue and releases
    it. *)
Theorem queue_bounded_and_full_queue_blocks (evs : list queue_event) :
  (buffered (queue_run evs updateCh) <= 5)%nat
  /\ (buffered (queue_run evs updateCh) = 5%nat ->
      chan_send (queue_run evs updateCh)
      = (SendBlocks, mkChan 5 5 (S (parked (queue_run evs updateCh))))
      /\ chan_recv (snd (chan_send (queue_run evs updateCh)))
         = Some (mkChan 5 5 (parked (queue_run evs updateCh)))).
Proof.
  destruct (queue_run_bound evs updateCh eq_refl) as [Hc Hb];
    [simpl; lia|].
  split; [exact Hb|].
  intros F. unfold chan_send, chan_recv. rewrite Hc, F. simpl. split; reflexivity.
Qed.

Lemma queue_bounded_and_full_queue_blocks_witness :
  chan_send (queue_run [Trigger; Trigger; Receive; Trigger; Trigger;
                        Trigger; Trigger] updateCh)
  = (SendBlocks, mkChan 5 5 1)
  /\ chan_recv (snd (chan_send (queue_run [Trigger; Trigger; Receive; Trigger;
                                           Trigger; Trigger; Trigger] updateCh)))
     = Some (mkChan 5 5 0).
Proof.
  apply (proj2 (queue_bounded_and_full_queue_blocks
                  [Trigger; Trigger; Receive; Trigger; Trigger; Trigger; Trigger])).
  reflexivity.
Defined.

(** C7 as stated fails: with five triggers pending, the callback's send does
    not complete, and the sixth trigger is not dropped either: it is
    delivered by the next receive, after which five are pending again. *)
Lemma full_queue_blocks_the_sender :
  buffered (queue_run [Trigger; Trigger; Trigger; Trigger; Trigger] updateCh)
  = 5%nat
  /\ fst (chan_send (queue_run [Trigger; Trigger; Trigger; Trigger; Trigger]
                               updateCh))
     = SendBlocks
  /\ queue_run [Trigger; Trigger; Trigger; Trigger; Trigger; Trigger; Receive]
               updateCh
     = mkChan 5 5 0
  /\ queue_run [Trigger; Trigger; Trigger; Trigger; Trigger; Receive] updateCh
     = mkChan 5 4 0.
Proof. repeat split. Qed.

(** * Claims on webhook.go *)

Lemma prefix_app a s : String.prefix a (a ++ s)%string = true.
Proof.
  induction a as [|c a IH]; simpl.
  - now destruct s.
  - destruct (ascii_dec c c) as [_|N]; [exact IH | now elim N].
Qed.

Lemma prefix_split a s :
  String.prefix a s = true -> exists b, s = (a ++ b)%string.
Proof.
  revert s. induction a as [|c a IH]; intros s H.
  - now exists s.
  - destruct s as [|d s]; [discriminate|]. simpl in H.
    destruct (ascii_dec c d) as [->|N]; [|discriminate].
    destruct (IH _ H) as [b ->]. now exists b.
Qed.

(** [Contains] is true exactly when the substring occurs somewhere. *)
Lemma Contains_spec s sub :
  Contains s sub = true <-> exists a b, s = (a ++ sub ++ b)%string.
Proof.
  split.
  - induction s as [|c s IH]; cbn [Contains]; intros H.
    + apply orb_true_iff in H as [H | H]; [|discriminate].
      apply prefix_split in H as [b ->]. now exists ""%string, b.
    + apply orb_true_iff in H as [H | H].
      * apply prefix_split in H as [b ->]. now exists ""%string, b.
      * destruct (IH H) as (a & b & ->). now exists (String c a), b.
  - intros (a & b & ->). induction a as [|c a IH].
    + change ("" ++ sub ++ b)%string with (sub ++ b)%string.
      destruct (sub ++ b)%string eqn:E; cbn [Contains];
        rewrite <- E, prefix_app; reflexivity.
    + change (String c a ++ sub ++ b)%string with (String c (a ++ sub ++ b)).
      cbn [Contains]. rewrite IH. apply orb_true_r.
Qed.



(** * The bound of the walks is enough

    [SyncDirs] gives each walk the height of the tree it walks as fuel, and
    no walk uses it up: the result of [SyncDirs] is a return or a panic. *)

Section WalkFuel.
Context {St : Type}.
Variable lstat : path -> St -> result FileInfo.
Variable readDirNames : path -> St -> result (list string).
Variable fn : @WalkFunc St.
Variable size : path -> St -> nat.

Hypothesis fn_fuel : forall q oi err st st',
    fn q oi err st <> (OutOfFuel, st').
Hypothesis fn_mono : forall q oi err st r st' a,
    fn q oi err st = (r, st') -> (size a st' <= size a st)%nat.
Hypothesis child_smaller : forall q name st fi,
    lstat (q ++ [name]) st = Ok fi -> (size (q ++ [name]) st < size q st)%nat.
Hypothesis size_pos : forall q st i,
    lstat q st = Ok i -> (0 < size q st)%nat.

Lemma walkNames_fuel (rec : path -> FileInfo -> M St (option error)) q bound :
  (forall c i st r st',
      lstat c st = Ok i -> (size c st <= bound)%nat -> rec c i st = (r, st') ->
      r <> OutOfFuel /\ forall a, (size a st' <= size a st)%nat) ->
  forall names st r st',
    (size q st <= S bound)%nat ->
    walkNames lstat fn rec q names st = (r, st') ->
    r <> OutOfFuel /\ forall a, (size a st' <= size a st)%nat.
Proof.
  intros Hrec names.
  induction names as [|name rest IH]; intros st r st' Hq H; simpl in H.
  - injection H as <- <-. split; [discriminate | auto].
  - destruct (lstat (q ++ [name]) st) as [fi|e] eqn:L; unfold bind in H.
    + destruct (rec (q ++ [name]) fi st) as [r1 st1] eqn:R.
      assert (Hc : (size (q ++ [name]) st <= bound)%nat)
        by (pose proof (child_smaller _ _ _ _ L); lia).
      destruct (Hrec _ _ _ _ _ L Hc R) as [N1 M1].
      assert (Hq1 : (size q st1 <= S bound)%nat) by (specialize (M1 q); lia).
      destruct r1 as [[e'|]| |].
      * destruct (negb (IsDir fi) || negb (isSkipDir e')).
        -- injection H as <- <-. split; [discriminate | exact M1].
        -- destruct (IH _ _ _ Hq1 H) as [N2 M2]. split; [exact N2|].
           intros a. specialize (M1 a). specialize (M2 a). lia.
      * destruct (IH _ _ _ Hq1 H) as [N2 M2]. split; [exact N2|].
        intros a. specialize (M1 a). specialize (M2 a). lia.
      * injection H as <- <-. split; [discriminate | exact M1].
      * now elim N1.
    + destruct (fn (q ++ [name]) None (Some (PathError e)) st) as [r1 st1] eqn:R.
      pose proof (fun a => fn_mono _ _ _ _ _ _ a R) as M1.
      assert (Hq1 : (size q st1 <= S bound)%nat) by (specialize (M1 q); lia).
      destruct r1 as [[e'|]| |].
      * destruct (isSkipDir e').
        -- destruct (IH _ _ _ Hq1 H) as [N2 M2]. split; [exact N2|].
           intros a. specialize (M1 a). specialize (M2 a). lia.
        -- injection H as <- <-. split; [discriminate | exact M1].
      * destruct (IH _ _ _ Hq1 H) as [N2 M2]. split; [exact N2|].
        intros a. specialize (M1 a). specialize (M2 a). lia.
      * injection H as <- <-. split; [discriminate | exact M1].
      * now elim (fn_fuel _ _ _ _ _ R).
Qed.

Lemma walk_fuel fuel :
  forall q i st r st',
    lstat q st = Ok i -> (0 < size q st <= fuel)%nat ->
    walk lstat readDirNames fn fuel q i st = (r, st') ->
    r <> OutOfFuel /\ forall a, (size a st' <= size a st)%nat.
Proof.
  induction fuel as [|fuel IH]; intros q i st r st' L Hq H; [lia|].
  simpl in H. destruct (IsDir i); simpl in H.
  - unfold bind in H.
    destruct (fn q (Some i)
                 match readDirNames q st with
                 | Ok _ => None
                 | Err e => Some (PathError e)
                 end st) as [r1 st1] eqn:R.
    pose proof (fun a => fn_mono _ _ _ _ _ _ a R) as M1.
    destruct r1 as [err1| |].
    + destruct (negb (isNil _) || negb (isNil err1)).
      * injection H as <- <-. split; [discriminate | exact M1].
      * assert (Hrec : forall c i' st2 r2 st2',
                   lstat c st2 = Ok i' -> (size c st2 <= fuel)%nat ->
                   walk lstat readDirNames fn fuel c i' st2 = (r2, st2') ->
                   r2 <> OutOfFuel /\
                   forall a, (size a st2' <= size a st2)%nat).
        { intros c i' st2 r2 st2' L2 Hc W.
          eapply IH; [exact L2 | | exact W].
          pose proof (size_pos _ _ _ L2). lia. }
        assert (Hq1 : (size q st1 <= S fuel)%nat) by (specialize (M1 q); lia).
        destruct (walkNames_fuel _ q fuel Hrec _ _ _ _ Hq1 H) as [N2 M2].
        split; [exact N2|].
        intros a. specialize (M1 a). specialize (M2 a). lia.
    + injection H as <- <-. split; [discriminate | exact M1].
    + now elim (fn_fuel _ _ _ _ _ R).
  - split.
    + intros ->. now elim (fn_fuel _ _ _ _ _ H).
    + intros a. eapply fn_mono; eauto.
Qed.

Lemma Walk_fuel fuel st r st' :
  (size [] st <= fuel)%nat ->
  Walk lstat readDirNames fn fuel st = (r, st') ->
  r <> OutOfFuel.
Proof.
  intros Hf H. unfold Walk, bind in H.
  destruct (lstat [] st) as [i|e] eqn:L.
  - destruct (walk lstat readDirNames fn fuel [] i st) as [r1 st1] eqn:W.
    apply walk_fuel in W as [N _];
      [| exact L | pose proof (size_pos _ _ _ L); lia].
    destruct r1 as [[[]|]| |]; injection H as <- _; discriminate || exact N.
  - destruct (fn [] None (Some (PathError e)) st) as [r1 st1] eqn:R.
    destruct r1 as [[[]|]| |]; injection H as <- _; try discriminate.
    now elim (fn_fuel _ _ _ _ _ R).
Qed.
End WalkFuel.

Lemma height_Dir m ents : height (Dir m ents) = S (hmax ents).
Proof.
  reflexivity.
Qed.

Lemma height_pos n : (0 < height n)%nat.
Proof. destruct n; [simpl; lia | rewrite height_Dir; lia]. Qed.

Lemma find_hmax c ents n : find c ents = Some n -> (height n <= hmax ents)%nat.
Proof.
  induction ents as [|[c' n'] rest IH]; simpl; [discriminate|].
  destruct (String.eqb c c').
  - intros H; injection H as ->. lia.
  - intros H. specialize (IH H). lia.
Qed.

Lemma stat_snoc t q name c :
  stat t (q ++ [name]) = Ok c ->
  exists m ents, stat t q = Ok (Dir m ents) /\ find name ents = Some c.
Proof.
  revert t. induction q as [|x q IH]; intros t H.
  - destruct t as [[m d | m ents]|]; simpl in H; try discriminate.
    exists m, ents. split; [reflexivity|].
    destruct (find name ents); [congruence | discriminate].
  - destruct t as [[m d | m ents]|]; try discriminate.
    change ((x :: q) ++ [name]) with (x :: (q ++ [name])) in H.
    rewrite stat_cons in H. setoid_rewrite stat_cons. eauto.
Qed.

Lemma size_child t q name c :
  stat t (q ++ [name]) = Ok c ->
  (size_at t (q ++ [name]) < size_at t q)%nat.
Proof.
  intros H. unfold size_at. rewrite H.
  destruct (stat_snoc _ _ _ _ H) as (m & ents & -> & F).
  rewrite height_Dir. apply find_hmax in F. lia.
Qed.

Lemma hmax_set_ent c o ents :
  (size_at o [] <= size_at (find c ents) [])%nat ->
  (hmax (set_ent c o ents) <= hmax ents)%nat.
Proof.
  induction ents as [|[c' n'] rest IH]; simpl; intros H.
  - destruct o as [n|]; [|simpl; lia].
    unfold size_at in H. simpl in H. pose proof (height_pos n). lia.
  - destruct (String.eqb c c') eqn:E.
    + destruct o as [n|].
      * unfold size_at in H. simpl in H. simpl. lia.
      * assert (X : (hmax (set_ent c None rest) <= hmax rest)%nat).
        { clear. induction rest as [|[c1 n1] rest IH]; simpl; [lia|].
          destruct (String.eqb c c1); simpl; lia. }
        lia.
    + simpl. specialize (IH H). lia.
Qed.

(** A change that does not make the entry higher makes no entry higher. *)
Lemma descend_shrinks f q t t' :
  (forall o o', f o = Ok o' -> forall a, (size_at o' a <= size_at o a)%nat) ->
  descend f q t = Ok t' ->
  forall a, (size_at t' a <= size_at t a)%nat.
Proof.
  intros Hf. revert t t'. induction q as [|c q IH]; intros t t' H a.
  - exact (Hf _ _ H a).
  - destruct t as [[m d | m ents]|]; simpl in H; try discriminate.
    destruct (descend f q (find c ents)) as [o|e] eqn:D; [|discriminate].
    injection H as <-.
    destruct a as [|c' a].
    + unfold size_at. cbn [stat resolve]. rewrite !height_Dir.
      pose proof (hmax_set_ent c o ents (IH _ _ D [])). lia.
    + unfold size_at. rewrite !stat_cons.
      destruct (String.eqb c' c) eqn:E.
      * apply String.eqb_eq in E. subst c'. rewrite find_set_ent_same.
        exact (IH _ _ D a).
      * rewrite find_set_ent_other by exact E. lia.
Qed.

Lemma RemoveAll_shrinks env q t r t' :
  RemoveAll env q t = (r, t') ->
  r <> OutOfFuel /\ forall a, (size_at t' a <= size_at t a)%nat.
Proof.
  intros H. split.
  - unfold RemoveAll in H.
    destruct (dotRoot env && isNil (hd_error q)); [now injection H as <- _|].
    destruct (descend _ q t) as [t1|[]]; now injection H as <- _.
  - apply RemoveAll_cases in H as [-> | H]; [auto|].
    eapply descend_shrinks; [|exact H].
    intros o o' E a. injection E as <-. unfold size_at. simpl. lia.
Qed.

Lemma mismatch_fuel si err i : mismatch si err i <> OutOfFuel.
Proof.
  unfold mismatch, IsExecAny, info_Mode, info_IsDir.
  destruct (IsNotExist err); [discriminate|].
  destruct si, i; try discriminate;
    destruct (negb (Bool.eqb _ _)); discriminate.
Qed.

Lemma pruneEntry_shrinks env S q oi st r st' :
  pruneEntry env S q oi st = (r, st') ->
  r <> OutOfFuel /\ forall a, (size_at st' a <= size_at st a)%nat.
Proof.
  unfold pruneEntry.
  destruct (os_Stat (src_stat S q)) as [si serr]. unfold bind, lift.
  destruct (mismatch si serr oi) as [[|]| |] eqn:Mm.
  - unfold orWrap, bind.
    destruct (RemoveAll env q st) as [r1 st1] eqn:R.
    destruct (RemoveAll_shrinks _ _ _ _ _ R) as [N Mo].
    destruct r1 as [[e|]| |]; intros H; injection H as <- <-;
      (split; [discriminate || exact N | exact Mo]).
  - intros H; injection H as <- <-. split; [discriminate | auto].
  - intros H; injection H as <- <-. split; [discriminate | auto].
  - now elim (mismatch_fuel si serr oi).
Qed.

Ltac break_match :=
  match goal with
  | |- context [match descend ?f ?p ?t with _ => _ end] =>
      destruct (descend f p t) eqn:?
  | |- context [match mkdirAll ?e ?m ?p ?t with _ => _ end] =>
      destruct (mkdirAll e m p t) eqn:?
  | |- context [match ?x with _ => _ end] =>
      lazymatch x with
      | context [match _ with _ => _ end] => fail
      | _ => destruct x eqn:?
      end
  end.

Ltac never_out_of_fuel :=
  cbv beta; repeat (break_match; cbv beta);
  (let H := fresh "H" in intro H; discriminate H).

Lemma sys_fuel f t t' : sys f t <> (OutOfFuel, t').
Proof. unfold sys. never_out_of_fuel. Qed.

Lemma CopyMode_copyFn_fuel env S q oi err st st' :
  CopyMode.copyFn env S q oi err st <> (OutOfFuel, st').
Proof.
  unfold CopyMode.copyFn, CopyMode.copyFile, MkdirAll, os_Create, io_Copy,
    Chmod, orWrap, orReturn, bind, ret, lift, info_IsDir, info_Mode, sys.
  never_out_of_fuel.
Qed.

Lemma CopyFlag_copyFn_fuel env S q oi err st st' :
  CopyFlag.copyFn env S q oi err st <> (OutOfFuel, st').
Proof.
  unfold CopyFlag.copyFn, CopyFlag.copyFile, MkdirAll, os_Create, io_Copy,
    Chmod, orWrap, orReturn, bind, ret, lift, info_IsDir, info_Mode, sys.
  never_out_of_fuel.
Qed.

Lemma CopyIgnore_copyFn_fuel env S q oi err st st' :
  CopyIgnore.copyFn env S q oi err st <> (OutOfFuel, st').
Proof.
  unfold CopyIgnore.copyFn, CopyIgnore.copyFile, MkdirAll, os_Create, io_Copy,
    Chmod, orWrap, orReturn, bind, ret, lift, info_IsDir, info_Mode, sys.
  never_out_of_fuel.
Qed.

Lemma plain_pruneFn_shrinks env S q oi err st r st' :
  match err with
  | Some e => ret (Some e)
  | None => pruneEntry env S q oi
  end st = (r, st') ->
  r <> OutOfFuel /\ forall a, (size_at st' a <= size_at st a)%nat.
Proof.
  destruct err as [e|].
  - intros H; injection H as <- <-. split; [discriminate | auto].
  - apply pruneEntry_shrinks.
Qed.

Lemma CopyIgnore_pruneFn_shrinks env lib S matcher q oi err st r st' :
  CopyIgnore.pruneFn env lib S matcher q oi err st = (r, st') ->
  r <> OutOfFuel /\ forall a, (size_at st' a <= size_at st a)%nat.
Proof.
  unfold CopyIgnore.pruneFn.
  destruct err as [e|].
  { intros H; injection H as <- <-. split; [discriminate | auto]. }
  unfold bind, lift.
  destruct (info_IsDir oi) as [isdir| |] eqn:I.
  - destruct (Match lib matcher (CopyIgnore.gitignorePath q) isdir).
    + destruct isdir; intros H; injection H as <- <-;
        (split; [discriminate | auto]).
    + apply pruneEntry_shrinks.
  - intros H; injection H as <- <-. split; [discriminate | auto].
  - destruct oi; discriminate.
Qed.

Section Totality.
Variable env : Env.
Variable S : source.

Lemma prune_walk_total (fn : @WalkFunc tree) st r st' :
  (forall q oi err st r st',
      fn q oi err st = (r, st') ->
      r <> OutOfFuel /\ forall a, (size_at st' a <= size_at st a)%nat) ->
  Walk dst_lstat dst_readDirNames fn (theight st) st = (r, st') ->
  r <> OutOfFuel.
Proof.
  intros Hfn H.
  eapply (Walk_fuel dst_lstat dst_readDirNames fn (fun q t => size_at t q));
    [ | | | | | exact H].
  - intros q oi err t t' E. now destruct (Hfn _ _ _ _ _ _ E).
  - intros q oi err t r0 t' a E. now destruct (Hfn _ _ _ _ _ _ E).
  - intros q name t fi L. unfold dst_lstat in L.
    destruct (stat t (q ++ [name])) as [c|e] eqn:E; [|discriminate].
    eapply size_child; eauto.
  - intros q t i L. unfold dst_lstat, size_at in *.
    destruct (stat t q); [apply height_pos | discriminate].
  - unfold size_at. destruct st as [n|]; simpl; lia.
Qed.

Lemma copy_walk_total (fn : @WalkFunc tree) st r st' :
  (forall q oi err st st', fn q oi err st <> (OutOfFuel, st')) ->
  Walk (src_lstat S) (src_readDirNames S) fn (theight (src_tree S)) st = (r, st') ->
  r <> OutOfFuel.
Proof.
  intros Hfn H.
  eapply (Walk_fuel (src_lstat S) (src_readDirNames S) fn
                    (fun q (_ : tree) => size_at (src_tree S) q));
    [ | | | | | exact H].
  - exact Hfn.
  - intros; lia.
  - intros q name t fi L. unfold src_lstat, src_stat in L.
    destruct (src_fault S (q ++ [name])); [discriminate|].
    destruct (stat (src_tree S) (q ++ [name])) as [c|e] eqn:E; [|discriminate].
    eapply size_child; eauto.
  - intros q t i L. unfold src_lstat, src_stat, size_at in *.
    destruct (src_fault S q); [discriminate|].
    destruct (stat (src_tree S) q); [apply height_pos | discriminate].
  - unfold size_at. destruct (src_tree S) as [n|]; simpl; lia.
Qed.

(** Each version of [SyncDirs] returns or panics; the bound of the model is
    never reached. *)
Lemma CopyMode_SyncDirs_total dst : fst (CopyMode.SyncDirs env S dst) <> OutOfFuel.
Proof.
  unfold CopyMode.SyncDirs, bind, gets.
  destruct (Walk dst_lstat dst_readDirNames _ (theight dst) dst)
    as [r1 st1] eqn:W.
  apply prune_walk_total in W; [|intros; eapply plain_pruneFn_shrinks; eauto].
  destruct r1 as [err| |]; simpl; auto; try discriminate.
  destruct (negb (isNil err) && negb (IsNotExist err)); [simpl; discriminate|].
  destruct (Walk (src_lstat S) _ _ _ st1) as [r2 st2] eqn:W2. simpl.
  eapply copy_walk_total; [|exact W2]. apply CopyMode_copyFn_fuel.
Qed.

Lemma CopyFlag_SyncDirs_total dst : fst (CopyFlag.SyncDirs env S dst) <> OutOfFuel.
Proof.
  unfold CopyFlag.SyncDirs, bind, gets.
  destruct (Walk dst_lstat dst_readDirNames _ (theight dst) dst)
    as [r1 st1] eqn:W.
  apply prune_walk_total in W; [|intros; eapply plain_pruneFn_shrinks; eauto].
  destruct r1 as [err| |]; simpl; auto; try discriminate.
  destruct (negb (isNil err) && negb (IsNotExist err)); [simpl; discriminate|].
  destruct (Walk (src_lstat S) _ _ _ st1) as [r2 st2] eqn:W2. simpl.
  eapply copy_walk_total; [|exact W2]. apply CopyFlag_copyFn_fuel.
Qed.

Lemma CopyIgnore_SyncDirs_total lib dst :
  fst (CopyIgnore.SyncDirs env lib S dst) <> OutOfFuel.
Proof.
  unfold CopyIgnore.SyncDirs, bind, gets.
  destruct (Walk dst_lstat dst_readDirNames _ (theight dst) dst)
    as [r1 st1] eqn:W.
  apply prune_walk_total in W;
    [|intros; eapply CopyIgnore_pruneFn_shrinks; eauto].
  destruct r1 as [err| |]; simpl; auto; try discriminate.
  destruct (negb (isNil err) && negb (IsNotExist err)); [simpl; discriminate|].
  destruct (Walk (src_lstat S) _ _ _ st1) as [r2 st2] eqn:W2. simpl.
  eapply copy_walk_total; [|exact W2]. apply CopyIgnore_copyFn_fuel.
Qed.
End Totality.

(** * What [SyncDirs] leaves in the destination *)

Lemma look_cons m ents c p :
  look (Some (Dir m ents)) (c :: p) = look (find c ents) p.
Proof. unfold look. now rewrite stat_cons. Qed.

(** A change at [q] leaves kind, mode and bytes of every path that [q] is
    not a prefix of. *)
Lemma descend_look f q t t' p :
  descend f q t = Ok t' ->
  prefixb q p = false ->
  look t' p = look t p.
Proof.
  revert t t' p; induction q as [|c q IH]; intros t t' p H Hq.
  - discriminate.
  - destruct t as [[m d | m ents]|]; simpl in H; try discriminate.
    destruct (descend f q (find c ents)) as [o|e] eqn:D; [|discriminate].
    injection H as <-.
    destruct p as [|c' p]; [reflexivity|].
    rewrite !look_cons. simpl in Hq.
    destruct (String.eqb c' c) eqn:E.
    + apply String.eqb_eq in E. subst c'.
      rewrite String.eqb_refl in Hq. simpl in Hq.
      rewrite find_set_ent_same. eauto.
    + now rewrite find_set_ent_other.
Qed.

(** [os.MkdirAll] leaves kind, mode and bytes of everything that exists. *)
Lemma mkdirAll_look env perm q t t' p x :
  mkdirAll env perm q t = Ok t' ->
  look t p = Ok x ->
  look t' p = Ok x.
Proof.
  revert t t' p; induction q as [|c q IH]; intros t t' p H Hl.
  - destruct t as [[m d | m ents]|]; simpl in H; try discriminate.
    now injection H as <-.
  - destruct t as [[m d | m ents]|]; simpl in H; try discriminate.
    destruct (mkdirAll env perm q (find c ents)) as [o|e] eqn:D; [|discriminate].
    injection H as <-.
    destruct p as [|c' p]; [exact Hl|].
    rewrite look_cons in *.
    destruct (String.eqb c' c) eqn:E.
    + apply String.eqb_eq in E. subst c'.
      rewrite find_set_ent_same. eauto.
    + now rewrite find_set_ent_other.
Qed.

(** After [os.MkdirAll] has succeeded there is a directory at the path. *)
Lemma mkdirAll_is_dir env perm q t t' :
  mkdirAll env perm q t = Ok t' -> exists m, look t' q = Ok (Dir m []).
Proof.
  revert t t'; induction q as [|c q IH]; intros t t' H.
  - destruct t as [[m d | m ents]|]; simpl in H; try discriminate;
      injection H as <-; eexists; reflexivity.
  - destruct t as [[m d | m ents]|]; simpl in H; try discriminate.
    + destruct (mkdirAll env perm q (find c ents)) as [o|e] eqn:D; [|discriminate].
      injection H as <-. rewrite look_cons, find_set_ent_same. eauto.
    + destruct (mkdirAll env perm q None) as [o|e] eqn:D; [|discriminate].
      injection H as <-. rewrite look_cons.
      pose proof (find_set_ent_same c o []) as F. simpl in F. rewrite F. eauto.
Qed.

Lemma prefixb_snoc_self q name : prefixb (q ++ [name]) q = false.
Proof.
  induction q as [|x q IH]; simpl; [reflexivity|].
  now rewrite String.eqb_refl, IH.
Qed.

Lemma prefixb_self_snoc q r : prefixb q (q ++ r) = true.
Proof.
  induction q as [|x q IH]; simpl; [reflexivity|].
  now rewrite String.eqb_refl, IH.
Qed.

(** Nothing below one child of [q] lies below another child. *)
Lemma prefixb_sibling q name name' r :
  name' <> name -> prefixb (q ++ [name']) (q ++ name :: r) = false.
Proof.
  intros N. induction q as [|x q IH]; simpl.
  - destruct (String.eqb name' name) eqn:E; [|reflexivity].
    apply String.eqb_eq in E. now elim N.
  - now rewrite String.eqb_refl, IH.
Qed.

Lemma prefixb_child_false x name p :
  prefixb x p = false -> prefixb (x ++ [name]) p = false.
Proof.
  intros H. destruct (prefixb (x ++ [name]) p) eqn:E; [|reflexivity].
  rewrite (prefixb_trans x (x ++ [name]) p) in H; [discriminate | | exact E].
  apply prefixb_self_snoc.
Qed.

(** The names a walk is given for a directory: every name that resolves,
    once. *)
Lemma names_of_In c ents : In c (names_of ents) <-> find c ents <> None.
Proof.
  induction ents as [|[c' n'] rest IH]; simpl.
  - split; [intros [] | intros H; now elim H].
  - destruct (String.eqb c c') eqn:E.
    + apply String.eqb_eq in E. subst c'.
      split; [discriminate|]. intros _.
      destruct (existsb (String.eqb c) (names_of rest)) eqn:X.
      * apply existsb_exists in X as (x & Hx & Ex).
        apply String.eqb_eq in Ex. now subst x.
      * now left.
    + destruct (existsb (String.eqb c') (names_of rest)); simpl; rewrite IH.
      * reflexivity.
      * split; [intros [-> | H]; [|exact H] | intros H; now right].
        now rewrite String.eqb_refl in E.
Qed.

Lemma names_of_NoDup ents : NoDup (names_of ents).
Proof.
  induction ents as [|[c n] rest IH]; simpl; [constructor|].
  destruct (existsb (String.eqb c) (names_of rest)) eqn:X; [exact IH|].
  constructor; [|exact IH].
  intros Hin. assert (existsb (String.eqb c) (names_of rest) = true).
  { apply existsb_exists. exists c. split; [exact Hin | apply String.eqb_refl]. }
  congruence.
Qed.

Lemma insert_sorted_In x s l : In x (insert_sorted s l) <-> x = s \/ In x l.
Proof.
  induction l as [|y l IH]; simpl.
  - intuition.
  - destruct (String.leb s y); simpl; [intuition|].
    rewrite IH. intuition.
Qed.

Lemma insert_sorted_NoDup s l :
  ~ In s l -> NoDup l -> NoDup (insert_sorted s l).
Proof.
  induction l as [|y l IH]; simpl; intros Hs Hl.
  - constructor; [intros [] | constructor].
  - destruct (String.leb s y).
    + constructor; [exact Hs | exact Hl].
    + inversion Hl as [|? ? Hy Hl']; subst.
      constructor.
      * rewrite insert_sorted_In. intros [-> | H]; [|now apply Hy].
        apply Hs. now left.
      * apply IH; [|exact Hl']. intros H. apply Hs. now right.
Qed.

Lemma sort_strings_In x l : In x (sort_strings l) <-> In x l.
Proof.
  induction l as [|y l IH]; simpl; [reflexivity|].
  rewrite insert_sorted_In, IH. intuition.
Qed.

Lemma sort_strings_NoDup l : NoDup l -> NoDup (sort_strings l).
Proof.
  induction l as [|y l IH]; simpl; intros H; [constructor|].
  inversion H as [|? ? Hy Hl]; subst.
  apply insert_sorted_NoDup; [|now apply IH].
  now rewrite sort_strings_In.
Qed.

Lemma stat_app_ok t q r nq : stat t q = Ok nq -> stat t (q ++ r) = resolve nq r.
Proof.
  revert t. induction q as [|c q IH]; intros t H.
  - destruct t; simpl in *; [congruence | discriminate].
  - destruct t as [[m d | m ents]|]; try discriminate.
    change ((c :: q) ++ r) with (c :: (q ++ r)).
    rewrite stat_cons in *. eauto.
Qed.

Lemma src_stat_tree S p n : src_stat S p = Ok n -> stat (src_tree S) p = Ok n.
Proof. unfold src_stat. now destruct (src_fault S p). Qed.

(** ** A successful copy pass mirrors the source

    For a callback that, on success, leaves a directory where the source has
    one and a file with the bytes of the source file where the source has a
    file, that changes nothing the path visited is not a prefix of, that
    hands back the error of the walk and never answers [SkipDir]. *)
Section Mirror.
Variable S : source.
Variable fn : @WalkFunc tree.
Variable good : Z -> Z -> Prop.

Hypothesis fn_file : forall q sm d t t',
    src_stat S q = Ok (File sm d) ->
    fn q (Some (mkInfo false sm)) None t = (Ret None, t') ->
    mirrors good (File sm d) t' q.
Hypothesis fn_dir : forall q sm e t t',
    src_stat S q = Ok (Dir sm e) ->
    fn q (Some (mkInfo true sm)) None t = (Ret None, t') ->
    mirrors good (Dir sm e) t' q.
Hypothesis fn_frame : forall q oi err t r t' p x,
    prefixb q p = false -> look t p = Ok x ->
    fn q oi err t = (r, t') -> look t' p = Ok x.
Hypothesis fn_err : forall q oi e t,
    fn q oi (Some e) t = (Ret (Some e), t).
Hypothesis fn_noskip : forall q oi t e t',
    fn q oi None t = (Ret (Some e), t') -> isSkipDir e = false.

Lemma walk_frame fuel c i st r st' p x :
  src_lstat S c st = Ok i ->
  prefixb c p = false -> look st p = Ok x ->
  walk (src_lstat S) (src_readDirNames S) fn fuel c i st = (r, st') ->
  look st' p = Ok x.
Proof.
  intros L Hc Hl H.
  eapply (walk_inv (src_lstat S) (src_readDirNames S) fn
                   (fun t => look t p = Ok x)
                   (fun q => prefixb q p = false));
    [ | | exact Hc | exact Hl | exact L | exact H].
  - intros q oi err t r0 t' Hq Hi _ E. eapply fn_frame; eauto.
  - intros q i0 t t' name Hq _ _ _ _. now apply prefixb_child_false.
Qed.

Lemma walkNames_frame fuel q names :
  forall st r st' p x,
    (forall name, In name names -> prefixb (q ++ [name]) p = false) ->
    look st p = Ok x ->
    walkNames (src_lstat S) fn
              (walk (src_lstat S) (src_readDirNames S) fn fuel) q names st
    = (r, st') ->
    look st' p = Ok x.
Proof.
  induction names as [|name rest IH]; intros st r st' p x Hn Hl H; simpl in H.
  - now injection H as _ <-.
  - assert (Hc : prefixb (q ++ [name]) p = false) by (apply Hn; now left).
    assert (Hrest : forall n0, In n0 rest -> prefixb (q ++ [n0]) p = false)
      by (intros n0 Hin; apply Hn; now right).
    destruct (src_lstat S (q ++ [name]) st) as [fi|e] eqn:L; unfold bind in H.
    + destruct (walk _ _ fn fuel (q ++ [name]) fi st) as [r1 st1] eqn:W.
      pose proof (walk_frame _ _ _ _ _ _ _ _ L Hc Hl W) as Hl1.
      destruct r1 as [[e'|]| |]; try (now injection H as _ <-).
      * destruct (negb (IsDir fi) || negb (isSkipDir e'));
          [now injection H as _ <- | eauto].
      * eauto.
    + rewrite fn_err in H. simpl in H. now injection H as _ <-.
Qed.

Lemma walkNames_noskip (rec : path -> FileInfo -> M tree (option error)) q :
  (forall c i st e st', rec c i st = (Ret (Some e), st') -> isSkipDir e = false) ->
  forall names st e st',
    walkNames (src_lstat S) fn rec q names st = (Ret (Some e), st') ->
    isSkipDir e = false.
Proof.
  intros Hrec names.
  induction names as [|name rest IH]; intros st e st' H; simpl in H.
  - discriminate.
  - destruct (src_lstat S (q ++ [name]) st) as [fi|e0] eqn:L; unfold bind in H.
    + destruct (rec (q ++ [name]) fi st) as [[[e'|]| |] st1] eqn:R;
        try discriminate; [|eauto].
      rewrite (Hrec _ _ _ _ _ R), orb_true_r in H.
      injection H as <- _. eapply Hrec; eauto.
    + rewrite fn_err in H. simpl in H. now injection H as <- _.
Qed.

Lemma walk_noskip fuel :
  forall q i st e st',
    walk (src_lstat S) (src_readDirNames S) fn fuel q i st = (Ret (Some e), st') ->
    isSkipDir e = false.
Proof.
  induction fuel as [|fuel IH]; intros q i st e st' H; simpl in H;
    [discriminate|].
  destruct (IsDir i); simpl in H.
  - unfold bind in H.
    destruct (src_readDirNames S q st) as [names|e0].
    + destruct (fn q (Some i) None st) as [[[e1|]| |] st1] eqn:F;
        simpl in H; try discriminate.
      * injection H as <- _. eapply fn_noskip; eauto.
      * eapply walkNames_noskip; eauto.
    + rewrite fn_err in H. simpl in H. now injection H as <- _.
  - eapply fn_noskip; eauto.
Qed.

Lemma mirrors_look n t t' p :
  (forall x, look t p = Ok x -> look t' p = Ok x) ->
  mirrors good n t p -> mirrors good n t' p.
Proof.
  intros F. destruct n as [sm d | sm e]; simpl.
  - intros (m & L & G). exists m. split; [now apply F | exact G].
  - intros (m & L). exists m. now apply F.
Qed.

Lemma walkNames_mirrors fuel q :
  (forall c nc st st',
      src_stat S c = Ok nc ->
      walk (src_lstat S) (src_readDirNames S) fn fuel c (info_of nc) st
      = (Ret None, st') ->
      forall r n, resolve nc r = Ok n -> mirrors good n st' (c ++ r)) ->
  forall names st st',
    NoDup names ->
    walkNames (src_lstat S) fn
              (walk (src_lstat S) (src_readDirNames S) fn fuel) q names st
    = (Ret None, st') ->
    forall name, In name names ->
      exists nc, src_stat S (q ++ [name]) = Ok nc /\
                 forall r n, resolve nc r = Ok n ->
                             mirrors good n st' (q ++ name :: r).
Proof.
  intros Hwalk names.
  induction names as [|name0 rest IH]; intros st st' Hnd H name Hin;
    [now elim Hin|].
  simpl in H. inversion Hnd as [|? ? Hnot Hnd']; subst.
  destruct (src_lstat S (q ++ [name0]) st) as [fi|e0] eqn:L; unfold bind in H.
  2: { rewrite fn_err in H. simpl in H. discriminate. }
  unfold src_lstat in L.
  destruct (src_stat S (q ++ [name0])) as [n0|e0] eqn:Sn; [|discriminate].
  injection L as <-.
  destruct (walk _ _ fn fuel (q ++ [name0]) (info_of n0) st) as [r1 st1] eqn:W.
  assert (r1 = Ret None) as ->.
  { destruct r1 as [[e'|]| |]; try discriminate; [|reflexivity].
    rewrite (walk_noskip _ _ _ _ _ _ W), orb_true_r in H. discriminate. }
  destruct Hin as [<- | Hin].
  - exists n0. split; [exact Sn|]. intros r n Hr.
    pose proof (Hwalk _ _ _ _ Sn W r n Hr) as Mi.
    rewrite <- app_assoc in Mi. simpl in Mi.
    eapply mirrors_look; [|exact Mi].
    intros x Hx. eapply walkNames_frame; [| exact Hx | exact H].
    intros n1 Hn1. apply prefixb_sibling. intros ->. now apply Hnot.
  - eapply IH; eauto.
Qed.

Lemma walk_mirrors fuel :
  forall q nq st st',
    src_stat S q = Ok nq ->
    walk (src_lstat S) (src_readDirNames S) fn fuel q (info_of nq) st
    = (Ret None, st') ->
    forall r n, resolve nq r = Ok n -> mirrors good n st' (q ++ r).
Proof.
  induction fuel as [|fuel IH]; intros q nq st st' Sq H r n Hr; simpl in H;
    [discriminate|].
  destruct nq as [sm d | sm ents]; simpl in H.
  - destruct r; [|discriminate]. injection Hr as <-.
    rewrite app_nil_r. eapply fn_file; eauto.
  - unfold bind, src_readDirNames in H. rewrite Sq in H. simpl in H.
    destruct (fn q (Some (mkInfo true sm)) None st) as [[[e1|]| |] st1] eqn:F;
      simpl in H; try discriminate.
    pose proof (fn_dir _ _ _ _ _ Sq F) as [m Lq].
    destruct r as [|c r].
    + injection Hr as <-. rewrite app_nil_r. exists m.
      eapply walkNames_frame; [| exact Lq | exact H].
      intros name _. apply prefixb_snoc_self.
    + simpl in Hr. destruct (find c ents) as [nc|] eqn:Fc; [|discriminate].
      assert (Hin : In c (sort_strings (names_of ents))).
      { apply sort_strings_In, names_of_In. congruence. }
      destruct (walkNames_mirrors fuel q IH _ _ _
                  (sort_strings_NoDup _ (names_of_NoDup ents)) H c Hin)
        as (nc' & Sc & Mi).
      apply src_stat_tree in Sc. apply src_stat_tree in Sq.
      rewrite (stat_app_ok _ _ [c] _ Sq) in Sc. simpl in Sc.
      rewrite Fc in Sc. injection Sc as <-.
      now apply Mi.
Qed.

Lemma Walk_mirrors fuel st st' :
  Walk (src_lstat S) (src_readDirNames S) fn fuel st = (Ret None, st') ->
  forall p n, stat (src_tree S) p = Ok n -> mirrors good n st' p.
Proof.
  intros H p n Hp. unfold Walk, bind in H.
  destruct (src_lstat S [] st) as [i|e] eqn:L.
  - unfold src_lstat in L.
    destruct (src_stat S []) as [n0|e0] eqn:S0; [|discriminate].
    injection L as <-.
    destruct (walk _ _ fn fuel [] (info_of n0) st) as [r1 st1] eqn:W.
    assert (r1 = Ret None /\ st1 = st') as [-> ->].
    { destruct r1 as [[e'|]| |]; try discriminate.
      - pose proof (walk_noskip _ _ _ _ _ _ W) as N.
        destruct e'; simpl in N; try discriminate N; discriminate H.
      - injection H as <-. auto. }
    pose proof (src_stat_tree _ _ _ S0) as T0.
    pose proof (stat_app_ok _ [] p _ T0) as A. simpl in A.
    rewrite A in Hp.
    exact (walk_mirrors _ _ _ _ _ S0 W p n Hp).
  - rewrite fn_err in H. simpl in H. discriminate.
Qed.
End Mirror.

(** The system calls of the copy pass and what they leave. *)
Lemma sys_descend_look f q t r t' p x :
  prefixb q p = false -> look t p = Ok x ->
  sys (descend f q) t = (r, t') -> look t' p = Ok x.
Proof.
  intros Hq Hl H. apply sys_cases in H as [[-> _] | [H _]]; [exact Hl|].
  now rewrite (descend_look _ _ _ _ _ H Hq).
Qed.

Lemma io_Copy_look q srcFile t r t' p x :
  prefixb q p = false -> look t p = Ok x ->
  io_Copy q srcFile t = (r, t') -> look t' p = Ok x.
Proof.
  intros Hq Hl H. destruct srcFile; simpl in H.
  - eapply sys_descend_look; eauto.
  - now injection H as _ <-.
Qed.

Lemma MkdirAll_look env q perm t r t' p x :
  look t p = Ok x -> MkdirAll env q perm t = (r, t') -> look t' p = Ok x.
Proof.
  intros Hl H. apply sys_cases in H as [[-> _] | [H _]]; [exact Hl|].
  eapply mkdirAll_look; eauto.
Qed.

Lemma MkdirAll_is_dir env q perm t t' :
  MkdirAll env q perm t = (Ret None, t') -> exists m, look t' q = Ok (Dir m []).
Proof. intros H. apply sys_ok in H. eapply mkdirAll_is_dir; eauto. Qed.

Lemma entry_look t p n : entry t p = Some n -> look t p = Ok (shallow n).
Proof. intros H. apply entry_stat in H. unfold look. now rewrite H. Qed.

Section CopyCallbacks.
Variable env : Env.
Variable S : source.

Lemma CopyIgnore_copyFile_look q flag t r t' p x :
  prefixb q p = false -> look t p = Ok x ->
  CopyIgnore.copyFile env S q q flag t = (r, t') -> look t' p = Ok x.
Proof.
  intros Hq Hl H. unfold CopyIgnore.copyFile in H.
  destruct (src_stat S q) as [srcFile|e]; [|now injection H as _ <-].
  apply orWrap_cases in H as [(r1 & H & _) | (t1 & H1 & H)].
  { eapply sys_descend_look; eauto. }
  assert (L1 : look t1 p = Ok x) by (eapply sys_descend_look; eauto).
  apply orWrap_cases in H as [(r1 & H & _) | (t2 & H2 & H)].
  { eapply io_Copy_look; eauto. }
  assert (L2 : look t2 p = Ok x) by (eapply io_Copy_look; eauto).
  destruct flag; simpl in H; [|now injection H as _ <-].
  destruct (stat t2 q) as [nq|e]; [|now injection H as _ <-].
  destruct (negb (Z.land (Perm (Mode (info_of nq))) 64 =? 0));
    [now injection H as _ <-|].
  apply orWrap_cases in H as [(r1 & H & _) | (t3 & H3 & H)].
  - eapply sys_descend_look; eauto.
  - injection H as _ <-. eapply sys_descend_look; eauto.
Qed.

Lemma CopyFlag_copyFile_look q flag t r t' p x :
  prefixb q p = false -> look t p = Ok x ->
  CopyFlag.copyFile env S q q flag t = (r, t') -> look t' p = Ok x.
Proof.
  intros Hq Hl H. unfold CopyFlag.copyFile in H.
  destruct (src_stat S q) as [srcFile|e]; [|now injection H as _ <-].
  apply orWrap_cases in H as [(r1 & H & _) | (t1 & H1 & H)].
  { eapply sys_descend_look; eauto. }
  assert (L1 : look t1 p = Ok x) by (eapply sys_descend_look; eauto).
  apply orWrap_cases in H as [(r1 & H & _) | (t2 & H2 & H)].
  { eapply io_Copy_look; eauto. }
  assert (L2 : look t2 p = Ok x) by (eapply io_Copy_look; eauto).
  destruct flag; simpl in H; [|now injection H as _ <-].
  destruct (stat t2 q) as [nq|e]; [|now injection H as _ <-].
  apply orWrap_cases in H as [(r1 & H & _) | (t3 & H3 & H)].
  - eapply sys_descend_look; eauto.
  - injection H as _ <-. eapply sys_descend_look; eauto.
Qed.

Lemma orReturn_cases {St} (m k : M St (option error)) st r st' :
  orReturn m k st = (r, st') ->
  (exists r1, m st = (r1, st'))
  \/ (exists st1, m st = (Ret None, st1) /\ k st1 = (r, st')).
Proof.
  unfold orReturn, bind.
  destruct (m st) as [[[e|]| |] st1] eqn:E; intros H.
  - injection H as _ <-. left. eexists; reflexivity.
  - right. now exists st1.
  - injection H as _ <-. left. eexists; reflexivity.
  - injection H as _ <-. left. eexists; reflexivity.
Qed.

Lemma CopyMode_copyFile_look q mode t r t' p x :
  prefixb q p = false -> look t p = Ok x ->
  CopyMode.copyFile env S q q mode t = (r, t') -> look t' p = Ok x.
Proof.
  intros Hq Hl H. unfold CopyMode.copyFile in H.
  destruct (src_stat S q) as [srcFile|e]; [|now injection H as _ <-].
  apply orReturn_cases in H as [(r1 & H) | (t1 & H1 & H)].
  { eapply sys_descend_look; eauto. }
  assert (L1 : look t1 p = Ok x) by (eapply sys_descend_look; eauto).
  apply orReturn_cases in H as [(r1 & H) | (t2 & H2 & H)].
  { eapply io_Copy_look; eauto. }
  assert (L2 : look t2 p = Ok x) by (eapply io_Copy_look; eauto).
  destruct (negb (mode =? 0)); [|now injection H as _ <-].
  eapply sys_descend_look; eauto.
Qed.

(** The three callbacks of the copy pass change nothing that the path
    visited is not a prefix of. *)
Lemma CopyIgnore_copyFn_look q oi err t r t' p x :
  prefixb q p = false -> look t p = Ok x ->
  CopyIgnore.copyFn env S q oi err t = (r, t') -> look t' p = Ok x.
Proof.
  intros Hq Hl H. unfold CopyIgnore.copyFn in H.
  destruct err as [e|]; [now injection H as _ <-|].
  destruct oi as [i|]; [|now injection H as _ <-].
  unfold bind, lift in H. simpl in H.
  destruct (IsDir i).
  - apply orWrap_cases in H as [(r1 & H & _) | (t1 & H1 & H)].
    + eapply MkdirAll_look; eauto.
    + injection H as _ <-. eapply MkdirAll_look; eauto.
  - apply orWrap_cases in H as [(r1 & H & _) | (t1 & H1 & H)].
    + eapply CopyIgnore_copyFile_look; eauto.
    + injection H as _ <-. eapply CopyIgnore_copyFile_look; eauto.
Qed.

Lemma CopyFlag_copyFn_look q oi err t r t' p x :
  prefixb q p = false -> look t p = Ok x ->
  CopyFlag.copyFn env S q oi err t = (r, t') -> look t' p = Ok x.
Proof.
  intros Hq Hl H. unfold CopyFlag.copyFn in H.
  destruct err as [e|]; [now injection H as _ <-|].
  destruct oi as [i|]; [|now injection H as _ <-].
  unfold bind, lift in H. simpl in H.
  destruct (IsDir i).
  - apply orWrap_cases in H as [(r1 & H & _) | (t1 & H1 & H)].
    + eapply MkdirAll_look; eauto.
    + injection H as _ <-. eapply MkdirAll_look; eauto.
  - apply orWrap_cases in H as [(r1 & H & _) | (t1 & H1 & H)].
    + eapply CopyFlag_copyFile_look; eauto.
    + injection H as _ <-. eapply CopyFlag_copyFile_look; eauto.
Qed.

Lemma CopyMode_copyFn_look q oi err t r t' p x :
  prefixb q p = false -> look t p = Ok x ->
  CopyMode.copyFn env S q oi err t = (r, t') -> look t' p = Ok x.
Proof.
  intros Hq Hl H. unfold CopyMode.copyFn in H.
  destruct err as [e|]; [now injection H as _ <-|].
  destruct oi as [i|]; [|now injection H as _ <-].
  unfold bind, lift in H. simpl in H.
  destruct (IsDir i).
  - apply orWrap_cases in H as [(r1 & H & _) | (t1 & H1 & H)].
    + eapply MkdirAll_look; eauto.
    + injection H as _ <-. eapply MkdirAll_look; eauto.
  - apply orWrap_cases in H as [(r1 & H & _) | (t1 & H1 & H)].
    + eapply CopyMode_copyFile_look; eauto.
    + injection H as _ <-. eapply CopyMode_copyFile_look; eauto.
Qed.

Lemma orWrap_noskip {St} msg (m k : M St (option error)) st e st' :
  orWrap msg m k st = (Ret (Some e), st') ->
  (forall st1, k st1 <> (Ret (Some e), st')) ->
  isSkipDir e = false.
Proof.
  unfold orWrap, bind.
  destruct (m st) as [[[e1|]| |] st1]; intros H K; try discriminate.
  - now injection H as <- _.
  - now elim (K st1).
Qed.
End CopyCallbacks.

Section MirrorTheorems.
Variable env : Env.
Variable S : source.

Lemma copy_callbacks_on_error q oi e t :
  CopyIgnore.copyFn env S q oi (Some e) t = (Ret (Some e), t)
  /\ CopyFlag.copyFn env S q oi (Some e) t = (Ret (Some e), t)
  /\ CopyMode.copyFn env S q oi (Some e) t = (Ret (Some e), t).
Proof. repeat split. Qed.

Lemma ret_None_not_Some {St} (e : error) (st1 st' : St) :
  ret (St := St) (@None error) st1 <> (Ret (Some e), st').
Proof. discriminate. Qed.

Lemma CopyIgnore_copyFn_noskip q oi t e t' :
  CopyIgnore.copyFn env S q oi None t = (Ret (Some e), t') -> isSkipDir e = false.
Proof.
  unfold CopyIgnore.copyFn. destruct oi as [i|]; [|discriminate].
  unfold bind, lift. simpl. destruct (IsDir i); intros H;
    eapply orWrap_noskip; eauto using ret_None_not_Some.
Qed.

Lemma CopyFlag_copyFn_noskip q oi t e t' :
  CopyFlag.copyFn env S q oi None t = (Ret (Some e), t') -> isSkipDir e = false.
Proof.
  unfold CopyFlag.copyFn. destruct oi as [i|]; [|discriminate].
  unfold bind, lift. simpl. destruct (IsDir i); intros H;
    eapply orWrap_noskip; eauto using ret_None_not_Some.
Qed.

Lemma CopyMode_copyFn_noskip q oi t e t' :
  CopyMode.copyFn env S q oi None t = (Ret (Some e), t') -> isSkipDir e = false.
Proof.
  unfold CopyMode.copyFn. destruct oi as [i|]; [|discriminate].
  unfold bind, lift. simpl. destruct (IsDir i); intros H;
    eapply orWrap_noskip; eauto using ret_None_not_Some.
Qed.

Lemma CopyIgnore_copyFn_dir q sm t t' :
  CopyIgnore.copyFn env S q (Some (mkInfo true sm)) None t = (Ret None, t') ->
  exists m, look t' q = Ok (Dir m []).
Proof.
  unfold CopyIgnore.copyFn, bind, lift. simpl. intros H.
  apply orWrap_ok in H as (t1 & H & K). injection K as <-.
  eapply MkdirAll_is_dir; eauto.
Qed.

Lemma CopyFlag_copyFn_dir q sm t t' :
  CopyFlag.copyFn env S q (Some (mkInfo true sm)) None t = (Ret None, t') ->
  exists m, look t' q = Ok (Dir m []).
Proof.
  unfold CopyFlag.copyFn, bind, lift. simpl. intros H.
  apply orWrap_ok in H as (t1 & H & K). injection K as <-.
  eapply MkdirAll_is_dir; eauto.
Qed.

Lemma CopyMode_copyFn_dir q sm t t' :
  CopyMode.copyFn env S q (Some (mkInfo true sm)) None t = (Ret None, t') ->
  exists m, look t' q = Ok (Dir m []).
Proof.
  unfold CopyMode.copyFn, bind, lift. simpl. intros H.
  apply orWrap_ok in H as (t1 & H & K). injection K as <-.
  eapply MkdirAll_is_dir; eauto.
Qed.

Lemma CopyIgnore_copyFn_file q sm d t t' :
  src_stat S q = Ok (File sm d) ->
  CopyIgnore.copyFn env S q (Some (mkInfo false sm)) None t = (Ret None, t') ->
  mirrors exec_handed_on (File sm d) t' q.
Proof.
  unfold CopyIgnore.copyFn, bind, lift. simpl. intros Sq H.
  apply orWrap_ok in H as (t1 & H & K). injection K as <-.
  apply CopyIgnore_copyFile_ok in H as (sm' & data & Sq' & E).
  rewrite Sq in Sq'. injection Sq' as <- <-.
  eexists. split; [exact (entry_look _ _ _ E)|].
  intros X. apply Z.eqb_neq in X. rewrite X. simpl.
  destruct (Z.land (Perm (mode_before env (entry t q))) 64 =? 0) eqn:B.
  - apply user_exec_set.
  - now apply Z.eqb_neq in B.
Qed.

Lemma CopyFlag_copyFn_file q sm d t t' :
  src_stat S q = Ok (File sm d) ->
  CopyFlag.copyFn env S q (Some (mkInfo false sm)) None t = (Ret None, t') ->
  mirrors exec_set_when_absent (File sm d) t' q.
Proof.
  unfold CopyFlag.copyFn, bind, lift. simpl. intros Sq H.
  apply orWrap_ok in H as (t1 & H & K). injection K as <-.
  apply CopyFlag_copyFile_ok in H as (sm' & data & Sq' & E).
  rewrite Sq in Sq'. injection Sq' as <- <-.
  eexists. split; [exact (entry_look _ _ _ E)|].
  intros X. apply Z.eqb_eq in X. rewrite X. apply user_exec_set.
Qed.

Lemma CopyMode_copyFn_file q sm d t t' :
  src_stat S q = Ok (File sm d) ->
  CopyMode.copyFn env S q (Some (mkInfo false sm)) None t = (Ret None, t') ->
  mirrors perm_handed_on (File sm d) t' q.
Proof.
  unfold CopyMode.copyFn, bind, lift. simpl. intros Sq H.
  apply orWrap_ok in H as (t1 & H & K). injection K as <-.
  apply CopyMode_copyFile_ok in H as (sm' & data & Sq' & E).
  rewrite Sq in Sq'. injection Sq' as <- <-.
  eexists. split; [exact (entry_look _ _ _ E)|].
  intros X. apply Z.eqb_neq in X. now rewrite X.
Qed.

Lemma CopyIgnore_copy_walk_mirrors fuel st st' :
  Walk (src_lstat S) (src_readDirNames S) (CopyIgnore.copyFn env S) fuel st
  = (Ret None, st') ->
  forall p n, stat (src_tree S) p = Ok n -> mirrors exec_handed_on n st' p.
Proof.
  intros H.
  eapply (Walk_mirrors S (CopyIgnore.copyFn env S) exec_handed_on); [ | | | | | exact H].
  - apply CopyIgnore_copyFn_file.
  - intros q sm e t t' _ K. exact (CopyIgnore_copyFn_dir q sm t t' K).
  - intros; eapply CopyIgnore_copyFn_look; eauto.
  - intros; apply copy_callbacks_on_error.
  - apply CopyIgnore_copyFn_noskip.
Qed.

Lemma CopyMode_copy_walk_mirrors fuel st st' :
  Walk (src_lstat S) (src_readDirNames S) (CopyMode.copyFn env S) fuel st
  = (Ret None, st') ->
  forall p n, stat (src_tree S) p = Ok n -> mirrors perm_handed_on n st' p.
Proof.
  intros H.
  eapply (Walk_mirrors S (CopyMode.copyFn env S) perm_handed_on); [ | | | | | exact H].
  - apply CopyMode_copyFn_file.
  - intros q sm e t t' _ K. exact (CopyMode_copyFn_dir q sm t t' K).
  - intros; eapply CopyMode_copyFn_look; eauto.
  - intros; apply copy_callbacks_on_error.
  - apply CopyMode_copyFn_noskip.
Qed.

Lemma CopyFlag_copy_walk_mirrors fuel st st' :
  Walk (src_lstat S) (src_readDirNames S) (CopyFlag.copyFn env S) fuel st
  = (Ret None, st') ->
  forall p n, stat (src_tree S) p = Ok n -> mirrors exec_set_when_absent n st' p.
Proof.
  intros H.
  eapply (Walk_mirrors S (CopyFlag.copyFn env S) exec_set_when_absent); [ | | | | | exact H].
  - apply CopyFlag_copyFn_file.
  - intros q sm e t t' _ K. exact (CopyFlag_copyFn_dir q sm t t' K).
  - intros; eapply CopyFlag_copyFn_look; eauto.
  - intros; apply copy_callbacks_on_error.
  - apply CopyFlag_copyFn_noskip.
Qed.

(** X1: when the gitignore-aware [SyncDirs] returns nil, the destination has a
    directory wherever the source has one, and wherever the source has a
    file it has a file with the same bytes, with the user-execute bit if
    the source file has it. *)
Theorem CopyIgnore_SyncDirs_mirrors lib dst dst' :
  CopyIgnore.SyncDirs env lib S dst = (Ret None, dst') ->
  forall p n, stat (src_tree S) p = Ok n -> mirrors exec_handed_on n dst' p.
Proof.
  unfold CopyIgnore.SyncDirs, bind, gets. intros H.
  destruct (Walk dst_lstat dst_readDirNames _ (theight dst) dst)
    as [[err| |] st1]; try discriminate.
  destruct (negb (isNil err) && negb (IsNotExist err)) eqn:C.
  { destruct err; [discriminate H | discriminate C]. }
  exact (CopyIgnore_copy_walk_mirrors _ _ _ H).
Qed.

(** X2: when the [SyncDirs] of src/unnamed/part_000 returns nil, the
    destination has a directory wherever the source has one, and wherever
    the source has a file it has a file with the same bytes, and with the
    permission bits of the source file unless these are all zero. *)
Theorem CopyMode_SyncDirs_mirrors dst dst' :
  CopyMode.SyncDirs env S dst = (Ret None, dst') ->
  forall p n, stat (src_tree S) p = Ok n -> mirrors perm_handed_on n dst' p.
Proof.
  unfold CopyMode.SyncDirs, bind, gets. intros H.
  destruct (Walk dst_lstat dst_readDirNames _ (theight dst) dst)
    as [[err| |] st1]; try discriminate.
  destruct (negb (isNil err) && negb (IsNotExist err)) eqn:C.
  { destruct err; [discriminate H | discriminate C]. }
  exact (CopyMode_copy_walk_mirrors _ _ _ H).
Qed.

(** X3: when the [SyncDirs] of the first version of src/copy.go returns
    nil, the destination has a directory wherever the source has one, and
    wherever the source has a file it has a file with the same bytes; a
    file whose source does not have the user-execute bit arrives with that
    bit set. *)
Theorem CopyFlag_SyncDirs_mirrors dst dst' :
  CopyFlag.SyncDirs env S dst = (Ret None, dst') ->
  forall p n, stat (src_tree S) p = Ok n -> mirrors exec_set_when_absent n dst' p.
Proof.
  unfold CopyFlag.SyncDirs, bind, gets. intros H.
  destruct (Walk dst_lstat dst_readDirNames _ (theight dst) dst)
    as [[err| |] st1]; try discriminate.
  destruct (negb (isNil err) && negb (IsNotExist err)) eqn:C.
  { destruct err; [discriminate H | discriminate C]. }
  exact (CopyFlag_copy_walk_mirrors _ _ _ H).
Qed.
End MirrorTheorems.

Lemma CopyIgnore_SyncDirs_mirrors_witness :
  mirrors exec_handed_on (File 493 "go")
          (snd (CopyIgnore.SyncDirs env022 plainLib src_script dst_conf))
          ["run.sh"].
Proof.
  apply (CopyIgnore_SyncDirs_mirrors env022 src_script plainLib dst_conf).
  - reflexivity.
  - reflexivity.
Defined.

Lemma CopyMode_SyncDirs_mirrors_witness :
  mirrors perm_handed_on (File 420 "v2")
          (snd (CopyMode.SyncDirs env022 src_conf dst_conf)) ["app.conf"].
Proof.
  apply (CopyMode_SyncDirs_mirrors env022 src_conf dst_conf).
  - reflexivity.
  - reflexivity.
Defined.

Lemma CopyFlag_SyncDirs_mirrors_witness :
  mirrors exec_set_when_absent (File 420 "v2")
          (snd (CopyFlag.SyncDirs env022 src_conf dst_conf)) ["app.conf"].
Proof.
  apply (CopyFlag_SyncDirs_mirrors env022 src_conf dst_conf).
  - reflexivity.
  - reflexivity.
Defined.

(** * A source directory that is not there *)

Section RootRemoved.
Variable fn : @WalkFunc tree.
Hypothesis fn_err : forall q oi e t, fn q oi (Some e) t = (Ret (Some e), t).
Hypothesis fn_root : forall i t, fn [] (Some i) None t = (Ret None, None).

Lemma walkNames_gone rec q names :
  exists r, walkNames dst_lstat fn rec q names None = (Ret r, None)
            /\ (negb (isNil r) && negb (IsNotExist r) = false).
Proof.
  destruct names as [|name rest]; simpl.
  - now exists None.
  - unfold bind. rewrite fn_err. simpl. now exists (Some (PathError ENOENT)).
Qed.

Lemma Walk_root_removed fuel dst :
  exists r, Walk dst_lstat dst_readDirNames fn (Datatypes.S fuel) dst = (Ret r, None)
            /\ (negb (isNil r) && negb (IsNotExist r) = false).
Proof.
  unfold Walk, bind.
  destruct dst as [[m d|m ents]|]; simpl.
  - rewrite fn_root. now exists None.
  - unfold bind. rewrite fn_root. simpl.
    destruct (walkNames_gone (walk dst_lstat dst_readDirNames fn fuel) []
                (sort_strings (names_of ents))) as (r & -> & Hr).
    destruct r as [[[]| | |]|]; try discriminate Hr; eexists; split;
      reflexivity.
  - rewrite fn_err. now exists (Some (PathError ENOENT)).
Qed.
End RootRemoved.

Lemma theight_S t : exists n, theight t = Datatypes.S n.
Proof.
  destruct t as [[m d|m ents]|]; simpl; eauto.
Qed.

Lemma pruneEntry_source_missing env S i t :
  dotRoot env = false -> source_missing S ->
  pruneEntry env S [] (Some i) t = (Ret None, None).
Proof.
  intros D M. unfold pruneEntry. rewrite M. simpl.
  unfold bind, lift, orWrap, bind, RemoveAll. simpl. now rewrite D.
Qed.



Section RootRefused.
Variable fn : @WalkFunc tree.
Variable e0 : error.
Hypothesis e0_noskip : isSkipDir e0 = false.
Hypothesis fn_root : forall i t, fn [] (Some i) None t = (Ret (Some e0), t).

Lemma Walk_root_refused fuel n :
  Walk dst_lstat dst_readDirNames fn (Datatypes.S fuel) (Some n)
  = (Ret (Some e0), Some n).
Proof.
  unfold Walk, bind.
  assert (W : walk dst_lstat dst_readDirNames fn (Datatypes.S fuel) []
                   (info_of n) (Some n) = (Ret (Some e0), Some n)).
  { destruct n as [m d|m ents]; simpl.
    - apply fn_root.
    - unfold bind. now rewrite fn_root. }
  change (dst_lstat [] (Some n)) with (Ok (info_of n)).
  cbv beta match. rewrite W. destruct e0; try reflexivity. discriminate e0_noskip.
Qed.
End RootRefused.

Lemma pruneEntry_dot_root env S i t :
  dotRoot env = true -> source_missing S ->
  pruneEntry env S [] (Some i) t
  = (Ret (Some (Errorf "failed to remove dst file or dir" (PathError EINVAL))), t).
Proof.
  intros D M. unfold pruneEntry. rewrite M. simpl.
  unfold bind, lift, orWrap, bind, RemoveAll. simpl. now rewrite D.
Qed.

(** X5: when the destination is named by a path ending in a dot element
    (the default local folder is "."), [os.RemoveAll] refuses the root, so
    with a source directory that does not exist [SyncDirs] returns that
    refusal, wrapped twice, and the destination stays as it was. *)
Theorem missing_source_keeps_dot_destination env lib S n :
  dotRoot env = true -> source_missing S ->
  empty_matcher_matches_nothing lib ->
  let refusal :=
    Errorf "failed to remove non-matching dst dir"
           (Errorf "failed to remove dst file or dir" (PathError EINVAL)) in
  CopyIgnore.SyncDirs env lib S (Some n) = (Ret (Some refusal), Some n)
  /\ CopyFlag.SyncDirs env S (Some n) = (Ret (Some refusal), Some n)
  /\ CopyMode.SyncDirs env S (Some n) = (Ret (Some refusal), Some n).
Proof.
  intros D M E refusal.
  destruct (theight_S (Some n)) as (fuel & F).
  repeat split.
  - unfold CopyIgnore.SyncDirs, bind, gets. rewrite F.
    rewrite Walk_root_refused
      with (e0 := Errorf "failed to remove dst file or dir" (PathError EINVAL)).
    + reflexivity.
    + reflexivity.
    + intros i t. unfold CopyIgnore.pruneFn, CopyIgnore.loadGitignorePatterns.
      rewrite M. unfold bind, lift. simpl. rewrite E.
      now apply pruneEntry_dot_root.
  - unfold CopyFlag.SyncDirs, bind, gets. rewrite F.
    rewrite Walk_root_refused
      with (e0 := Errorf "failed to remove dst file or dir" (PathError EINVAL)).
    + reflexivity.
    + reflexivity.
    + intros i t. now apply pruneEntry_dot_root.
  - unfold CopyMode.SyncDirs, bind, gets. rewrite F.
    rewrite Walk_root_refused
      with (e0 := Errorf "failed to remove dst file or dir" (PathError EINVAL)).
    + reflexivity.
    + reflexivity.
    + intros i t. now apply pruneEntry_dot_root.
Qed.

Lemma missing_source_keeps_dot_destination_witness :
  CopyIgnore.SyncDirs (mkEnv 18 true) plainLib (mkSource None no_fault) dst_old
  = (Ret (Some (Errorf "failed to remove non-matching dst dir"
                       (Errorf "failed to remove dst file or dir"
                               (PathError EINVAL)))),
     dst_old).
Proof.
  apply (missing_source_keeps_dot_destination (mkEnv 18 true) plainLib
           (mkSource None no_fault)
           (Dir 493 [("old", Dir 493 [("keep.txt", File 420 "mine")])])).
  - reflexivity.
  - intros p. reflexivity.
  - intros p d. reflexivity.
Defined.

(** * Outside the paths of the source, [SyncDirs] only deletes *)

Lemma from_before_refl p t : from_before p t t.
Proof. intros x H. exact H. Qed.

Lemma from_before_trans p t1 t2 t3 :
  from_before p t1 t2 -> from_before p t2 t3 -> from_before p t1 t3.
Proof. intros A B x H. apply A, B, H. Qed.

Lemma from_before_stat p t t' :
  (forall n, stat t' p = Ok n -> stat t p = Ok n) -> from_before p t t'.
Proof.
  intros H x. unfold look.
  destruct (stat t' p) as [n|e] eqn:E; [|discriminate].
  now rewrite (H n eq_refl).
Qed.

Lemma descend_back f q t t' p n :
  adds_nothing_below f ->
  descend f q t = Ok t' ->
  prefixb p q = false ->
  stat t' p = Ok n -> stat t p = Ok n.
Proof.
  intros A. revert t t' p; induction q as [|c q IH]; intros t t' p H Hp Hs.
  - destruct p as [|c' p]; [discriminate|]. simpl in H. eapply A; eauto.
  - destruct p as [|c' p]; [discriminate|].
    destruct t as [[m d | m ents]|]; simpl in H; try discriminate.
    destruct (descend f q (find c ents)) as [o|e] eqn:D; [|discriminate].
    injection H as <-.
    rewrite stat_cons in *. simpl in Hp.
    destruct (String.eqb c' c) eqn:E.
    + apply String.eqb_eq in E. subst c'.
      rewrite find_set_ent_same in Hs. simpl in Hp. eauto.
    + now rewrite find_set_ent_other in Hs.
Qed.

Lemma mkdirAll_back env perm q t t' p n :
  mkdirAll env perm q t = Ok t' ->
  prefixb p q = false ->
  stat t' p = Ok n -> stat t p = Ok n.
Proof.
  revert t t' p; induction q as [|c q IH]; intros t t' p H Hp Hs.
  - destruct p as [|c' p]; [discriminate|].
    destruct t as [[m d | m ents]|]; simpl in H; try discriminate;
      injection H as <-; [exact Hs | discriminate Hs].
  - destruct p as [|c' p]; [discriminate|]. simpl in Hp.
    destruct t as [[m d | m ents]|]; simpl in H; try discriminate.
    + destruct (mkdirAll env perm q (find c ents)) as [o|e] eqn:D; [|discriminate].
      injection H as <-. rewrite stat_cons in *.
      destruct (String.eqb c' c) eqn:E.
      * apply String.eqb_eq in E. subst c'.
        rewrite find_set_ent_same in Hs. simpl in Hp. eauto.
      * now rewrite find_set_ent_other in Hs.
    + destruct (mkdirAll env perm q None) as [o|e] eqn:D; [|discriminate].
      injection H as <-. rewrite stat_cons in Hs.
      destruct (String.eqb c' c) eqn:E.
      * apply String.eqb_eq in E. subst c'.
        pose proof (find_set_ent_same c o []) as F. simpl in F.
        simpl in Hs. rewrite F in Hs. simpl in Hp.
        now apply (IH _ _ _ D Hp) in Hs.
      * pose proof (find_set_ent_other c c' o [] E) as F. simpl in F.
        simpl in Hs. now rewrite F in Hs.
Qed.

(** Removal adds nothing anywhere, and changes no kind, mode or bytes. *)
Lemma remove_back q t t' p :
  descend (fun _ => Ok None) q t = Ok t' -> from_before p t t'.
Proof.
  revert t t' p; induction q as [|c q IH]; intros t t' p H x Hl.
  - simpl in H. injection H as <-. discriminate Hl.
  - destruct t as [[m d | m ents]|]; simpl in H; try discriminate.
    destruct (descend (fun _ => Ok None) q (find c ents)) as [o|e] eqn:D;
      [|discriminate].
    injection H as <-.
    destruct p as [|c' p]; [exact Hl|].
    rewrite look_cons in *.
    destruct (String.eqb c' c) eqn:E.
    + apply String.eqb_eq in E. subst c'.
      rewrite find_set_ent_same in Hl. exact (IH _ _ _ D x Hl).
    + now rewrite find_set_ent_other in Hl.
Qed.

Lemma adds_nothing_below_Create env :
  adds_nothing_below (fun o =>
                        match o with
                        | None => Ok (Some (File (Z.ldiff 438 (umask env)) ""))
                        | Some (File m _) => Ok (Some (File m ""))
                        | Some (Dir _ _) => Err EISDIR
                        end).
Proof.
  intros [[m d|m e]|] o' c r n H; try discriminate;
    injection H as <-; discriminate.
Qed.

Lemma adds_nothing_below_write data :
  adds_nothing_below (fun o =>
                        match o with
                        | Some (File m _) => Ok (Some (File m data))
                        | Some (Dir _ _) => Err EISDIR
                        | None => Err ENOENT
                        end).
Proof.
  intros [[m d|m e]|] o' c r n H; try discriminate;
    injection H as <-; discriminate.
Qed.

Lemma adds_nothing_below_chmod m0 :
  adds_nothing_below (fun o =>
                        match o with
                        | Some (File _ d) => Ok (Some (File m0 d))
                        | Some (Dir _ e) => Ok (Some (Dir m0 e))
                        | None => Err ENOENT
                        end).
Proof.
  intros [[m d|m e]|] o' c r n H; try discriminate;
    injection H as <-; [discriminate | now rewrite !stat_cons].
Qed.

Lemma sys_descend_back f q t r t' p :
  adds_nothing_below f -> prefixb p q = false ->
  sys (descend f q) t = (r, t') -> from_before p t t'.
Proof.
  intros A Hp H. apply sys_cases in H as [[-> _] | [H _]].
  - apply from_before_refl.
  - apply from_before_stat. intros n. eapply descend_back; eauto.
Qed.

Section OnlyDeletes.
Variable env : Env.
Variable S : source.
Variable p : path.

Lemma os_Create_back q t r t' :
  prefixb p q = false -> os_Create env q t = (r, t') -> from_before p t t'.
Proof. intros; eapply sys_descend_back; eauto using adds_nothing_below_Create. Qed.

Lemma io_Copy_back q srcFile t r t' :
  prefixb p q = false -> io_Copy q srcFile t = (r, t') -> from_before p t t'.
Proof.
  intros Hp H. destruct srcFile; simpl in H.
  - eapply sys_descend_back; eauto using adds_nothing_below_write.
  - injection H as _ <-. apply from_before_refl.
Qed.

Lemma Chmod_back q m t r t' :
  prefixb p q = false -> Chmod q m t = (r, t') -> from_before p t t'.
Proof. intros; eapply sys_descend_back; eauto using adds_nothing_below_chmod. Qed.

Lemma MkdirAll_back q perm t r t' :
  prefixb p q = false -> MkdirAll env q perm t = (r, t') -> from_before p t t'.
Proof.
  intros Hp H. apply sys_cases in H as [[-> _] | [H _]].
  - apply from_before_refl.
  - apply from_before_stat. intros n. eapply mkdirAll_back; eauto.
Qed.

Lemma RemoveAll_back q t r t' :
  RemoveAll env q t = (r, t') -> from_before p t t'.
Proof.
  intros H. apply RemoveAll_cases in H as [-> | H].
  - apply from_before_refl.
  - eapply remove_back; eauto.
Qed.

Lemma pruneEntry_back q oi t r t' :
  pruneEntry env S q oi t = (r, t') -> from_before p t t'.
Proof.
  unfold pruneEntry. destruct (os_Stat (src_stat S q)) as [si se].
  unfold bind, lift.
  destruct (mismatch si se oi) as [[|]| |]; intros H;
    try (injection H as _ <-; apply from_before_refl).
  apply orWrap_cases in H as [(r1 & H & _) | (t1 & H & K)].
  - eapply RemoveAll_back; eauto.
  - injection K as _ <-. eapply RemoveAll_back; eauto.
Qed.

Lemma CopyIgnore_pruneFn_back lib matcher q oi err t r t' :
  CopyIgnore.pruneFn env lib S matcher q oi err t = (r, t') -> from_before p t t'.
Proof.
  unfold CopyIgnore.pruneFn. destruct err as [e|].
  { intros H; injection H as _ <-. apply from_before_refl. }
  unfold bind, lift. destruct (info_IsDir oi) as [d| |];
    try (intros H; injection H as _ <-; apply from_before_refl).
  destruct (Match lib matcher (CopyIgnore.gitignorePath q) d).
  - destruct d; intros H; injection H as _ <-; apply from_before_refl.
  - apply pruneEntry_back.
Qed.

Lemma CopyFlag_pruneFn_back q oi err t r t' :
  CopyFlag.pruneFn env S q oi err t = (r, t') -> from_before p t t'.
Proof.
  unfold CopyFlag.pruneFn. destruct err as [e|].
  - intros H; injection H as _ <-. apply from_before_refl.
  - apply pruneEntry_back.
Qed.

Lemma CopyMode_pruneFn_back q oi err t r t' :
  CopyMode.pruneFn env S q oi err t = (r, t') -> from_before p t t'.
Proof.
  unfold CopyMode.pruneFn. destruct err as [e|].
  - intros H; injection H as _ <-. apply from_before_refl.
  - apply pruneEntry_back.
Qed.

Lemma CopyIgnore_copyFile_back q flag t r t' :
  prefixb p q = false ->
  CopyIgnore.copyFile env S q q flag t = (r, t') -> from_before p t t'.
Proof.
  intros Hp H. unfold CopyIgnore.copyFile in H.
  destruct (src_stat S q) as [srcFile|e];
    [|injection H as _ <-; apply from_before_refl].
  apply orWrap_cases in H as [(r1 & H & _) | (t1 & H1 & H)].
  { eapply os_Create_back; eauto. }
  eapply from_before_trans; [eapply os_Create_back; eauto|].
  apply orWrap_cases in H as [(r1 & H & _) | (t2 & H2 & H)].
  { eapply io_Copy_back; eauto. }
  eapply from_before_trans; [eapply io_Copy_back; eauto|].
  destruct flag; simpl in H; [|injection H as _ <-; apply from_before_refl].
  destruct (stat t2 q) as [nq|e]; [|injection H as _ <-; apply from_before_refl].
  destruct (negb (Z.land (Perm (Mode (info_of nq))) 64 =? 0));
    [injection H as _ <-; apply from_before_refl|].
  apply orWrap_cases in H as [(r1 & H & _) | (t3 & H3 & H)].
  - eapply Chmod_back; eauto.
  - injection H as _ <-. eapply Chmod_back; eauto.
Qed.

Lemma CopyFlag_copyFile_back q flag t r t' :
  prefixb p q = false ->
  CopyFlag.copyFile env S q q flag t = (r, t') -> from_before p t t'.
Proof.
  intros Hp H. unfold CopyFlag.copyFile in H.
  destruct (src_stat S q) as [srcFile|e];
    [|injection H as _ <-; apply from_before_refl].
  apply orWrap_cases in H as [(r1 & H & _) | (t1 & H1 & H)].
  { eapply os_Create_back; eauto. }
  eapply from_before_trans; [eapply os_Create_back; eauto|].
  apply orWrap_cases in H as [(r1 & H & _) | (t2 & H2 & H)].
  { eapply io_Copy_back; eauto. }
  eapply from_before_trans; [eapply io_Copy_back; eauto|].
  destruct flag; simpl in H; [|injection H as _ <-; apply from_before_refl].
  destruct (stat t2 q) as [nq|e]; [|injection H as _ <-; apply from_before_refl].
  apply orWrap_cases in H as [(r1 & H & _) | (t3 & H3 & H)].
  - eapply Chmod_back; eauto.
  - injection H as _ <-. eapply Chmod_back; eauto.
Qed.

Lemma CopyMode_copyFile_back q mode t r t' :
  prefixb p q = false ->
  CopyMode.copyFile env S q q mode t = (r, t') -> from_before p t t'.
Proof.
  intros Hp H. unfold CopyMode.copyFile in H.
  destruct (src_stat S q) as [srcFile|e];
    [|injection H as _ <-; apply from_before_refl].
  apply orReturn_cases in H as [(r1 & H) | (t1 & H1 & H)].
  { eapply os_Create_back; eauto. }
  eapply from_before_trans; [eapply os_Create_back; eauto|].
  apply orReturn_cases in H as [(r1 & H) | (t2 & H2 & H)].
  { eapply io_Copy_back; eauto. }
  eapply from_before_trans; [eapply io_Copy_back; eauto|].
  destruct (negb (mode =? 0)); [|injection H as _ <-; apply from_before_refl].
  eapply Chmod_back; eauto.
Qed.

Lemma CopyIgnore_copyFn_back q oi err t r t' :
  prefixb p q = false ->
  CopyIgnore.copyFn env S q oi err t = (r, t') -> from_before p t t'.
Proof.
  intros Hp H. unfold CopyIgnore.copyFn in H.
  destruct err as [e|]; [injection H as _ <-; apply from_before_refl|].
  destruct oi as [i|]; [|injection H as _ <-; apply from_before_refl].
  unfold bind, lift in H. simpl in H.
  destruct (IsDir i).
  - apply orWrap_cases in H as [(r1 & H & _) | (t1 & H1 & H)].
    + eapply MkdirAll_back; eauto.
    + injection H as _ <-. eapply MkdirAll_back; eauto.
  - apply orWrap_cases in H as [(r1 & H & _) | (t1 & H1 & H)].
    + eapply CopyIgnore_copyFile_back; eauto.
    + injection H as _ <-. eapply CopyIgnore_copyFile_back; eauto.
Qed.

Lemma CopyFlag_copyFn_back q oi err t r t' :
  prefixb p q = false ->
  CopyFlag.copyFn env S q oi err t = (r, t') -> from_before p t t'.
Proof.
  intros Hp H. unfold CopyFlag.copyFn in H.
  destruct err as [e|]; [injection H as _ <-; apply from_before_refl|].
  destruct oi as [i|]; [|injection H as _ <-; apply from_before_refl].
  unfold bind, lift in H. simpl in H.
  destruct (IsDir i).
  - apply orWrap_cases in H as [(r1 & H & _) | (t1 & H1 & H)].
    + eapply MkdirAll_back; eauto.
    + injection H as _ <-. eapply MkdirAll_back; eauto.
  - apply orWrap_cases in H as [(r1 & H & _) | (t1 & H1 & H)].
    + eapply CopyFlag_copyFile_back; eauto.
    + injection H as _ <-. eapply CopyFlag_copyFile_back; eauto.
Qed.

Lemma CopyMode_copyFn_back q oi err t r t' :
  prefixb p q = false ->
  CopyMode.copyFn env S q oi err t = (r, t') -> from_before p t t'.
Proof.
  intros Hp H. unfold CopyMode.copyFn in H.
  destruct err as [e|]; [injection H as _ <-; apply from_before_refl|].
  destruct oi as [i|]; [|injection H as _ <-; apply from_before_refl].
  unfold bind, lift in H. simpl in H.
  destruct (IsDir i).
  - apply orWrap_cases in H as [(r1 & H & _) | (t1 & H1 & H)].
    + eapply MkdirAll_back; eauto.
    + injection H as _ <-. eapply MkdirAll_back; eauto.
  - apply orWrap_cases in H as [(r1 & H & _) | (t1 & H1 & H)].
    + eapply CopyMode_copyFile_back; eauto.
    + injection H as _ <-. eapply CopyMode_copyFile_back; eauto.
Qed.
End OnlyDeletes.

Lemma stat_prefix t : forall p q n,
  stat t q = Ok n -> prefixb p q = true -> exists n', stat t p = Ok n'.
Proof.
  assert (R : forall p q n0 n, resolve n0 q = Ok n -> prefixb p q = true ->
                               exists n', resolve n0 p = Ok n').
  { induction p as [|c p IH]; intros q n0 n H Hp.
    - now exists n0.
    - destruct q as [|c' q]; [discriminate|]. simpl in Hp.
      apply andb_true_iff in Hp as [E Hp]. apply String.eqb_eq in E. subst c'.
      simpl in *. destruct n0 as [m d|m ents]; [discriminate|].
      destruct (find c ents) as [n1|]; [|discriminate]. eauto. }
  intros p q n H Hp. destruct t as [n0|]; [|discriminate]. simpl in *. eauto.
Qed.

Section OnlyDeletesWalk.
Variable S : source.
Variable p : path.
Hypothesis p_out : not_in_source S p.

Lemma prune_walk_back (fn : @WalkFunc tree) fuel st r st' :
  (forall q oi err t r t', fn q oi err t = (r, t') -> from_before p t t') ->
  Walk dst_lstat dst_readDirNames fn fuel st = (r, st') ->
  from_before p st st'.
Proof.
  intros Hfn H.
  eapply (Walk_inv dst_lstat dst_readDirNames fn
                   (fun t => from_before p st t) (fun _ => True));
    [| | exact I | apply from_before_refl | exact H].
  - intros q oi err t r0 t' _ HI _ F.
    eapply from_before_trans; [exact HI | eapply Hfn; eauto].
  - intros; exact I.
Qed.

Lemma copy_walk_back (fn : @WalkFunc tree) fuel st r st' :
  (forall q oi err t r t', prefixb p q = false ->
                           fn q oi err t = (r, t') -> from_before p t t') ->
  (forall q err t r t', fn q None err t = (r, t') -> t' = t) ->
  Walk (src_lstat S) (src_readDirNames S) fn fuel st = (r, st') ->
  from_before p st st'.
Proof.
  intros Hfn Hnone H.
  eapply (Walk_inv (src_lstat S) (src_readDirNames S) fn
                   (fun t => from_before p st t) (fun _ => True));
    [| | exact I | apply from_before_refl | exact H].
  - intros q oi err t r0 t' _ HI Hseen F.
    destruct oi as [i|].
    + eapply from_before_trans; [exact HI | eapply Hfn; [|exact F]].
      simpl in Hseen. unfold src_lstat in Hseen.
      destruct (src_stat S q) as [nq|e] eqn:Sq; [|discriminate].
      apply src_stat_tree in Sq.
      destruct (prefixb p q) eqn:E; [|reflexivity].
      destruct (stat_prefix _ _ _ _ Sq E) as [n' Hn']. now elim (p_out n').
    + now rewrite (Hnone _ _ _ _ _ F).
  - intros; exact I.
Qed.
End OnlyDeletesWalk.

Lemma copy_callbacks_without_info env S q err t r t' :
  (CopyIgnore.copyFn env S q None err t = (r, t') -> t' = t)
  /\ (CopyFlag.copyFn env S q None err t = (r, t') -> t' = t)
  /\ (CopyMode.copyFn env S q None err t = (r, t') -> t' = t).
Proof.
  repeat split; destruct err; intros H; now injection H as _ <-.
Qed.

(** X6: whatever the outcome of [SyncDirs], what the destination then holds
    at a path where the source has nothing was there before the call, with
    the same kind, mode and bytes: outside the paths of the source the
    function creates and changes nothing, it only deletes.  All three
    versions. *)
Theorem SyncDirs_only_deletes_outside_source env lib S dst p :
  not_in_source S p ->
  from_before p dst (snd (CopyIgnore.SyncDirs env lib S dst))
  /\ from_before p dst (snd (CopyFlag.SyncDirs env S dst))
  /\ from_before p dst (snd (CopyMode.SyncDirs env S dst)).
Proof.
  intros Hp. repeat split.
  - unfold CopyIgnore.SyncDirs, bind, gets.
    destruct (Walk dst_lstat dst_readDirNames _ (theight dst) dst)
      as [r1 st1] eqn:W.
    assert (B1 : from_before p dst st1).
    { eapply prune_walk_back; [|exact W].
      intros; eapply CopyIgnore_pruneFn_back; eauto. }
    destruct r1 as [err| |]; try exact B1.
    destruct (negb (isNil err) && negb (IsNotExist err)); [exact B1|].
    destruct (Walk (src_lstat S) _ _ _ st1) as [r2 st2] eqn:W2.
    eapply from_before_trans; [exact B1|].
    eapply copy_walk_back; [exact Hp | | | exact W2].
    + intros; eapply CopyIgnore_copyFn_back; eauto.
    + intros q err0 t r t'. apply copy_callbacks_without_info.
  - unfold CopyFlag.SyncDirs, bind, gets.
    destruct (Walk dst_lstat dst_readDirNames _ (theight dst) dst)
      as [r1 st1] eqn:W.
    assert (B1 : from_before p dst st1).
    { eapply prune_walk_back; [|exact W].
      intros; eapply CopyFlag_pruneFn_back; eauto. }
    destruct r1 as [err| |]; try exact B1.
    destruct (negb (isNil err) && negb (IsNotExist err)); [exact B1|].
    destruct (Walk (src_lstat S) _ _ _ st1) as [r2 st2] eqn:W2.
    eapply from_before_trans; [exact B1|].
    eapply copy_walk_back; [exact Hp | | | exact W2].
    + intros; eapply CopyFlag_copyFn_back; eauto.
    + intros q err0 t r t'. apply copy_callbacks_without_info.
  - unfold CopyMode.SyncDirs, bind, gets.
    destruct (Walk dst_lstat dst_readDirNames _ (theight dst) dst)
      as [r1 st1] eqn:W.
    assert (B1 : from_before p dst st1).
    { eapply prune_walk_back; [|exact W].
      intros; eapply CopyMode_pruneFn_back; eauto. }
    destruct r1 as [err| |]; try exact B1.
    destruct (negb (isNil err) && negb (IsNotExist err)); [exact B1|].
    destruct (Walk (src_lstat S) _ _ _ st1) as [r2 st2] eqn:W2.
    eapply from_before_trans; [exact B1|].
    eapply copy_walk_back; [exact Hp | | | exact W2].
    + intros; eapply CopyMode_copyFn_back; eauto.
    + intros q err0 t r t'. apply copy_callbacks_without_info.
Qed.

Lemma SyncDirs_only_deletes_outside_source_witness :
  from_before ["keep.txt"] dst_app
              (snd (CopyIgnore.SyncDirs env022 plainLib src_app dst_app)).
Proof.
  apply (SyncDirs_only_deletes_outside_source env022 plainLib src_app dst_app
           ["keep.txt"]).
  intros n H. discriminate H.
Defined.

(** * A destination that already agrees with the source *)

(** A walk whose callback changes nothing and answers nil, or [SkipDir] on
    a directory, visits the whole tree and returns nil. *)
Section QuietWalk.
Variable T : tree.
Variable lstat : path -> tree -> result FileInfo.
Variable readDirNames : path -> tree -> result (list string).
Variable fn : @WalkFunc tree.
Variable st : tree.

Hypothesis lstat_T : forall q, lstat q st = info_result (stat T q).
Hypothesis names_T : forall q, readDirNames q st = names_result (stat T q).
Hypothesis fn_quiet : forall q n,
    stat T q = Ok n ->
    fn q (Some (info_of n)) None st = (Ret None, st)
    \/ (IsDir (info_of n) = true
        /\ fn q (Some (info_of n)) None st = (Ret (Some SkipDir), st)).

Lemma walkNames_quiet rec q fuel :
  (forall c n, stat T c = Ok n -> (height n <= fuel)%nat ->
               rec c (info_of n) st = (Ret None, st)
               \/ (IsDir (info_of n) = true
                   /\ rec c (info_of n) st = (Ret (Some SkipDir), st))) ->
  forall names,
    (forall name, In name names ->
                  exists c, stat T (q ++ [name]) = Ok c /\ (height c <= fuel)%nat) ->
    walkNames lstat fn rec q names st = (Ret None, st).
Proof.
  intros Hrec names. induction names as [|name rest IH]; intros Hn.
  - reflexivity.
  - simpl. destruct (Hn name (or_introl eq_refl)) as (c & Hc & Hh).
    rewrite lstat_T, Hc. simpl. unfold bind.
    destruct (Hrec _ _ Hc Hh) as [-> | [D ->]].
    + apply IH. intros x Hx. apply Hn. now right.
    + rewrite D. simpl. apply IH. intros x Hx. apply Hn. now right.
Qed.

Lemma walk_quiet fuel :
  forall q n, stat T q = Ok n -> (height n <= fuel)%nat ->
    walk lstat readDirNames fn fuel q (info_of n) st = (Ret None, st)
    \/ (IsDir (info_of n) = true
        /\ walk lstat readDirNames fn fuel q (info_of n) st
           = (Ret (Some SkipDir), st)).
Proof.
  induction fuel as [|fuel IH]; intros q n Hq Hh.
  - pose proof (height_pos n). lia.
  - destruct n as [m d|m ents].
    + simpl. exact (fn_quiet q _ Hq).
    + cbn [walk info_of IsDir negb]. cbv beta.
      rewrite names_T, Hq. cbn [names_result]. unfold bind.
      destruct (fn_quiet q _ Hq) as [F | [_ F]]; cbn [info_of] in F; rewrite F.
      * left. cbn [isNil negb orb]. apply (walkNames_quiet _ q fuel IH).
        intros name Hin. apply sort_strings_In, names_of_In in Hin.
        destruct (find name ents) as [c|] eqn:Fc; [|now elim Hin].
        exists c. split.
        -- rewrite (stat_app_ok _ q [name] _ Hq). simpl. now rewrite Fc.
        -- rewrite height_Dir in Hh. apply find_hmax in Fc. lia.
      * right. split; reflexivity.
Qed.

Lemma Walk_quiet n :
  T = Some n ->
  Walk lstat readDirNames fn (theight T) st = (Ret None, st).
Proof.
  intros E.
  assert (Hs : stat T [] = Ok n) by now rewrite E.
  assert (Hh : theight T = height n) by now rewrite E.
  unfold Walk, bind. rewrite lstat_T, Hs, Hh. cbn [info_result].
  destruct (walk_quiet (height n) [] n Hs (le_n _)) as [-> | [_ ->]];
    reflexivity.
Qed.
End QuietWalk.

Lemma mismatch_same i : mismatch (Some i) None (Some i) = Ret false.
Proof.
  unfold mismatch. simpl. rewrite !Bool.eqb_reflx. reflexivity.
Qed.

Lemma set_ent_same c n ents :
  find c ents = Some n -> set_ent c (Some n) ents = ents.
Proof.
  induction ents as [|[c' n'] rest IH]; simpl; [discriminate|].
  destruct (String.eqb c c') eqn:E.
  - intros H; injection H as ->. apply String.eqb_eq in E. now subst c'.
  - intros H. now rewrite IH.
Qed.

Lemma set_ent_restore c n x ents :
  find c ents = Some n -> set_ent c (Some n) (set_ent c (Some x) ents) = ents.
Proof.
  induction ents as [|[c' n'] rest IH]; simpl; [discriminate|].
  destruct (String.eqb c c') eqn:E.
  - intros H; injection H as ->. simpl. rewrite String.eqb_refl.
    apply String.eqb_eq in E. now subst c'.
  - intros H. simpl. rewrite E. now rewrite IH.
Qed.

(** Two changes at a path of which the second undoes the first. *)
Lemma descend_round f g q t n o1 :
  stat t q = Ok n ->
  f (Some n) = Ok (Some o1) -> g (Some o1) = Ok (Some n) ->
  exists t1, descend f q t = Ok t1 /\ descend g q t1 = Ok t.
Proof.
  intros Hs Hf Hg. revert t Hs. induction q as [|c q IH]; intros t Hs.
  - destruct t as [n0|]; [|discriminate]. simpl in Hs. injection Hs as ->.
    exists (Some o1). now split.
  - destruct t as [[m d|m ents]|]; try discriminate.
    rewrite stat_cons in Hs.
    destruct (find c ents) as [n1|] eqn:F; [|discriminate].
    destruct (IH _ Hs) as (u & D1 & D2).
    destruct u as [x|].
    2:{ destruct q; simpl in D2; [|discriminate].
        simpl in D1, Hs. injection Hs as ->. rewrite Hf in D1. discriminate. }
    exists (Some (Dir m (set_ent c (Some x) ents))). split.
    + simpl. rewrite F, D1. reflexivity.
    + simpl. rewrite find_set_ent_same, D2.
      now rewrite (set_ent_restore _ _ _ _ F).
Qed.

Lemma mkdirAll_same env perm q t m e :
  stat t q = Ok (Dir m e) -> mkdirAll env perm q t = Ok t.
Proof.
  revert t. induction q as [|c q IH]; intros t Hs.
  - destruct t as [[m0 d|m0 ents]|]; try discriminate. reflexivity.
  - destruct t as [[m0 d|m0 ents]|]; try discriminate.
    rewrite stat_cons in Hs. simpl.
    destruct (find c ents) as [n1|] eqn:F; [|discriminate].
    rewrite (IH _ Hs). now rewrite (set_ent_same _ _ _ F).
Qed.

Lemma sys_round f g q t n o1 :
  stat t q = Ok n ->
  f (Some n) = Ok (Some o1) -> g (Some o1) = Ok (Some n) ->
  exists t1, sys (descend f q) t = (Ret None, t1)
             /\ sys (descend g q) t1 = (Ret None, t).
Proof.
  intros Hs Hf Hg.
  destruct (descend_round f g q t n o1 Hs Hf Hg) as (t1 & D1 & D2).
  exists t1. unfold sys. now rewrite D1, D2.
Qed.

(** Emptying a file and writing its bytes again. *)
Lemma create_and_write env q t m d :
  stat t q = Ok (File m d) ->
  exists t1, os_Create env q t = (Ret None, t1)
             /\ io_Copy q (File m d) t1 = (Ret None, t).
Proof.
  intros Hs. unfold os_Create, io_Copy.
  eapply sys_round; [exact Hs | reflexivity | reflexivity].
Qed.

Section InSync.
Variable env : Env.
Variable S : source.
Variable n0 : node.
Hypothesis no_faults : forall q, src_fault S q = None.
Hypothesis source_is : src_tree S = Some n0.

Lemma src_stat_in_sync q : src_stat S q = stat (Some n0) q.
Proof. unfold src_stat. now rewrite no_faults, source_is. Qed.

Lemma pruneEntry_in_sync q n :
  stat (Some n0) q = Ok n ->
  pruneEntry env S q (Some (info_of n)) (Some n0) = (Ret None, Some n0).
Proof.
  intros Hq. unfold pruneEntry. rewrite src_stat_in_sync, Hq. simpl.
  unfold bind, lift. now rewrite mismatch_same.
Qed.

Lemma CopyIgnore_copyFn_in_sync q n :
  stat (Some n0) q = Ok n ->
  CopyIgnore.copyFn env S q (Some (info_of n)) None (Some n0)
  = (Ret None, Some n0).
Proof.
  intros Hq. unfold CopyIgnore.copyFn, bind, lift.
  destruct n as [m d|m e]; simpl.
  - unfold CopyIgnore.copyFile. rewrite src_stat_in_sync, Hq.
    destruct (create_and_write env q _ m d Hq) as (t1 & C & W).
    unfold orWrap, bind. rewrite C, W.
    destruct (Z.land (Perm m) 64 =? 0) eqn:X; simpl; [reflexivity|].
    change (resolve n0 q) with (stat (Some n0) q). rewrite Hq. simpl.
    now rewrite X.
  - unfold orWrap, bind, MkdirAll, sys.
    now rewrite (mkdirAll_same env 509 q _ m e Hq).
Qed.

End InSync.


(** * git.go: what [Sync] records and touches *)

Section SyncFacts.
Variable SyncDirs : source -> M tree (option error).
Variable W : Outside.

(** X8: when [Sync] reports a change, the remote head was a non-empty
    revision other than the stored one, its checkout succeeded, [SyncDirs]
    returned nil on the local folder, and that revision is now the stored
    one; a further [Sync], by the same or another route to a remote with
    the same head, then reports no change and does nothing but probe. *)
Theorem Sync_change_is_recorded st st' :
  Sync SyncDirs W st = (Ret (true, None), st') ->
  exists c S,
    remote_head (remote W) (gitRepo st) = inl c
    /\ c <> "" /\ c <> lastFetchedCommit (gitRepo st)
    /\ remote_checkout (remote W) (gitRepo st) c = inl S
    /\ SyncDirs S (local st) = (Ret None, local st')
    /\ gitRepo st'
       = mkGitRepo (URL (gitRepo st)) (Branch (gitRepo st))
                   (RepoFolder (gitRepo st)) (username (gitRepo st))
                   (password (gitRepo st)) c
    /\ command st' = command st
    /\ log st' = EvSync :: EvFetch c
                        :: EvProbe (URL (gitRepo st)) (Branch (gitRepo st))
                        :: log st
    /\ forall SyncDirs' W',
        remote_head (remote W') (gitRepo st') = inl c ->
        Sync SyncDirs' W' st'
        = (Ret (false, None),
           mkState (gitRepo st') (command st') (local st')
                   (EvProbe (URL (gitRepo st)) (Branch (gitRepo st)) :: log st')).
Proof.
  unfold Sync at 1, GetLastCommit, bind, gets, emit, modify. simpl.
  destruct (remote_head (remote W) (gitRepo st)) as [c|e] eqn:Hh; [|discriminate].
  destruct (String.eqb c "") eqn:Ec; [discriminate|]. simpl.
  destruct (String.eqb (lastFetchedCommit (gitRepo st)) c) eqn:El; [discriminate|].
  unfold Fetch, bind, gets, emit, modify. simpl.
  destruct (remote_checkout (remote W) (gitRepo st) c) as [S|e] eqn:Hc;
    [|discriminate].
  unfold orReturn, bind, on_local. simpl.
  destruct (SyncDirs S (local st)) as [[[e|]| |] t'] eqn:Hs; try discriminate.
  simpl. intros H. injection H as <-. simpl.
  exists c, S.
  split; [reflexivity|].
  split; [now apply String.eqb_neq|].
  split; [apply String.eqb_neq in El; congruence|].
  split; [exact Hc|].
  split; [exact Hs|].
  split; [reflexivity|].
  split; [reflexivity|].
  split; [reflexivity|].
  intros SyncDirs' W' Hh'.
  unfold Sync, GetLastCommit, bind, gets, emit, modify. simpl.
  simpl in Hh'. rewrite Hh', Ec. simpl. now rewrite String.eqb_refl.
Qed.

(** X9: a [GitRepo] as [NewGitRepo] makes it has no stored revision, and
    the probe never yields an empty one, so its first [Sync] never takes
    the no-change return: it reports a change or an error. *)
Theorem first_Sync_never_reports_no_change
        url branch repoFolder user pass c t l changed st' :
  Sync SyncDirs W (mkState (NewGitRepo url branch repoFolder user pass) c t l)
  = (Ret (changed, None), st') ->
  changed = true.
Proof.
  unfold Sync, GetLastCommit, bind, gets, emit, modify. simpl.
  destruct (remote_head (remote W) _) as [c0|e]; [|discriminate].
  destruct c0 as [|a c0]; [discriminate|]. simpl.
  destruct (Fetch SyncDirs W _ _) as [[[e|]| |] st1]; try discriminate.
  simpl. intros H. now injection H as <- _.
Qed.

End SyncFacts.

Lemma Sync_change_is_recorded_witness :
  exists c S,
    remote_head (remote (outside (remote_at "c0ffee" src_conf))) (gitRepo state0)
    = inl c
    /\ c <> "" /\ c <> lastFetchedCommit (gitRepo state0)
    /\ remote_checkout (remote (outside (remote_at "c0ffee" src_conf)))
                       (gitRepo state0) c = inl S
    /\ CopyIgnore.SyncDirs env022 plainLib S (local state0)
       = (Ret None, Some (Dir 493 [("app.conf", File 420 "v2")])).
Proof.
  destruct (Sync_change_is_recorded
              (CopyIgnore.SyncDirs env022 plainLib)
              (outside (remote_at "c0ffee" src_conf)) state0
              (mkState (mkGitRepo "https://example.org/conf.git" "master" "."
                                  "" "" "c0ffee")
                       (command state0)
                       (Some (Dir 493 [("app.conf", File 420 "v2")]))
                       [EvSync; EvFetch "c0ffee";
                        EvProbe "https://example.org/conf.git" "master"])
              eq_refl)
    as (c & S & H1 & H2 & H3 & H4 & H5 & _).
  exists c, S. repeat split; assumption.
Defined.

Lemma first_Sync_never_reports_no_change_witness :
  true = true.
Proof.
  apply (first_Sync_never_reports_no_change
           (CopyIgnore.SyncDirs env022 plainLib)
           (outside (remote_at "c0ffee" src_conf))
           "https://example.org/conf.git" "master" "." "" ""
           (NewCommand ["server"] ["reload"]) None [] true
           (mkState (mkGitRepo "https://example.org/conf.git" "master" "."
                               "" "" "c0ffee")
                    (NewCommand ["server"] ["reload"])
                    (Some (Dir 493 [("app.conf", File 420 "v2")]))
                    [EvSync; EvFetch "c0ffee";
                     EvProbe "https://example.org/conf.git" "master"])).
  reflexivity.
Defined.


(** * main.go: the hook and the restart *)

Lemma Sync_changed_revision SyncDirs W st st1 :
  Sync SyncDirs W st = (Ret (true, None), st1) ->
  lastFetchedCommit (gitRepo st1) <> "" /\ command st1 = command st.
Proof.
  unfold Sync, GetLastCommit, bind, gets, emit, modify. simpl.
  destruct (remote_head (remote W) (gitRepo st)) as [c|e]; [|discriminate].
  destruct (String.eqb c "") eqn:Ec; [discriminate|]. simpl.
  destruct (String.eqb (lastFetchedCommit (gitRepo st)) c); [discriminate|].
  destruct (Fetch SyncDirs W c _) as [[[e|]| |] st2] eqn:F; try discriminate.
  simpl. intros H. injection H as <-. simpl. split.
  - now apply String.eqb_neq.
  - revert F. unfold Fetch, bind, gets, emit, modify. simpl.
    destruct (remote_checkout (remote W) (gitRepo st) c) as [S|e];
      [|discriminate].
    unfold orReturn, bind, on_local. simpl.
    destruct (SyncDirs S (local st)) as [[[e|]| |] t']; try discriminate.
    intros H. now injection H as <-.
Qed.

(** X11: when [Check] has synchronized a new revision and the pre-update
    hook fails, the command is not restarted, yet the revision stays
    recorded as fetched: the next [Check] that meets the same remote head
    only probes, so neither the hook nor the restart is tried again for
    that revision. *)
Theorem failed_hook_is_not_retried
        SyncDirs (PreUpdateCommand PreUpdateRunner : string) W st st1 e t2 :
  PreUpdateCommand <> "" ->
  Sync SyncDirs W st = (Ret (true, None), st1) ->
  shell W PreUpdateRunner PreUpdateCommand (local st1) = (Some e, t2) ->
  let st2 := mkState (gitRepo st1) (command st) t2
                     (EvShell PreUpdateRunner PreUpdateCommand :: log st1) in
  Check SyncDirs W (beforeUpdate PreUpdateCommand PreUpdateRunner W) st
  = (Ret None, st2)
  /\ forall SyncDirs' W',
      remote_head (remote W') (gitRepo st2) = inl (lastFetchedCommit (gitRepo st2)) ->
      Check SyncDirs' W' (beforeUpdate PreUpdateCommand PreUpdateRunner W') st2
      = (Ret None,
         mkState (gitRepo st2) (command st2) (local st2)
                 (EvProbe (URL (gitRepo st2)) (Branch (gitRepo st2)) :: log st2)).
Proof.
  intros N Hs Hh st2.
  destruct (Sync_changed_revision _ _ _ _ Hs) as [Hc Hcmd].
  apply String.eqb_neq in N.
  split.
  - unfold Check, bind. rewrite Hs. unfold beforeUpdate. rewrite N.
    unfold runShellCommand, orWrap, bind, emit, modify, external, on_local.
    simpl. rewrite Hh. simpl. unfold st2. now rewrite Hcmd.
  - intros SyncDirs' W' Hh'.
    unfold Check, Sync, GetLastCommit, bind, gets, emit, modify. simpl.
    simpl in Hh'. rewrite Hh'.
    apply String.eqb_neq in Hc. rewrite Hc. simpl.
    now rewrite String.eqb_refl.
Qed.

Lemma failed_hook_is_not_retried_witness :
  Check (CopyIgnore.SyncDirs env022 plainLib)
        (mkOutside (remote_at "c0ffee" src_conf) procs_ok
                   (fun _ _ t => (Some (ErrorString "exit status 1"), t)))
        (beforeUpdate "make" "bash"
           (mkOutside (remote_at "c0ffee" src_conf) procs_ok
                      (fun _ _ t => (Some (ErrorString "exit status 1"), t))))
        state0
  = (Ret None,
     mkState (mkGitRepo "https://example.org/conf.git" "master" "." "" ""
                        "c0ffee")
             (command state0)
             (Some (Dir 493 [("app.conf", File 420 "v2")]))
             [EvShell "bash" "make"; EvSync; EvFetch "c0ffee";
              EvProbe "https://example.org/conf.git" "master"]).
Proof.
  apply (failed_hook_is_not_retried
           (CopyIgnore.SyncDirs env022 plainLib) "make" "bash"
           (mkOutside (remote_at "c0ffee" src_conf) procs_ok
                      (fun _ _ t => (Some (ErrorString "exit status 1"), t)))
           state0
           (mkState (mkGitRepo "https://example.org/conf.git" "master" "."
                               "" "" "c0ffee")
                    (command state0)
                    (Some (Dir 493 [("app.conf", File 420 "v2")]))
                    [EvSync; EvFetch "c0ffee";
                     EvProbe "https://example.org/conf.git" "master"])
           (ErrorString "exit status 1")
           (Some (Dir 493 [("app.conf", File 420 "v2")]))).
  - discriminate.
  - reflexivity.
  - reflexivity.
Defined.



(** * command.go: [Restart] and the watcher *)

(** X13: [Restart] without a restart command on a running command, when
    [Stop] gets its answer from the watcher.  If the watcher has not yet
    run its deferred [c.cancel = nil] when [Stop] returns, [Start] still
    finds the command running and refuses: [Restart] returns that error
    and no new process is started although the old one was cancelled.  If
    the watcher has finished, the command is started again and carries the
    new pid, or [Restart] returns the error of the start. *)
Theorem Restart_needs_the_watcher_to_have_finished (P : Procs) st a args :
  RestartArgs (command st) = [] ->
  cancel (command st) = true ->
  Args (command st) = a :: args ->
  (forall e, wait P = WaitErr e -> select_exit P = true) ->
  let code := match wait P with WaitExit code => code | _ => 0 end in
  (watcher_done P = false ->
   Restart P st
   = (Ret (Some (Errorf "failed to start command again"
                        (ErrorString "command is already running"))),
      mkState (gitRepo st)
              (mkCommand (a :: args) (Pid (command st)) [] (cmd (command st))
                         true code)
              (local st) (EvCancel :: log st)))
  /\ (watcher_done P = true ->
      Restart P st
      = match spawn P (a :: args) with
        | inl pid =>
            (Ret None,
             mkState (gitRepo st)
                     (mkCommand (a :: args) pid [] (Some (a :: args)) true code)
                     (local st) (EvSpawn (a :: args) :: EvCancel :: log st))
        | inr e =>
            (Ret (Some (Errorf "failed to start command again" e)),
             mkState (gitRepo st)
                     (mkCommand (a :: args) (Pid (command st)) []
                                (Some (a :: args)) false code)
                     (local st) (EvSpawn (a :: args) :: EvCancel :: log st))
        end).
Proof.
  intros Hr Hc Ha Hw code. unfold code.
  split; intros Hd.
  - unfold Restart, bind, gets. simpl. rewrite Hr, Ha. simpl.
    unfold orWrap, Stop, Start, bind, gets, emit, modify, watcher, IsRunning.
    simpl. rewrite Hc, Hd, Hr, Ha. simpl.
    destruct (wait P) as [|c0|e0] eqn:Wt; simpl; try reflexivity.
    rewrite (Hw e0 eq_refl). reflexivity.
  - unfold Restart, bind, gets. simpl. rewrite Hr, Ha. simpl.
    unfold orWrap, Stop, Start, bind, gets, emit, modify, watcher, IsRunning.
    simpl. rewrite Hc, Hd, Hr, Ha. simpl.
    destruct (wait P) as [|c0|e0] eqn:Wt; simpl.
    + destruct (spawn P (a :: args)); reflexivity.
    + destruct (spawn P (a :: args)); reflexivity.
    + rewrite (Hw e0 eq_refl). simpl.
      destruct (spawn P (a :: args)); reflexivity.
Qed.

Lemma Restart_needs_the_watcher_to_have_finished_witness :
  Restart (mkProcs (fun _ => inl 4242) (WaitExit (-1)) false false
                   (fun _ t => (None, t)))
          (mkState repo0 (mkCommand ["server"] 7 [] (Some ["server"]) true 0)
                   None [])
  = (Ret (Some (Errorf "failed to start command again"
                       (ErrorString "command is already running"))),
     mkState repo0 (mkCommand ["server"] 7 [] (Some ["server"]) true (-1))
             None [EvCancel]).
Proof.
  assert (Hw : forall e : error, WaitExit (-1) = WaitErr e -> false = true)
    by (intros e H; discriminate H).
  apply (proj1 (Restart_needs_the_watcher_to_have_finished
                  (mkProcs (fun _ => inl 4242) (WaitExit (-1)) false false
                           (fun _ t => (None, t)))
                  (mkState repo0
                           (mkCommand ["server"] 7 [] (Some ["server"]) true 0)
                           None [])
                  "server" [] eq_refl eq_refl eq_refl Hw)).
  reflexivity.
Defined.

(** * webhook.go: which requests reach the callback *)





(** * The trigger queue: conservation *)

Lemma queue_conservation evs : forall c,
  (parked c = 0 \/ buffered c = capacity c)%nat ->
  (buffered c <= capacity c)%nat ->
  (triggered evs + buffered c + parked c
   = buffered (queue_run evs c) + parked (queue_run evs c) + delivered evs c)%nat
  /\ (parked (queue_run evs c) = 0
      \/ buffered (queue_run evs c) = capacity (queue_run evs c))%nat.
Proof.
  induction evs as [|ev evs IH]; intros c Hp Hb.
  - simpl. split; [lia | exact Hp].
  - destruct ev.
    + cbn [queue_run fold_left delivered triggered queue_step].
      change (fold_left queue_step evs (snd (chan_send c)))
        with (queue_run evs (snd (chan_send c))).
      destruct (IH (snd (chan_send c))) as [E I].
      * unfold chan_send. destruct (buffered c <? capacity c)%nat eqn:L; simpl.
        -- apply Nat.ltb_lt in L. left. lia.
        -- apply Nat.ltb_ge in L. right. lia.
      * unfold chan_send. destruct (buffered c <? capacity c)%nat eqn:L; simpl.
        -- apply Nat.ltb_lt in L. lia.
        -- exact Hb.
      * split; [|exact I].
        assert (X : (buffered (snd (chan_send c)) + parked (snd (chan_send c))
                     = S (buffered c + parked c))%nat).
        { unfold chan_send.
          destruct (buffered c <? capacity c)%nat; simpl; lia. }
        lia.
    + cbn [queue_run fold_left delivered triggered queue_step].
      unfold chan_recv.
      destruct (buffered c) as [|b] eqn:B.
      * change (fold_left queue_step evs c) with (queue_run evs c).
        destruct (IH c) as [E I]; [rewrite B; exact Hp | lia |].
        split; [|exact I]. rewrite B in E. lia.
      * destruct (parked c) as [|k] eqn:K.
        -- change (fold_left queue_step evs (mkChan (capacity c) b 0))
             with (queue_run evs (mkChan (capacity c) b 0)).
           destruct (IH (mkChan (capacity c) b 0)) as [E I]; simpl;
             [now left | lia |].
           split; [|exact I]. simpl in E. lia.
        -- change (fold_left queue_step evs (mkChan (capacity c) (S b) k))
             with (queue_run evs (mkChan (capacity c) (S b) k)).
           destruct (IH (mkChan (capacity c) (S b) k)) as [E I]; simpl;
             [right; lia | lia |].
           split; [|exact I]. simpl in E. lia.
Qed.

(** X16: no trigger is lost and none is made up.  After any sequence of
    callback calls and receives on the queue of [main], the number of calls
    is the number of triggers the loop has received, plus those in the
    queue, plus the callbacks still parked on it; and a callback is parked
    only while the queue is full. *)
Theorem triggers_are_conserved (evs : list queue_event) :
  (triggered evs
   = delivered evs updateCh
     + buffered (queue_run evs updateCh) + parked (queue_run evs updateCh))%nat
  /\ ((0 < parked (queue_run evs updateCh))%nat ->
      buffered (queue_run evs updateCh) = 5%nat).
Proof.
  destruct (queue_conservation evs updateCh) as [E I].
  - now left.
  - simpl. lia.
  - simpl in E. split; [lia|].
    intros Hp. destruct I as [I | I]; [lia|].
    rewrite I. clear. induction evs as [|ev evs IH] using rev_ind.
    + reflexivity.
    + unfold queue_run in *. rewrite fold_left_app. simpl.
      destruct ev; simpl.
      * unfold chan_send.
        destruct (buffered _ <? capacity _)%nat; simpl; exact IH.
      * unfold chan_recv.
        destruct (buffered (fold_left queue_step evs updateCh)); [exact IH|].
        destruct (parked (fold_left queue_step evs updateCh)); simpl; exact IH.
Qed.

Lemma triggers_are_conserved_witness :
  buffered (queue_run [Trigger; Trigger; Trigger; Trigger; Trigger; Trigger]
                      updateCh) = 5%nat.
Proof.
  apply (proj2 (triggers_are_conserved
                  [Trigger; Trigger; Trigger; Trigger; Trigger; Trigger])).
  simpl. lia.
Defined.

(** * A prune pass that ends early *)

Lemma CopyIgnore_copy_walk_keeps env S p n e0 fuel st r st' :
  src_stat S p = Err e0 ->
  stat st p = Ok n ->
  Walk (src_lstat S) (src_readDirNames S) (CopyIgnore.copyFn env S) fuel st
  = (r, st') ->
  stat st' p = Ok n.
Proof.
  intros E HI H.
  eapply (Walk_inv (src_lstat S) (src_readDirNames S) _
                   (fun st => stat st p = Ok n) (not_below p));
    [| | | exact HI | exact H].
  - intros q oi err t r0 t' Hq Hi Hseen F.
    exact (copyFn_inv env S p n e0 E q oi err t r0 t' Hq Hi Hseen F).
  - intros q i t t' name Hq _ L _ _ Hpre.
    destruct (prefixb_snoc _ _ _ Hpre) as [Hp' | ->]; [|reflexivity].
    now rewrite (seen_in_source S p e0 E _ _ _ Hq L) in Hp'.
  - intros Hp. destruct p; [reflexivity | discriminate].
Qed.

Lemma sorted_names_nonempty x ea : sort_strings (names_of (x :: ea)) <> [].
Proof.
  intros E.
  assert (I : In (fst x) (sort_strings (names_of (x :: ea)))).
  { apply sort_strings_In, names_of_In. destruct x as [c n]. simpl.
    now rewrite String.eqb_refl. }
  now rewrite E in I.
Qed.

Section EarlyEnd.
Variable env : Env.
Variable lib : GoLib.
Variable S : source.
Variables (m sm ma : Z) (ents se ea : list (string * node)).
Variables (a : string) (rest : list string) (x : string * node).

Hypothesis readable : forall q, src_fault S q = None.
Hypothesis source_root : src_tree S = Some (Dir sm se).
Hypothesis root_agrees :
  (Z.land (Perm sm) 73 =? 0) = (Z.land (Perm m) 73 =? 0).
Hypothesis a_not_in_source : find a se = None.
Hypothesis a_first : sort_strings (names_of ents) = a :: rest.
Hypothesis a_dir : find a ents = Some (Dir ma (x :: ea)).
Hypothesis root_not_ignored :
  Match lib (CopyIgnore.loadGitignorePatterns lib S) ["."] true = false.
Hypothesis a_not_ignored :
  Match lib (CopyIgnore.loadGitignorePatterns lib S) [a] true = false.

Lemma prune_walk_ends_early :
  Walk dst_lstat dst_readDirNames
       (CopyIgnore.pruneFn env lib S (CopyIgnore.loadGitignorePatterns lib S))
       (theight (Some (Dir m ents))) (Some (Dir m ents))
  = (Ret (Some (PathError ENOENT)), Some (Dir m (set_ent a None ents))).
Proof.
  set (M := CopyIgnore.loadGitignorePatterns lib S) in *.
  assert (Hh : exists f2, hmax ents = Datatypes.S (Datatypes.S f2)).
  { pose proof (find_hmax _ _ _ a_dir) as H. rewrite height_Dir in H.
    destruct x as [c n]. simpl in H. pose proof (height_pos n).
    destruct (hmax ents) as [|[|f2]]; try lia. eauto. }
  destruct Hh as (f2 & Hh).
  change (theight (Some (Dir m ents))) with (Datatypes.S (hmax ents)).
  rewrite Hh.
  assert (R0 : src_stat S [] = Ok (Dir sm se)).
  { unfold src_stat. now rewrite readable, source_root. }
  assert (Ra : src_stat S [a] = Err ENOENT).
  { unfold src_stat. rewrite readable, source_root. simpl.
    now rewrite a_not_in_source. }
  assert (F0 : CopyIgnore.pruneFn env lib S M [] (Some (mkInfo true m)) None
                 (Some (Dir m ents)) = (Ret None, Some (Dir m ents))).
  { unfold CopyIgnore.pruneFn, bind, lift. simpl.
    rewrite root_not_ignored. unfold pruneEntry. rewrite R0. simpl.
    unfold bind, lift, mismatch. simpl. rewrite root_agrees.
    now rewrite Bool.eqb_reflx. }
  assert (Fa : CopyIgnore.pruneFn env lib S M [a] (Some (mkInfo true ma)) None
                 (Some (Dir m ents))
               = (Ret None, Some (Dir m (set_ent a None ents)))).
  { unfold CopyIgnore.pruneFn, bind, lift. simpl.
    rewrite a_not_ignored. unfold pruneEntry. rewrite Ra. simpl.
    unfold bind, lift, orWrap, bind, RemoveAll. simpl.
    rewrite andb_false_r. reflexivity. }
  unfold Walk, bind.
  change (dst_lstat [] (Some (Dir m ents))) with (Ok (mkInfo true m)).
  cbv beta match.
  cbn [walk IsDir negb]. cbv beta.
  change (dst_readDirNames [] (Some (Dir m ents)))
    with (Ok (sort_strings (names_of ents))).
  cbv beta match. unfold bind. rewrite F0. cbn [isNil negb orb].
  rewrite a_first. cbn [walkNames app].
  assert (La : dst_lstat [a] (Some (Dir m ents)) = Ok (mkInfo true ma)).
  { unfold dst_lstat. simpl. now rewrite a_dir. }
  rewrite La. unfold bind.
  cbn [walk IsDir negb]. cbv beta.
  assert (Na : dst_readDirNames [a] (Some (Dir m ents))
               = Ok (sort_strings (names_of (x :: ea)))).
  { unfold dst_readDirNames. simpl. now rewrite a_dir. }
  rewrite Na. cbv beta match. unfold bind. rewrite Fa. cbn [isNil negb orb].
  destruct (sort_strings (names_of (x :: ea))) as [|y ys] eqn:Ns.
  { now elim (sorted_names_nonempty x ea). }
  cbn [walkNames app].
  assert (Ly : dst_lstat [a; y] (Some (Dir m (set_ent a None ents)))
               = Err ENOENT).
  { unfold dst_lstat. simpl. now rewrite find_set_ent_same. }
  rewrite Ly. unfold bind. reflexivity.
Qed.
End EarlyEnd.


(** * The first synchronization into an empty folder *)

Lemma Walk_nil_root S (fn : @WalkFunc tree) fuel st st' :
  (forall q oi e t, fn q oi (Some e) t = (Ret (Some e), t)) ->
  Walk (src_lstat S) (src_readDirNames S) fn fuel st = (Ret None, st') ->
  exists n, stat (src_tree S) [] = Ok n.
Proof.
  intros Herr. unfold Walk, bind.
  destruct (src_lstat S [] st) as [i|e] eqn:L.
  - intros _. unfold src_lstat in L.
    destruct (src_stat S []) as [n|e] eqn:E; [|discriminate].
    exists n. now apply src_stat_tree.
  - rewrite Herr. discriminate.
Qed.

(** X18: a destination that has nothing below its root, as the local
    folder has at the first synchronization, holds exactly the paths of the
    source when the gitignore-aware [SyncDirs] has returned nil: a
    directory where the source has one, a file with the same bytes (and
    the user-execute bit if the source file has it) where the source has a
    file, and nothing at any other path. *)
Theorem fresh_destination_gets_the_source env lib S dst dst' :
  (forall c p, entry dst (c :: p) = None) ->
  CopyIgnore.SyncDirs env lib S dst = (Ret None, dst') ->
  forall p, match stat (src_tree S) p with
            | Ok n => mirrors exec_handed_on n dst' p
            | Err _ => entry dst' p = None
            end.
Proof.
  intros He. unfold CopyIgnore.SyncDirs, bind, gets.
  destruct (Walk dst_lstat dst_readDirNames _ (theight dst) dst)
    as [r1 st1] eqn:W.
  destruct r1 as [err| |]; try discriminate.
  destruct (negb (isNil err) && negb (IsNotExist err)) eqn:C.
  { destruct err; [discriminate | discriminate C]. }
  intros H p. destruct (stat (src_tree S) p) as [n|e] eqn:E.
  - eapply CopyIgnore_copy_walk_mirrors; eauto.
  - assert (Hp : not_in_source S p) by (intros n; rewrite E; discriminate).
    assert (B : from_before p dst dst').
    { eapply from_before_trans.
      - eapply prune_walk_back; [|exact W].
        intros; eapply CopyIgnore_pruneFn_back; eauto.
      - eapply copy_walk_back; [exact Hp | | | exact H].
        + intros; eapply CopyIgnore_copyFn_back; eauto.
        + intros q err0 t r t'. apply copy_callbacks_without_info. }
    destruct p as [|c p].
    { destruct (Walk_nil_root _ _ _ _ _ (fun q oi e0 t => eq_refl) H) as [n Hn].
      rewrite Hn in E. discriminate. }
    unfold entry. destruct (stat dst' (c :: p)) as [n1|e1] eqn:E1; [|reflexivity].
    specialize (B (shallow n1)). unfold look in B. rewrite E1 in B.
    specialize (B eq_refl). specialize (He c p). unfold entry in He.
    destruct (stat dst (c :: p)); discriminate.
Qed.

Lemma fresh_destination_gets_the_source_witness :
  mirrors exec_handed_on (File 493 "go")
          (snd (CopyIgnore.SyncDirs env022 plainLib src_script
                                    (Some (Dir 493 []))))
          ["run.sh"].
Proof.
  apply (fresh_destination_gets_the_source
           env022 plainLib src_script (Some (Dir 493 []))
           (snd (CopyIgnore.SyncDirs env022 plainLib src_script
                                     (Some (Dir 493 []))))
           (fun c p => eq_refl) eq_refl ["run.sh"]).
Defined.

(** * The version of src/unnamed/part_000 on a destination in agreement *)

Lemma perm_only_find c ents m0 n :
  perm_only (Dir m0 ents) -> find c ents = Some n -> perm_only n.
Proof.
  induction ents as [|[c' n'] rest IH]; simpl; [discriminate|].
  intros [Hn Hr]. destruct (String.eqb c c').
  - intros H. now injection H as <-.
  - now apply IH.
Qed.

Lemma perm_only_stat q : forall n m d,
  perm_only n -> stat (Some n) q = Ok (File m d) -> Perm m = m.
Proof.
  induction q as [|c q IH]; intros n m d Hn Hs.
  - simpl in Hs. injection Hs as ->. exact Hn.
  - destruct n as [m0 d0|m0 ents]; [discriminate|].
    rewrite stat_cons in Hs.
    destruct (find c ents) as [n1|] eqn:F; [|discriminate].
    exact (IH _ _ _ (perm_only_find _ _ _ _ Hn F) Hs).
Qed.

(** A change that puts back what is there. *)
Lemma descend_same f q t n :
  stat t q = Ok n -> f (Some n) = Ok (Some n) -> descend f q t = Ok t.
Proof.
  intros Hs Hf. revert t Hs. induction q as [|c q IH]; intros t Hs.
  - destruct t as [n0|]; [|discriminate]. simpl in Hs. injection Hs as ->.
    exact Hf.
  - destruct t as [[m d|m ents]|]; try discriminate.
    rewrite stat_cons in Hs. simpl.
    destruct (find c ents) as [n1|] eqn:F; [|discriminate].
    rewrite (IH _ Hs). now rewrite (set_ent_same _ _ _ F).
Qed.

Lemma sys_same f q t n :
  stat t q = Ok n -> f (Some n) = Ok (Some n) ->
  sys (descend f q) t = (Ret None, t).
Proof.
  intros Hs Hf. unfold sys. now rewrite (descend_same f q t n Hs Hf).
Qed.

Section InSyncMode.
Variable env : Env.
Variable S : source.
Variable n0 : node.
Hypothesis no_faults : forall q, src_fault S q = None.
Hypothesis source_is : src_tree S = Some n0.
Hypothesis modes : perm_only n0.

Lemma CopyMode_copyFn_in_sync q n :
  stat (Some n0) q = Ok n ->
  CopyMode.copyFn env S q (Some (info_of n)) None (Some n0)
  = (Ret None, Some n0).
Proof.
  intros Hq. unfold CopyMode.copyFn, bind, lift.
  destruct n as [m d|m e]; simpl.
  - unfold CopyMode.copyFile.
    rewrite (src_stat_in_sync S n0 no_faults source_is), Hq.
    destruct (create_and_write env q _ m d Hq) as (t1 & C & W).
    unfold orWrap, orReturn, bind. rewrite C, W.
    rewrite (perm_only_stat q n0 m d modes Hq).
    destruct (m =? 0); simpl; [reflexivity|].
    assert (X : Chmod q m (Some n0) = (Ret None, Some n0)).
    { unfold Chmod. eapply sys_same; [exact Hq | reflexivity]. }
    now rewrite X.
  - unfold orWrap, bind, MkdirAll, sys.
    now rewrite (mkdirAll_same env 509 q _ m e Hq).
Qed.

End InSyncMode.


(** * [NewGitRepo] *)

Lemma trim_left_slash_spec s :
  String.prefix "/" (trim_left_slash s) = false
  /\ exists k, s = (slashes k ++ trim_left_slash s)%string.
Proof.
  induction s as [|c s [IH1 (k & IH2)]]; simpl.
  - split; [reflexivity | now exists 0%nat].
  - destruct (Ascii.eqb c "/"%char) eqn:E.
    + apply Ascii.eqb_eq in E. subst c. split; [exact IH1|].
      exists (Datatypes.S k). simpl. now rewrite <- IH2.
    + split; [|now exists 0%nat].
      simpl. destruct c as [b0 b1 b2 b3 b4 b5 b6 b7].
      destruct b0, b1, b2, b3, b4, b5, b6, b7; try reflexivity.
      discriminate E.
Qed.

(** X20: the [RepoFolder] of a [GitRepo] made by [NewGitRepo] is the
    argument without its leading slashes, all of them, so it does not begin
    with a slash (it is empty for "/"); no revision is stored, and the
    other fields are the arguments. *)
Theorem NewGitRepo_trims_leading_slashes url branch repoFolder user pass :
  let g := NewGitRepo url branch repoFolder user pass in
  String.prefix "/" (RepoFolder g) = false
  /\ (exists k, repoFolder = (slashes k ++ RepoFolder g)%string)
  /\ lastFetchedCommit g = ""
  /\ URL g = url /\ Branch g = branch
  /\ username g = user /\ password g = pass.
Proof.
  simpl. destruct (trim_left_slash_spec repoFolder) as [A B].
  repeat split; assumption.
Qed.

(** * Startup and the update cycle *)

Lemma InitializeGit_error SyncDirs W env b st ok e st' :
  InitializeGit SyncDirs W env b st = (Ret (ok, Some e), st') ->
  (exists m d, local st = Some (File m d))
  /\ local st' = local st /\ log st' = log st /\ command st' = command st.
Proof.
  unfold InitializeGit, bind, on_local, MkdirAll, sys. simpl.
  destruct (local st) as [[m d|m ents]|] eqn:L; simpl.
  - intros H. injection H as _ _ <-. simpl. eauto 6.
  - destruct (Sync SyncDirs W _) as [[[c err]| |] st1]; try discriminate.
    destruct b as [f|]; [|discriminate].
    destruct (f st1) as [[err1| |] st2]; discriminate.
  - destruct (Sync SyncDirs W _) as [[[c err]| |] st1]; try discriminate.
    destruct b as [f|]; [|discriminate].
    destruct (f st1) as [[err1| |] st2]; discriminate.
Qed.



(** X22: an update goes in this order.  When [Check] has synchronized a
    new revision, the hook (if one is configured) is run next and, when it
    has succeeded, the command is restarted; with a restart command
    configured that command is run once and the supervised process is not
    touched.  [Check] returns nil whether the restart command fails or
    not. *)
Theorem update_runs_hook_then_restart
        SyncDirs (PreUpdateCommand PreUpdateRunner : string) W st st1 t2 :
  PreUpdateCommand <> "" ->
  RestartArgs (command st) <> [] ->
  Sync SyncDirs W st = (Ret (true, None), st1) ->
  shell W PreUpdateRunner PreUpdateCommand (local st1) = (None, t2) ->
  Check SyncDirs W (beforeUpdate PreUpdateCommand PreUpdateRunner W) st
  = (Ret None,
     mkState (gitRepo st1) (command st)
             (snd (run (procs W) (RestartArgs (command st)) t2))
             (EvRun (RestartArgs (command st))
                    :: EvShell PreUpdateRunner PreUpdateCommand :: log st1)).
Proof.
  intros N R Hs Hh.
  destruct (Sync_changed_revision _ _ _ _ Hs) as [_ Hcmd].
  apply String.eqb_neq in N.
  unfold Check, bind. rewrite Hs. unfold beforeUpdate. rewrite N.
  unfold runShellCommand, orWrap, bind, emit, modify, external, on_local.
  simpl. rewrite Hh. simpl.
  unfold Restart, bind, gets. simpl. rewrite Hcmd.
  destruct (RestartArgs (command st)) as [|ra rargs] eqn:Ra; [now elim R|].
  simpl. unfold orWrap, bind, emit, modify, external, on_local. simpl.
  destruct (run (procs W) (ra :: rargs) t2) as [[e|] t3]; reflexivity.
Qed.

Lemma update_runs_hook_then_restart_witness :
  Check (CopyIgnore.SyncDirs env022 plainLib)
        (outside (remote_at "c0ffee" src_conf))
        (beforeUpdate "make" "bash" (outside (remote_at "c0ffee" src_conf)))
        state0
  = (Ret None,
     mkState (mkGitRepo "https://example.org/conf.git" "master" "." "" ""
                        "c0ffee")
             (command state0)
             (Some (Dir 493 [("app.conf", File 420 "v2")]))
             [EvRun ["reload"]; EvShell "bash" "make"; EvSync; EvFetch "c0ffee";
              EvProbe "https://example.org/conf.git" "master"]).
Proof.
  apply (update_runs_hook_then_restart
           (CopyIgnore.SyncDirs env022 plainLib) "make" "bash"
           (outside (remote_at "c0ffee" src_conf)) state0
           (mkState (mkGitRepo "https://example.org/conf.git" "master" "."
                               "" "" "c0ffee")
                    (command state0)
                    (Some (Dir 493 [("app.conf", File 420 "v2")]))
                    [EvSync; EvFetch "c0ffee";
                     EvProbe "https://example.org/conf.git" "master"])
           (Some (Dir 493 [("app.conf", File 420 "v2")]))).
  - discriminate.
  - discriminate.
  - reflexivity.
  - reflexivity.
Defined.

(** * A destination without nested entries *)

Section FlatPrune.
Variable env : Env.
Variable lib : GoLib.
Variable S : source.
Variable m : Z.
Hypothesis no_rules : nothing_ignored lib S.

Local Abbreviation prune :=
  (CopyIgnore.pruneFn env lib S (CopyIgnore.loadGitignorePatterns lib S)).

(** The prune callback on a name of the root, when it returns. *)
Lemma pruneFn_top c i ents r st1 :
  prune [c] (Some i) None (Some (Dir m ents)) = (Ret r, st1) ->
  r = None
  /\ (st1 = Some (Dir m (set_ent c None ents))
      \/ (st1 = Some (Dir m ents) /\ exists n', src_stat S [c] = Ok n')).
Proof.
  unfold CopyIgnore.pruneFn, bind, lift. simpl. rewrite no_rules.
  unfold pruneEntry.
  destruct (src_stat S [c]) as [n'|e] eqn:E; simpl; unfold bind, lift.
  - destruct (mismatch (Some (info_of n')) None (Some i)) as [[|]| |];
      try discriminate.
    + unfold orWrap, bind, RemoveAll. simpl. rewrite andb_false_r.
      intros H. injection H as <- <-. auto.
    + intros H. injection H as <- <-. eauto.
  - destruct (mismatch None (Some (PathError e)) (Some i)) as [[|]| |] eqn:Mm;
      try discriminate.
    + unfold orWrap, bind, RemoveAll. simpl. rewrite andb_false_r.
      intros H. injection H as <- <-. auto.
    + exfalso. unfold mismatch in Mm. destruct e; simpl in Mm; discriminate.
Qed.

Lemma walk_leaf f c n ents r st1 :
  find c ents = Some n -> leaf n ->
  walk dst_lstat dst_readDirNames prune (Datatypes.S f) [c] (info_of n)
       (Some (Dir m ents)) = (Ret r, st1) ->
  r = None
  /\ (st1 = Some (Dir m (set_ent c None ents))
      \/ (st1 = Some (Dir m ents) /\ exists n', src_stat S [c] = Ok n')).
Proof.
  intros F L. destruct n as [fm d|dm es].
  - cbn [walk info_of IsDir negb]. intros H. exact (pruneFn_top _ _ _ _ _ H).
  - simpl in L. subst es. cbn [walk info_of IsDir negb]. cbv beta.
    assert (N : dst_readDirNames [c] (Some (Dir m ents)) = Ok []).
    { unfold dst_readDirNames. simpl. now rewrite F. }
    rewrite N. cbv beta match. unfold bind.
    destruct (prune [c] (Some (mkInfo true dm)) None (Some (Dir m ents)))
      as [[r1| |] st'] eqn:P; try discriminate.
    destruct (pruneFn_top _ _ _ _ _ P) as [-> Hst]. simpl.
    intros H. injection H as <- <-. auto.
Qed.
(** The loop of the prune pass over names of the root that are leaves:
    it goes through all of them, and those the source does not have are
    gone afterwards. *)
Lemma walkNames_flat f : forall names ents r st1,
  (forall c, In c names -> exists n, find c ents = Some n /\ leaf n) ->
  NoDup names ->
  walkNames dst_lstat prune
            (walk dst_lstat dst_readDirNames prune (Datatypes.S f))
            [] names (Some (Dir m ents)) = (Ret r, st1) ->
  r = None
  /\ exists ents',
      st1 = Some (Dir m ents')
      /\ (forall c n, find c ents' = Some n -> find c ents = Some n)
      /\ (forall c, In c names -> (forall n', src_stat S [c] <> Ok n') ->
                    find c ents' = None).
Proof.
  induction names as [|c rest IH]; intros ents r st1 Hl Hd H.
  - simpl in H. injection H as <- <-. split; [reflexivity|].
    exists ents. split; [reflexivity|]. split; [auto|]. intros c [].
  - destruct (Hl c (or_introl eq_refl)) as (n & F & L).
    cbn [walkNames app] in H.
    assert (La : dst_lstat [c] (Some (Dir m ents)) = Ok (info_of n)).
    { unfold dst_lstat. simpl. now rewrite F. }
    rewrite La in H. unfold bind in H.
    destruct (walk dst_lstat dst_readDirNames prune (Datatypes.S f) [c]
                   (info_of n) (Some (Dir m ents))) as [[r1| |] st'] eqn:Wk;
      try discriminate.
    destruct (walk_leaf _ _ _ _ _ _ F L Wk) as [-> Hst].
    inversion Hd as [|? ? Hnin Hd']; subst.
    destruct Hst as [-> | [-> (n' & Hn')]].
    + destruct (IH (set_ent c None ents) r st1) as (-> & ents' & -> & Sub & Gone);
        [ | exact Hd' | exact H | ].
      * intros c' Hin. destruct (Hl c' (or_intror Hin)) as (n1 & F1 & L1).
        exists n1. split; [|exact L1].
        rewrite find_set_ent_other; [exact F1|].
        apply String.eqb_neq. intros ->. now elim Hnin.
      * split; [reflexivity|]. exists ents'. split; [reflexivity|]. split.
        -- intros c' n1 F1. specialize (Sub _ _ F1).
           destruct (String.eqb c' c) eqn:E.
           ++ apply String.eqb_eq in E. subst c'.
              rewrite find_set_ent_same in Sub. discriminate.
           ++ now rewrite find_set_ent_other in Sub.
        -- intros c' [<- | Hin] Hn.
           ++ destruct (find c ents') as [n1|] eqn:F1; [|reflexivity].
              specialize (Sub _ _ F1). rewrite find_set_ent_same in Sub.
              discriminate.
           ++ now apply Gone.
    + destruct (IH ents r st1) as (-> & ents' & -> & Sub & Gone);
        [ | exact Hd' | exact H | ].
      * intros c' Hin. exact (Hl c' (or_intror Hin)).
      * split; [reflexivity|]. exists ents'. split; [reflexivity|]. split.
        -- exact Sub.
        -- intros c' [<- | Hin] Hn.
           ++ now elim (Hn n').
           ++ now apply Gone.
Qed.

(** The prune callback on the root, when it returns. *)
Lemma pruneFn_root i st r st1 :
  prune [] (Some i) None st = (Ret r, st1) ->
  (r = None /\ (st1 = st \/ st1 = None))
  \/ (exists e, r = Some (Errorf "failed to remove dst file or dir" e)).
Proof.
  unfold CopyIgnore.pruneFn, bind, lift. simpl. rewrite no_rules.
  unfold pruneEntry.
  destruct (os_Stat (src_stat S [])) as [si se].
  unfold bind, lift.
  destruct (mismatch si se (Some i)) as [[|]| |]; try discriminate.
  - unfold orWrap, bind, RemoveAll. simpl.
    destruct (dotRoot env); simpl.
    + intros H. injection H as <- <-. right. eauto.
    + intros H. injection H as <- <-. left. auto.
  - intros H. injection H as <- <-. left. auto.
Qed.

Lemma hmax_zero ents : hmax ents = 0%nat -> ents = [].
Proof.
  destruct ents as [|[c n] rest]; [reflexivity|]. simpl.
  pose proof (height_pos n). lia.
Qed.

(** After a prune pass over a flat destination that [SyncDirs] goes on
    from, no name of the root is left that the source does not have. *)
Lemma prune_flat ents r st1 :
  flat (Some (Dir m ents)) ->
  Walk dst_lstat dst_readDirNames prune
       (theight (Some (Dir m ents))) (Some (Dir m ents)) = (Ret r, st1) ->
  negb (isNil r) && negb (IsNotExist r) = false ->
  forall c, (forall n', src_stat S [c] <> Ok n') ->
            forall p', entry st1 (c :: p') = None.
Proof.
  intros Hf H Hr c Hc p'.
  change (theight (Some (Dir m ents))) with (Datatypes.S (hmax ents)) in H.
  unfold Walk, bind in H.
  change (dst_lstat [] (Some (Dir m ents))) with (Ok (mkInfo true m)) in H.
  cbv beta match in H.
  cbn [walk IsDir negb] in H. cbv beta in H.
  change (dst_readDirNames [] (Some (Dir m ents)))
    with (Ok (sort_strings (names_of ents))) in H.
  cbv beta match in H. unfold bind in H.
  destruct (prune [] (Some (mkInfo true m)) None (Some (Dir m ents)))
    as [[r0| |] st0] eqn:P0; try discriminate.
  destruct (pruneFn_root _ _ _ _ P0) as [[-> Hst] | (e0 & ->)].
  2:{ cbn [isNil negb orb] in H. simpl in H. injection H as <- <-.
      discriminate Hr. }
  cbn [isNil negb orb] in H.
  destruct Hst as [-> | ->].
  - destruct (hmax ents) as [|f] eqn:Hh.
    + apply hmax_zero in Hh. subst ents. simpl in H.
      injection H as <- <-. reflexivity.
    + destruct (walkNames dst_lstat prune _ [] _ (Some (Dir m ents)))
        as [[r1| |] st'] eqn:Wn; try discriminate.
      assert (Hl : forall c0, In c0 (sort_strings (names_of ents)) ->
                              exists n, find c0 ents = Some n /\ leaf n).
      { intros c0 Hin. apply sort_strings_In, names_of_In in Hin.
        destruct (find c0 ents) as [n|] eqn:F; [|now elim Hin].
        exists n. split; [reflexivity|]. apply (Hf c0). simpl. now rewrite F. }
      assert (Hd : NoDup (sort_strings (names_of ents)))
        by apply sort_strings_NoDup, names_of_NoDup.
      destruct (walkNames_flat f _ _ _ _ Hl Hd Wn)
        as (-> & ents' & -> & Sub & Gone).
      simpl in H. injection H as <- <-.
      unfold entry. rewrite stat_cons.
      destruct (find c ents') as [n|] eqn:F; [|reflexivity].
      rewrite Gone in F; [discriminate | | exact Hc].
      apply sort_strings_In, names_of_In.
      rewrite (Sub _ _ F). discriminate.
  - destruct (walkNames_gone prune (fun q oi e t => eq_refl)
                (walk dst_lstat dst_readDirNames prune (hmax ents)) []
                (sort_strings (names_of ents))) as (r1 & Wn & _).
    rewrite Wn in H.
    destruct r1 as [[]|]; simpl in H; injection H as <- <-; reflexivity.
Qed.
End FlatPrune.

Lemma from_before_none p t t' :
  from_before p t t' -> entry t p = None -> entry t' p = None.
Proof.
  intros B. unfold entry.
  destruct (stat t' p) as [n1|e1] eqn:E1; [|reflexivity].
  specialize (B (shallow n1)). unfold look in B. rewrite E1 in B.
  specialize (B eq_refl). destruct (stat t p); discriminate.
Qed.

Lemma flat_below t c x p' : flat t -> entry t (c :: x :: p') = None.
Proof.
  intros Hf. unfold entry.
  destruct (stat t [c]) as [n|e] eqn:E.
  - change (c :: x :: p') with ([c] ++ x :: p').
    rewrite (stat_app_ok _ _ _ _ E).
    specialize (Hf _ _ E). destruct n as [fm d|dm es]; [reflexivity|].
    simpl in Hf. subst es. reflexivity.
  - destruct t as [[fm d|dm es]|]; try reflexivity.
    simpl in *. destruct (find c es); [discriminate | reflexivity].
Qed.

(** X23: for a destination whose root holds only files and empty
    directories, and a source none of whose ignore rules matches anything,
    the prune pass does reach every entry: when the gitignore-aware
    [SyncDirs] has returned nil, the destination holds exactly the paths of
    the source, a directory where the source has one, a file with the same
    bytes (and the user-execute bit if the source file has it) where the
    source has a file, and nothing at any other path. *)
Theorem flat_destination_gets_the_source env lib S dst dst' :
  flat dst -> nothing_ignored lib S ->
  CopyIgnore.SyncDirs env lib S dst = (Ret None, dst') ->
  forall p, match stat (src_tree S) p with
            | Ok n => mirrors exec_handed_on n dst' p
            | Err _ => entry dst' p = None
            end.
Proof.
  intros Hf Hn. unfold CopyIgnore.SyncDirs, bind, gets.
  destruct (Walk dst_lstat dst_readDirNames _ (theight dst) dst)
    as [r1 st1] eqn:W.
  destruct r1 as [err| |]; try discriminate.
  destruct (negb (isNil err) && negb (IsNotExist err)) eqn:C.
  { destruct err; [discriminate | discriminate C]. }
  intros H p. destruct (stat (src_tree S) p) as [n|e] eqn:E.
  - eapply CopyIgnore_copy_walk_mirrors; eauto.
  - assert (Hp : not_in_source S p) by (intros n; rewrite E; discriminate).
    assert (B1 : from_before p dst st1).
    { eapply prune_walk_back; [|exact W].
      intros; eapply CopyIgnore_pruneFn_back; eauto. }
    assert (B2 : from_before p st1 dst').
    { eapply copy_walk_back; [exact Hp | | | exact H].
      + intros; eapply CopyIgnore_copyFn_back; eauto.
      + intros q err0 t r t'. apply copy_callbacks_without_info. }
    apply (from_before_none _ _ _ B2).
    destruct p as [|c p'].
    { destruct (Walk_nil_root _ _ _ _ _ (fun q oi e0 t => eq_refl) H) as [n Hn'].
      rewrite Hn' in E. discriminate. }
    destruct (src_stat S [c]) as [n'|e'] eqn:Sc.
    + destruct p' as [|x p''].
      { apply src_stat_tree in Sc. rewrite Sc in E. discriminate. }
      apply (from_before_none _ _ _ B1). now apply flat_below.
    + destruct dst as [[fm d|dm ents]|].
      * apply (from_before_none _ _ _ B1). reflexivity.
      * eapply prune_flat; [exact Hn | exact Hf | exact W | exact C |].
        intros n' X. rewrite Sc in X. discriminate X.
      * apply (from_before_none _ _ _ B1). reflexivity.
Qed.

Lemma flat_destination_gets_the_source_witness :
  entry (snd (CopyIgnore.SyncDirs env022 plainLib src_conf dst_flat))
        ["old.conf"] = None.
Proof.
  apply (fun H1 H2 H3 =>
           flat_destination_gets_the_source
             env022 plainLib src_conf dst_flat
             (snd (CopyIgnore.SyncDirs env022 plainLib src_conf dst_flat))
             H1 H2 H3 ["old.conf"]).
  - intros c n. simpl.
    destruct (String.eqb c "app.conf").
    + intros H. injection H as <-. exact I.
    + destruct (String.eqb c "old.conf"); [|discriminate].
      intros H. injection H as <-. exact I.
  - intros q d. reflexivity.
  - reflexivity.
Defined.
